(** * Uniform domain division (UDD) and 3D-DDA traversal of tesseract/RayTracer

    A shallow embedding of [voxelize.h] / [voxelize.c] (the voxel grid, the
    voxelizer, the startup-voxel locator and the grid traverser) and of the
    Moeller-Trumbore test of [src/raytrace.c].

    Conventions of the embedding.
    - [int32_t] values are integers of [Z]; every [int32_t] operation of the
      source is followed by [wrap32], the two's complement wrap-around.
    - [float] values belong to an abstract carrier equipped with the
      operations the source uses ([FloatOps]); the [double] intermediate
      results of [rtUddCreate] are not told apart from [float].  Nothing is
      assumed about those operations: every theorem stated over an arbitrary
      [FloatOps] holds whatever the rounding behaviour is.  The instance
      [ExactQ] reads each operation as the exact operation on rationals
      (rounding, infinities and NaN are absent from it, and a division by
      zero yields 0); it is executable and is used for concrete runs and for
      the statements that need arithmetic laws.  The instance [Binary32] is
      IEEE 754 single precision with every operation rounded to nearest,
      ties to even; the concrete runs are repeated in it.
    - Undefined behaviour of the C program (out-of-range float to integer
      conversion, out-of-bounds array access, dereferencing an invalid
      pointer) is the result [None].
    - [malloc] is an oracle: each call site receives a boolean telling whether
      the allocation succeeds.
    - A pointer to a triangle of the scene is the index of the triangle in
      the scene's array; a possibly-NULL pointer is an [option]. *)

From Stdlib Require Import ZArith QArith Qabs Qround List Bool Lia Lqa Permutation Sorted.
From Stdlib Require Import Floats.SpecFloat.
Import ListNotations.

Local Open Scope Z_scope.

(** ** 32-bit integers *)

Definition INT32_MAX : Z := 2147483647.
Definition INT32_MIN : Z := -2147483648.

Definition wrap32 (z : Z) : Z := (z + 2147483648) mod 4294967296 - 2147483648.

Definition in_int32 (z : Z) : bool := (INT32_MIN <=? z) && (z <=? INT32_MAX).

(** ** Single-precision arithmetic, as an interface *)

Class FloatOps : Type := {
  float : Type;
  fadd : float -> float -> float;
  fsub : float -> float -> float;
  fmul : float -> float -> float;
  fdiv : float -> float -> float;
  (** [a < b] and [a == b] of C. *)
  flt : float -> float -> bool;
  feq : float -> float -> bool;
  (** [rtAbs] of vectormath.h and [ceil] of math.h. *)
  rtAbs : float -> float;
  fceil : float -> float;
  (** Conversions [int32_t -> float] and [float -> int32_t]; the latter
      truncates toward zero and is undefined when the truncated value is not
      an [int32_t]. *)
  float_of_int : Z -> float;
  int_of_float : float -> option Z;
  (** A decimal literal of the source. *)
  flit : Q -> float;
  FLT_MAX : float
}.

Declare Scope float_scope.
Delimit Scope float_scope with F.
Infix "+" := fadd : float_scope.
Infix "-" := fsub : float_scope.
Infix "*" := fmul : float_scope.
Infix "/" := fdiv : float_scope.
Infix "<?" := flt : float_scope.
Infix "=?" := feq : float_scope.

(** ** Exact rational arithmetic *)

Definition Qltb (a b : Q) : bool := (Qnum a * QDen b <? Qnum b * QDen a)%Z.

Definition Qtrunc (q : Q) : Z := Z.quot (Qnum q) (QDen q).

Definition Q_to_int32 (q : Q) : option Z :=
  let z := Qtrunc q in if in_int32 z then Some z else None.

Definition Q_FLT_MAX : Q := inject_Z 340282346638528859811704183484516925440.

(** Every result is reduced to lowest terms, so that equal values are equal
    terms. *)
#[export] Instance ExactQ : FloatOps := {|
  float := Q;
  fadd := fun a b => Qred (a + b);
  fsub := fun a b => Qred (a - b);
  fmul := fun a b => Qred (a * b);
  fdiv := fun a b => Qred (a / b);
  flt := Qltb;
  feq := Qeq_bool;
  rtAbs := fun a => Qred (Qabs a);
  fceil := fun q => inject_Z (Qceiling q);
  float_of_int := inject_Z;
  int_of_float := Q_to_int32;
  flit := Qred;
  FLT_MAX := Q_FLT_MAX
|}.

(** ** IEEE 754 single precision *)

(** [float] as the standard library specifies binary32: 24 bits of precision,
    infinities at exponent 128, every result rounded to nearest, ties to
    even. *)
Definition b32_of_int (z : Z) : spec_float := binary_normalize 24 128 z 0 false.

(** The conversion to [int32_t]: the integer part, toward zero. *)
Definition b32_trunc (x : spec_float) : option Z :=
  match x with
  | S754_zero _ => Some 0
  | S754_finite sg m e =>
      let mag := if 0 <=? e then Z.shiftl (Zpos m) e else Z.shiftr (Zpos m) (- e) in
      let z := if sg then - mag else mag in
      if in_int32 z then Some z else None
  | _ => None
  end.

Definition b32_ceil (x : spec_float) : spec_float :=
  match x with
  | S754_finite sg m e =>
      if 0 <=? e then x
      else
        let fl := Z.shiftr (Zpos m) (- e) in
        let exact := Z.shiftl fl (- e) =? Zpos m in
        let z := if sg then - fl else if exact then fl else fl + 1 in
        binary_normalize 24 128 z 0 sg
  | _ => x
  end.

(** The float nearest to a fraction whose numerator and denominator are
    below [2^24]. *)
Definition b32_lit (q : Q) : spec_float :=
  SFdiv 24 128 (b32_of_int (Qnum q)) (b32_of_int (QDen q)).

Definition Binary32 : FloatOps := {|
  float := spec_float;
  fadd := SFadd 24 128;
  fsub := SFsub 24 128;
  fmul := SFmul 24 128;
  fdiv := SFdiv 24 128;
  flt := SFltb;
  feq := SFeqb;
  rtAbs := SFabs;
  fceil := b32_ceil;
  float_of_int := b32_of_int;
  int_of_float := b32_trunc;
  flit := b32_lit;
  FLT_MAX := S754_finite false 16777215 104
|}.

(** ** Vectors *)

Inductive axis : Type := AX | AY | AZ.

Record vec3 (A : Type) : Type := V3 { cx : A; cy : A; cz : A }.
Arguments V3 {A} _ _ _.
Arguments cx {A} _.
Arguments cy {A} _.
Arguments cz {A} _.

Definition vget {A : Type} (v : vec3 A) (a : axis) : A :=
  match a with AX => cx v | AY => cy v | AZ => cz v end.

Notation "v .[ a ]" := (vget v a) (at level 1, left associativity, format "v .[ a ]").

Definition axis_eq_dec (a b : axis) : {a = b} + {a <> b}.
Proof. decide equality. Defined.

(** A small option monad for the undefined-behaviour result. *)
Notation "'do' x <- e ; k" :=
  (match e with Some x => k | None => None end)
  (at level 10, x pattern, e at level 100, k at level 200).

(** ** Data model (voxelize.h, and the scene as voxelize.c uses it) *)

(** A pointer into the scene's triangle array. *)
Definition tri_ptr : Type := nat.

Section Model.
Context {FO : FloatOps}.
Local Open Scope float_scope.

Definition point : Type := vec3 float.

(** [RT_Triangle]: its declaration is not among the sources; these are the
    members voxelize.c reads.  [isint] is the triangle's intersection routine,
    called through the member of that name with the ray origin and direction:
    [Some d] when it returns non-zero and stores the distance [d], [None]
    when it returns zero. *)
Record RT_Triangle : Type := {
  tri_i : point;
  tri_j : point;
  tri_k : point;
  tri_n : point;
  tri_d : float;
  isint : point -> point -> option float
}.

(** [RT_Scene]: the members voxelize.c reads. *)
Record RT_Scene : Type := {
  dmin : point;
  dmax : point;
  nt : Z;
  scene_t : list RT_Triangle
}.

(** [RT_Voxel]: [vnt], [vp] and [vt] are its members [nt], [p] and [t].
    [vt] is [None] for the NULL pointer, otherwise the allocated cells, each
    NULL or a triangle pointer. *)
Record RT_Voxel : Type := {
  vnt : Z;
  vp : Z;
  vt : option (list (option tri_ptr))
}.

(** [RT_Udd]. *)
Record RT_Udd : Type := {
  s : vec3 float;
  nv : vec3 Z;
  v : list RT_Voxel
}.

(** A voxel as [memset] to zero leaves it. *)
Definition zero_voxel : RT_Voxel := {| vnt := 0; vp := 0; vt := None |}.

(** Array access, undefined outside the array. *)
Definition at_index {A : Type} (l : list A) (z : Z) : option A :=
  if (z <? 0)%Z then None else nth_error l (Z.to_nat z).

Fixpoint set_nth {A : Type} (l : list A) (n : nat) (a : A) : list A :=
  match l, n with
  | [], _ => []
  | _ :: l', O => a :: l'
  | x :: l', S n' => x :: set_nth l' n' a
  end.

Definition store_index {A : Type} (l : list A) (z : Z) (a : A) : option (list A) :=
  if ((z <? 0) || (Z.of_nat (length l) <=? z))%Z then None
  else Some (set_nth l (Z.to_nat z) a).

(** ** Inline functions of voxelize.h *)

Definition in_grid (udd : RT_Udd) (i j k : Z) : bool :=
  (negb ((i <? 0) || (udd.(nv).[AX] <=? i)) &&
   negb ((j <? 0) || (udd.(nv).[AY] <=? j)) &&
   negb ((k <? 0) || (udd.(nv).[AZ] <=? k)))%Z.

Definition rtVertexGetVoxel (scene : RT_Scene) (udd : RT_Udd) (p : point)
  : option (bool * (Z * Z * Z)) :=
  do i <- int_of_float ((p.[AX] - scene.(dmin).[AX]) / udd.(s).[AX]);
  do j <- int_of_float ((p.[AY] - scene.(dmin).[AY]) / udd.(s).[AY]);
  do k <- int_of_float ((p.[AZ] - scene.(dmin).[AZ]) / udd.(s).[AZ]);
  Some (in_grid udd i j k, (i, j, k)).

Definition rtVoxelArrayOffset (udd : RT_Udd) (i j k : Z) : Z :=
  wrap32 (wrap32 (wrap32 (wrap32 (i * udd.(nv).[AY]) + j) * udd.(nv).[AZ]) + k).

(** ** rtVoxelAddTriangle *)

(** The voxel after the allocation step, [None] when the function returns 0
    there; undefined when [memcpy] would read outside the old array. *)
Definition voxel_make_room (malloc_ok : bool) (vox : RT_Voxel) (bufsize : Z)
  : option (option RT_Voxel) :=
  match vox.(vt) with
  | None =>
      if malloc_ok
      then Some (Some {| vnt := vox.(vnt); vp := bufsize;
                         vt := Some (repeat None (Z.to_nat bufsize)) |})
      else Some None
  | Some old =>
      if (vox.(vp) =? 0)%Z then
        if malloc_ok then
          if ((vox.(vnt) <? 0) || (Z.of_nat (length old) <? vox.(vnt)))%Z then None
          else
            let size := wrap32 (vox.(vnt) + bufsize) in
            Some (Some {| vnt := vox.(vnt); vp := bufsize;
                          vt := Some (firstn (Z.to_nat vox.(vnt)) old
                                      ++ repeat None (Z.to_nat (size - vox.(vnt)))) |})
        else Some None
      else Some (Some vox)
  end.

Definition rtVoxelAddTriangle (malloc_ok : bool) (vox : RT_Voxel) (t : tri_ptr) (bufsize : Z)
  : option (Z * RT_Voxel) :=
  do room <- voxel_make_room malloc_ok vox bufsize;
  match room with
  | None => Some (0%Z, vox)
  | Some v1 =>
      do cells <- match v1.(vt) with
                  | Some cells => store_index cells v1.(vnt) (Some t)
                  | None => None
                  end;
      Some (1%Z, {| vnt := wrap32 (v1.(vnt) + 1);
                    vp := wrap32 (v1.(vp) - 1);
                    vt := Some cells |})
  end.

(** The triangles a voxel holds: the first [nt] cells of its array. *)
Definition voxel_cells (vox : RT_Voxel) : list (option tri_ptr) :=
  match vox.(vt) with
  | Some cells => firstn (Z.to_nat vox.(vnt)) cells
  | None => []
  end.

(** ** Helpers of vectormath.h and common.h *)

(** Modelled from the spec: [rtVectorDotp] of vectormath.h is not among the
    sources; it is the dot product of the geometry primitives. *)
Definition rtVectorDotp (a b : point) : float :=
  a.[AX] * b.[AX] + a.[AY] * b.[AY] + a.[AZ] * b.[AZ].

(** Modelled from the spec: [rtVectorRaypoint] of vectormath.h is not among
    the sources; it is the ray-point evaluator [o + t r]. *)
Definition rtVectorRaypoint (o r : point) (d : float) : point :=
  V3 (o.[AX] + r.[AX] * d) (o.[AY] + r.[AY] * d) (o.[AZ] + r.[AZ] * d).

(** Modelled from the spec: the three-argument [MIN] and [MAX] macros of
    common.h are not among the sources; they are the minimum and the maximum
    of their arguments. *)
Definition MIN (a b c : float) : float :=
  if a <? b then (if a <? c then a else c) else (if b <? c then b else c).

Definition MINi (a b c : Z) : Z := Z.min a (Z.min b c).
Definition MAXi (a b c : Z) : Z := Z.max a (Z.max b c).

(** ** rtUddCreate *)

(** The first loop: the scene bounds are enlarged in place. *)
Definition inflate (scene : RT_Scene) : RT_Scene :=
  let lo := scene.(dmin) in
  let hi := scene.(dmax) in
  let e := flit (1 # 1000) in
  {| dmin := V3 (lo.[AX] - e) (lo.[AY] - e) (lo.[AZ] - e);
     dmax := V3 (hi.[AX] + e) (hi.[AY] + e) (hi.[AZ] + e);
     nt := scene.(nt);
     scene_t := scene.(scene_t) |}.

(** [ds[k]], from the enlarged bounds. *)
Definition domain_size (scene : RT_Scene) (a : axis) : float :=
  scene.(dmax).[a] - scene.(dmin).[a] + flit (1 # 1000).

(** [v], the number of voxels per unit of length; [c_pow] is [pow] of math.h. *)
Definition density (c_pow : float -> float -> float) (scene : RT_Scene) : float :=
  c_pow (float_of_int scene.(nt)
         / (domain_size scene AX * domain_size scene AY * domain_size scene AZ))
        (flit (33333 # 100000))
  + flit (1 # 1000).

(** The result is the scene as the call leaves it and the returned pointer
    ([None] for NULL). *)
Definition rtUddCreate (c_pow : float -> float -> float) (malloc_res malloc_v : bool)
  (scene : RT_Scene) : option (RT_Scene * option RT_Udd) :=
  if negb malloc_res then Some (scene, None)
  else
    let scene' := inflate scene in
    let vv := density c_pow scene' in
    let tmp := fun a => fceil (domain_size scene' a * vv) in
    do nx <- int_of_float (tmp AX);
    do ny <- int_of_float (tmp AY);
    do nz <- int_of_float (tmp AZ);
    let size := V3 (domain_size scene' AX / tmp AX)
                   (domain_size scene' AY / tmp AY)
                   (domain_size scene' AZ / tmp AZ) in
    let total := float_of_int (wrap32 (wrap32 (nx * ny) * nz)) in
    (* malloc(tmp*sizeof(RT_Voxel)): the conversion to size_t *)
    do count <- int_of_float total;
    if (count <? 0)%Z then None
    else if malloc_v
    then Some (scene', Some {| s := size; nv := V3 nx ny nz;
                               v := repeat zero_voxel (Z.to_nat count) |})
    else Some (scene', None).

(** ** rtUddVoxelize *)

Definition BUFSIZE : Z := 10.

(** The planes of voxel [(i,j,k)], as both the voxelizer and the traverser
    compute them: [(x1, x2, y1, y2, z1, z2)]. *)
Definition voxel_lo (scene : RT_Scene) (udd : RT_Udd) (a : axis) (i : Z) : float :=
  scene.(dmin).[a] + float_of_int i * udd.(s).[a].

Definition voxel_hi (scene : RT_Scene) (udd : RT_Udd) (a : axis) (i : Z) : float :=
  voxel_lo scene udd a i + udd.(s).[a].

(** The value of the plane equation of [t] at [p]. *)
Definition plane_value (t : RT_Triangle) (p : point) : float :=
  rtVectorDotp t.(tri_n) p + t.(tri_d).

(** The sign test of the general path: [true] when the nested conditions all
    hold and the voxel is skipped by [continue].  [bfl] and [ufl] are as the
    source builds them. *)
Definition voxel_skipped (scene : RT_Scene) (udd : RT_Udd) (t : RT_Triangle) (i j k : Z) : bool :=
  let x1 := voxel_lo scene udd AX i in
  let x2 := voxel_hi scene udd AX i in
  let y1 := voxel_lo scene udd AY j in
  let y2 := voxel_hi scene udd AY j in
  let z1 := voxel_lo scene udd AZ k in
  let z2 := voxel_hi scene udd AZ k in
  let bcl := V3 x1 y1 z1 in
  let bcr := V3 x2 y1 z1 in
  let bfl := V3 x1 y1 x2 in
  let bfr := V3 x2 y1 z2 in
  let ucl := V3 x1 y2 z1 in
  let ucr := V3 x2 y2 z1 in
  let ufl := V3 x1 y2 x2 in
  let ufr := V3 x2 y2 z2 in
  let s1 := plane_value t bcl in
  (flit 0 <? s1 * plane_value t bcr) &&
  (flit 0 <? s1 * plane_value t bfl) &&
  (flit 0 <? s1 * plane_value t bfr) &&
  (flit 0 <? s1 * plane_value t ucl) &&
  (flit 0 <? s1 * plane_value t ucr) &&
  (flit 0 <? s1 * plane_value t ufl) &&
  (flit 0 <? s1 * plane_value t ufr).

(** [rtVoxelAddTriangle(self->v + offset, t, BUFSIZE)], its result ignored as
    in the source.  The state carries the number of such calls made so far;
    [alloc n] tells whether an allocation attempted by the [n]-th call
    succeeds. *)
Definition add_to_voxel (alloc : nat -> bool) (st : RT_Udd * nat) (off : Z) (t : tri_ptr)
  : option (RT_Udd * nat) :=
  let '(udd, n) := st in
  do vox <- at_index udd.(v) off;
  do r <- rtVoxelAddTriangle (alloc n) vox t BUFSIZE;
  Some ({| s := udd.(s); nv := udd.(nv);
           v := set_nth udd.(v) (Z.to_nat off) (snd r) |}, S n).

Definition zrange (lo hi : Z) : list Z :=
  map (fun n => (lo + Z.of_nat n)%Z) (seq 0 (Z.to_nat (hi - lo + 1))).

(** The voxels the three nested loops visit, in their order. *)
Definition candidate_box (mn mx : vec3 Z) : list (Z * Z * Z) :=
  flat_map (fun i =>
    flat_map (fun j =>
      map (fun k => (i, j, k)) (zrange mn.[AZ] mx.[AZ]))
      (zrange mn.[AY] mx.[AY]))
    (zrange mn.[AX] mx.[AX]).

Definition vertex_index (scene : RT_Scene) (udd : RT_Udd) (p : point) (a : axis) : option Z :=
  int_of_float ((p.[a] - scene.(dmin).[a]) / udd.(s).[a]).

(** [min] and [max] of the source: the box of voxel indices of the vertices. *)
Definition index_box (scene : RT_Scene) (udd : RT_Udd) (t : RT_Triangle)
  : option (vec3 Z * vec3 Z) :=
  let idx := fun a =>
    do i <- vertex_index scene udd t.(tri_i) a;
    do j <- vertex_index scene udd t.(tri_j) a;
    do k <- vertex_index scene udd t.(tri_k) a;
    Some (MINi i j k, MAXi i j k) in
  do bx <- idx AX;
  do by_ <- idx AY;
  do bz <- idx AZ;
  Some (V3 (fst bx) (fst by_) (fst bz), V3 (snd bx) (snd by_) (snd bz)).

(** One iteration of the [while (t < maxt)] loop. *)
Definition voxelize_triangle (alloc : nat -> bool) (scene : RT_Scene)
  (st : RT_Udd * nat) (tp : tri_ptr) : option (RT_Udd * nat) :=
  let udd := fst st in
  do t <- nth_error scene.(scene_t) tp;
  do box <- index_box scene udd t;
  let '(mn, mx) := box in
  if ((mn.[AX] =? mx.[AX]) && (mn.[AY] =? mx.[AY]) && (mn.[AZ] =? mx.[AZ]))%Z
  then add_to_voxel alloc st (rtVoxelArrayOffset udd mn.[AX] mn.[AY] mn.[AZ]) tp
  else
    fold_left (fun acc ijk =>
      do st' <- acc;
      let '(i, j, k) := ijk in
      if voxel_skipped scene udd t i j k then Some st'
      else add_to_voxel alloc st' (rtVoxelArrayOffset udd i j k) tp)
      (candidate_box mn mx) (Some st).

Definition rtUddVoxelize (malloc_tmp : bool) (alloc : nat -> bool)
  (udd : RT_Udd) (scene : RT_Scene) : option RT_Udd :=
  if negb malloc_tmp then Some udd
  else
    do st <- fold_left (fun acc tp => do st <- acc; voxelize_triangle alloc scene st tp)
                       (seq 0 (Z.to_nat scene.(nt))) (Some (udd, O));
    Some (fst st).

(** ** rtUddFindStartupVoxel *)

(** The update of the two smallest positive distances by one wall distance. *)
Definition track_two_smallest (d : float) (m : float * float) : float * float :=
  let '(dmin1, dmin2) := m in
  if flit 0 <? d then
    if d <? dmin1 then (d, dmin1)
    else if d <? dmin2 then (dmin1, d)
    else m
  else m.

(** One iteration of the loop over the axes. *)
Definition wall_distances (scene : RT_Scene) (o r : point) (m : float * float) (a : axis)
  : float * float :=
  if negb (r.[a] =? flit 0) then
    let m1 := track_two_smallest ((scene.(dmin).[a] - o.[a]) / r.[a]) m in
    track_two_smallest ((scene.(dmax).[a] - o.[a]) / r.[a]) m1
  else m.

Definition two_smallest_distances (scene : RT_Scene) (o r : point) : float * float :=
  fold_left (wall_distances scene o r) [AX; AY; AZ] (FLT_MAX, FLT_MAX).

(** The result is the returned flag and the indices left in [*i, *j, *k]. *)
Definition rtUddFindStartupVoxel (udd : RT_Udd) (scene : RT_Scene) (o r : point)
  : option (bool * (Z * Z * Z)) :=
  do here <- rtVertexGetVoxel scene udd o;
  if fst here then Some (true, snd here)
  else
    let '(dmin1, dmin2) := two_smallest_distances scene o r in
    do first <- rtVertexGetVoxel scene udd (rtVectorRaypoint o r dmin1);
    if fst first then Some (true, snd first)
    else
      do second <- rtVertexGetVoxel scene udd (rtVectorRaypoint o r dmin2);
      if fst second then Some (true, snd second)
      else Some (false, snd second).

(** ** rtUddTraverse *)

(** [dt] and [t] of one axis, from the planes [lo], [hi] of the entry voxel. *)
Definition axis_setup (lo hi o r : float) : float * float :=
  if r =? flit 0 then (FLT_MAX, flit 0)
  else
    let dt1 := (lo - o) / r in
    let dt2 := (hi - o) / r in
    (rtAbs (dt2 - dt1), if dt1 <? dt2 then dt1 else dt2).

(** [di], [dj], [dk]. *)
Definition axis_step (r : float) : Z := if flit 0 <? r then 1%Z else (-1)%Z.

(** The variables the loop updates. *)
Record cursor : Type := {
  ci : Z; cj : Z; ck : Z;
  tx : float; ty : float; tz : float
}.

(** The variables fixed before the loop. *)
Record dda : Type := {
  dtx : float; dty : float; dtz : float;
  di : Z; dj : Z; dk : Z
}.

Definition dda_init (udd : RT_Udd) (scene : RT_Scene) (o r : point) (i j k : Z)
  : dda * cursor :=
  let sx := axis_setup (voxel_lo scene udd AX i) (voxel_hi scene udd AX i) o.[AX] r.[AX] in
  let sy := axis_setup (voxel_lo scene udd AY j) (voxel_hi scene udd AY j) o.[AY] r.[AY] in
  let sz := axis_setup (voxel_lo scene udd AZ k) (voxel_hi scene udd AZ k) o.[AZ] r.[AZ] in
  ({| dtx := fst sx; dty := fst sy; dtz := fst sz;
      di := axis_step r.[AX]; dj := axis_step r.[AY]; dk := axis_step r.[AZ] |},
   {| ci := i; cj := j; ck := k; tx := snd sx; ty := snd sy; tz := snd sz |}).

(** The cells [voxel->t .. voxel->t + voxel->nt] the inner loop reads. *)
Definition voxel_read (vox : RT_Voxel) : option (list (option tri_ptr)) :=
  do cells <- vox.(vt);
  if (Z.of_nat (length cells) <? vox.(vnt))%Z then None
  else Some (firstn (Z.to_nat vox.(vnt)) cells).

Definition ptr_eqb (a b : option tri_ptr) : bool :=
  match a, b with
  | Some x, Some y => Nat.eqb x y
  | None, None => true
  | _, _ => false
  end.

(** The inner loop over the triangles of a voxel: the final [dmin] and
    [nearest]. *)
Fixpoint scan_voxel (scene : RT_Scene) (current : option tri_ptr) (o r : point)
  (cells : list (option tri_ptr)) (dmin_ : float) (nearest : option tri_ptr)
  : option (float * option tri_ptr) :=
  match cells with
  | [] => Some (dmin_, nearest)
  | c :: rest =>
      if ptr_eqb c current then scan_voxel scene current o r rest dmin_ nearest
      else
        do tp <- c;
        do t <- nth_error scene.(scene_t) tp;
        match t.(isint) o r with
        | Some d =>
            if d <? dmin_ then scan_voxel scene current o r rest d (Some tp)
            else scan_voxel scene current o r rest dmin_ nearest
        | None => scan_voxel scene current o r rest dmin_ nearest
        end
  end.

(** The bound [dmin] starts from in a voxel. *)
Definition exit_bound (c : dda) (cur : cursor) : float :=
  MIN (cur.(tx) + c.(dtx)) (cur.(ty) + c.(dty)) (cur.(tz) + c.(dtz)).

(** "proceed to next voxel": the branch taken, named by the axis whose index
    it moves. *)
Definition next_axis (c : dda) (cur : cursor) : axis :=
  let tx_n := cur.(tx) + c.(dtx) in
  let ty_n := cur.(ty) + c.(dty) in
  let tz_n := cur.(tz) + c.(dtz) in
  if tx_n <? ty_n then
    if tx_n <? tz_n then AX else AZ
  else
    if ty_n <? tz_n then AY else AZ.

(** The two assignments of a branch: [i+=di; tx=tx_n;] and the like. *)
Definition advance (c : dda) (cur : cursor) (a : axis) : cursor :=
  match a with
  | AX => {| ci := wrap32 (cur.(ci) + c.(di)); cj := cur.(cj); ck := cur.(ck);
             tx := cur.(tx) + c.(dtx); ty := cur.(ty); tz := cur.(tz) |}
  | AY => {| ci := cur.(ci); cj := wrap32 (cur.(cj) + c.(dj)); ck := cur.(ck);
             tx := cur.(tx); ty := cur.(ty) + c.(dty); tz := cur.(tz) |}
  | AZ => {| ci := cur.(ci); cj := cur.(cj); ck := wrap32 (cur.(ck) + c.(dk));
             tx := cur.(tx); ty := cur.(ty); tz := cur.(tz) + c.(dtz) |}
  end.

Definition next_voxel (c : dda) (cur : cursor) : cursor :=
  advance c cur (next_axis c cur).

(** What a call of the traverser comes to. *)
Inductive traversal : Type :=
| Hit (t : tri_ptr) (ipoint : point)
| NoHit
| Undefined
| OutOfFuel.

(** "check intersections in current voxel": the triangle found, with its
    distance. *)
Definition voxel_hit (udd : RT_Udd) (scene : RT_Scene) (current : option tri_ptr)
  (o r : point) (c : dda) (cur : cursor) : option (option (tri_ptr * float)) :=
  do vox <- at_index udd.(v) (rtVoxelArrayOffset udd cur.(ci) cur.(cj) cur.(ck));
  if (0 <? vox.(vnt))%Z then
    do cells <- voxel_read vox;
    do found <- scan_voxel scene current o r cells (exit_bound c cur) None;
    match snd found with
    | Some tp => Some (Some (tp, fst found))
    | None => Some None
    end
  else Some None.

(** The [while (1)] loop, run for at most [fuel] iterations. *)
Fixpoint traverse_loop (fuel : nat) (udd : RT_Udd) (scene : RT_Scene)
  (current : option tri_ptr) (o r : point) (c : dda) (cur : cursor) : traversal :=
  match fuel with
  | O => OutOfFuel
  | S fuel' =>
      match voxel_hit udd scene current o r c cur with
      | None => Undefined
      | Some (Some (tp, d)) => Hit tp (rtVectorRaypoint o r d)
      | Some None =>
          let cur' := next_voxel c cur in
          if in_grid udd cur'.(ci) cur'.(cj) cur'.(ck)
          then traverse_loop fuel' udd scene current o r c cur'
          else NoHit
      end
  end.

Definition rtUddTraverse (fuel : nat) (udd : RT_Udd) (scene : RT_Scene)
  (current : option tri_ptr) (o r : point) (i j k : Z) : traversal :=
  let '(c, cur) := dda_init udd scene o r i j k in
  traverse_loop fuel udd scene current o r c cur.

End Model.

(** ** Vocabulary for the statements about the traverser *)

Section Vocabulary.
Context {FO : FloatOps}.
Local Open Scope float_scope.

Definition cursor_index (cur : cursor) (a : axis) : Z :=
  match a with AX => cur.(ci) | AY => cur.(cj) | AZ => cur.(ck) end.

Definition cursor_t (cur : cursor) (a : axis) : float :=
  match a with AX => cur.(tx) | AY => cur.(ty) | AZ => cur.(tz) end.

Definition dda_step (c : dda) (a : axis) : Z :=
  match a with AX => c.(di) | AY => c.(dj) | AZ => c.(dk) end.

Definition dda_dt (c : dda) (a : axis) : float :=
  match a with AX => c.(dtx) | AY => c.(dty) | AZ => c.(dtz) end.

(** [tx_n], [ty_n], [tz_n]. *)
Definition t_next (c : dda) (cur : cursor) (a : axis) : float :=
  cursor_t cur a + dda_dt c a.

(** Neither value is below the other. *)
Definition tied (x y : float) : Prop := (x <? y) = false /\ (y <? x) = false.

(** The cursor at the head of the [n]-th iteration, when none returned. *)
Definition cursor_after (c : dda) (cur : cursor) (n : nat) : cursor :=
  Nat.iter n (next_voxel c) cur.

Definition cursor_in_grid (udd : RT_Udd) (cur : cursor) : bool :=
  in_grid udd cur.(ci) cur.(cj) cur.(ck).

(** The cells of the voxel under the cursor, empty when its [nt] is not
    positive. *)
Definition cells_at (udd : RT_Udd) (cur : cursor) : option (list (option tri_ptr)) :=
  do vox <- at_index udd.(v) (rtVoxelArrayOffset udd cur.(ci) cur.(cj) cur.(ck));
  if (0 <? vox.(vnt))%Z then voxel_read vox else Some [].

(** [tp] is a triangle other than [current] whose [isint] reports the
    distance [d] for the ray. *)
Definition candidate_hit (scene : RT_Scene) (current : option tri_ptr) (o r : point)
  (tp : tri_ptr) (d : float) : Prop :=
  Some tp <> current /\
  exists t, nth_error scene.(scene_t) tp = Some t /\ t.(isint) o r = Some d.

(** No triangle of [cells] other than [current] has a reported distance
    below [bound]. *)
Definition nothing_below (scene : RT_Scene) (current : option tri_ptr) (o r : point)
  (cells : list (option tri_ptr)) (bound : float) : Prop :=
  forall tp d, In (Some tp) cells -> candidate_hit scene current o r tp d ->
               (d <? bound) = false.

(** The number of steps an index can still take before it leaves the grid. *)
Definition steps_left (udd : RT_Udd) (c : dda) (cur : cursor) (a : axis) : Z :=
  if (dda_step c a =? 1)%Z then (udd.(nv).[a] - cursor_index cur a)%Z
  else (cursor_index cur a + 1)%Z.

(** Every cell a voxel exposes holds a pointer into the scene's array. *)
Definition cell_ok (scene : RT_Scene) (c : option tri_ptr) : bool :=
  match c with
  | Some tp => Nat.ltb tp (length scene.(scene_t))
  | None => false
  end.

Definition voxel_ok (scene : RT_Scene) (vox : RT_Voxel) : bool :=
  (vox.(vnt) <=? 0)%Z ||
  match voxel_read vox with
  | Some cells => forallb (cell_ok scene) cells
  | None => false
  end.

(** The grid is well formed for the scene: a positive resolution, a voxel
    count that fits [int32_t], that many voxels, each of them readable. *)
Definition grid_ok (scene : RT_Scene) (udd : RT_Udd) : bool :=
  ((1 <=? udd.(nv).[AX]) && (1 <=? udd.(nv).[AY]) && (1 <=? udd.(nv).[AZ])
   && (udd.(nv).[AX] * udd.(nv).[AY] * udd.(nv).[AZ] <=? INT32_MAX)
   && (Z.of_nat (length udd.(v)) =? udd.(nv).[AX] * udd.(nv).[AY] * udd.(nv).[AZ]))%Z
  && forallb (voxel_ok scene) udd.(v).

End Vocabulary.

(** ** The intersection test of src/raytrace.c *)

Section Intersection.
Context {FO : FloatOps}.
Local Open Scope float_scope.

(** Modelled from the spec: [vec_vector_make], [vec_vector_crossp] and
    [vec_vector_dotp] are not among the sources; they are the vector from one
    point to another, the cross product and the dot product. *)
Definition vec_vector_make (a b : point) : point :=
  V3 (b.[AX] - a.[AX]) (b.[AY] - a.[AY]) (b.[AZ] - a.[AZ]).

Definition vec_vector_crossp (a b : point) : point :=
  V3 (a.[AY] * b.[AZ] - a.[AZ] * b.[AY])
     (a.[AZ] * b.[AX] - a.[AX] * b.[AZ])
     (a.[AX] * b.[AY] - a.[AY] * b.[AX]).

Definition vec_vector_dotp (a b : point) : float := rtVectorDotp a b.

Definition EPSILON : float := flit (1 # 1000000).

(** [ray_triangle_intersection] on the vertices [ti], [tj], [tk]. *)
Definition ray_triangle_intersection (ti tj tk o r : point) : option float :=
  let ij := vec_vector_make ti tj in
  let ik := vec_vector_make ti tk in
  let pvec := vec_vector_crossp r ik in
  let det := vec_vector_dotp ij pvec in
  if ((flit 0 - EPSILON) <? det) && (det <? EPSILON) then None
  else
    let inv_det := flit 1 / det in
    let tvec := vec_vector_make ti o in
    let u := vec_vector_dotp tvec pvec * inv_det in
    if (u <? flit 0) || (flit 1 <? u) then None
    else
      let qvec := vec_vector_crossp tvec ij in
      let v_ := vec_vector_dotp r qvec * inv_det in
      if (v_ <? flit 0) || (flit 1 <? u + v_) then None
      else Some (vec_vector_dotp ik qvec * inv_det).

(** A triangle whose [isint] member is the test above on its own vertices. *)
Definition mk_triangle (ti tj tk n : point) (d : float) : RT_Triangle :=
  {| tri_i := ti; tri_j := tj; tri_k := tk; tri_n := n; tri_d := d;
     isint := ray_triangle_intersection ti tj tk |}.

End Intersection.

(** ** Vocabulary for the statements about voxels *)

(** The representation invariant of a voxel: [nt] used cells followed by [p]
    free ones, none allocated before the first insertion. *)
Definition voxel_wf (vox : RT_Voxel) : Prop :=
  0 <= vox.(vnt) /\ 0 <= vox.(vp) /\ vox.(vnt) + vox.(vp) <= INT32_MAX /\
  match vox.(vt) with
  | None => vox.(vnt) = 0 /\ vox.(vp) = 0
  | Some cells => Z.of_nat (length cells) = vox.(vnt) + vox.(vp)
  end.

(** [rtVoxelAddTriangle] calls [malloc] on this voxel. *)
Definition wants_room (vox : RT_Voxel) : bool :=
  match vox.(vt) with
  | None => true
  | Some _ => vox.(vp) =? 0
  end.

(** ** Vocabulary for the statements about the grid *)

Section GridVocabulary.
Context {FO : FloatOps}.
Local Open Scope float_scope.

(** Two grids with the same resolution, voxel size and number of voxels. *)
Definition same_shape (udd udd' : RT_Udd) : Prop :=
  udd'.(s) = udd.(s) /\ udd'.(nv) = udd.(nv)
  /\ length udd'.(v) = length udd.(v).

(** The eight corners of the box of voxel [(i,j,k)], from
    [dmin + (i,j,k) s] to [dmin + (i+1,j+1,k+1) s], as the spec words the
    test of the general path. *)
Definition voxel_corners (scene : RT_Scene) (udd : RT_Udd) (i j k : Z) : list point :=
  let x1 := voxel_lo scene udd AX i in
  let x2 := voxel_lo scene udd AX (i + 1) in
  let y1 := voxel_lo scene udd AY j in
  let y2 := voxel_lo scene udd AY (j + 1) in
  let z1 := voxel_lo scene udd AZ k in
  let z2 := voxel_lo scene udd AZ (k + 1) in
  [V3 x1 y1 z1; V3 x2 y1 z1; V3 x1 y1 z2; V3 x2 y1 z2;
   V3 x1 y2 z1; V3 x2 y2 z1; V3 x1 y2 z2; V3 x2 y2 z2].

(** All the points are strictly on one side of the plane of [t]. *)
Definition same_strict_sign (t : RT_Triangle) (ps : list point) : bool :=
  forallb (fun p => flit 0 <? plane_value t p) ps
  || forallb (fun p => plane_value t p <? flit 0) ps.

End GridVocabulary.

(** ** Concrete scenes, in exact arithmetic *)

(** [pow] of math.h is not part of the repository.  ISO C fixes
    [pow(1, y) = 1] for every [y] and [pow(+0, y) = +0] for [y > 0];
    [pow_fixed] has these two values and stands for [pow] only in runs of
    [rtUddCreate] that call it at base 1 or 0.  The general statements about
    [rtUddCreate] take [pow] as a parameter. *)
Definition pow_fixed (x y : Q) : Q := if Qeq_bool x 1 then 1%Q else 0%Q.

Definition q3 (a b c : Q) : @point ExactQ := V3 a b c.

(** A: a sliver in the plane [3x - 4z + 3.6 = 0] near the edge [x = 0, z = 1],
    with vertices in the voxels (0,0,1) and (0,1,1). *)
Definition tri_A : @RT_Triangle ExactQ :=
  mk_triangle (q3 (1 # 50) (1 # 10) (183 # 200))
              (q3 (1 # 10) (3 # 10) (39 # 40))
              (q3 (1 # 25) (4 # 5) (93 # 100))
              (q3 (3 # 5) 0 (- 4 # 5)) (18 # 25).

(** B: in the plane [z = 1/4], inside the voxel (0,0,0). *)
Definition tri_B : @RT_Triangle ExactQ :=
  mk_triangle (q3 (1 # 100) (1 # 100) (1 # 4))
              (q3 (2 # 5) (1 # 100) (1 # 4))
              (q3 (1 # 100) (9 # 20) (1 # 4))
              (q3 0 0 1) (- 1 # 4).

(** C: in the plane [z = 3/4], inside the voxel (0,0,1). *)
Definition tri_C : @RT_Triangle ExactQ :=
  mk_triangle (q3 (1 # 100) (1 # 100) (3 # 4))
              (q3 (2 # 5) (1 # 100) (3 # 4))
              (q3 (1 # 100) (9 # 20) (3 # 4))
              (q3 0 0 1) (- 3 # 4).

Definition scene_of (ts : list (@RT_Triangle ExactQ)) : @RT_Scene ExactQ :=
  {| dmin := q3 (1 # 1000) (1 # 1000) (1 # 1000);
     dmax := q3 (1998 # 1000) (998 # 1000) (998 # 1000);
     nt := Z.of_nat (length ts);
     scene_t := ts |}.

Definition scene_AB : @RT_Scene ExactQ := scene_of [tri_A; tri_B].
Definition scene_CB : @RT_Scene ExactQ := scene_of [tri_C; tri_B].

(** The scenes as [rtUddCreate] leaves them. *)
Definition scene_AB' : @RT_Scene ExactQ := inflate scene_AB.
Definition scene_CB' : @RT_Scene ExactQ := inflate scene_CB.

(** The grid [rtUddCreate] builds for either scene: 3 x 2 x 2 voxels of size
    2/3 x 1/2 x 1/2 over the box from (0,0,0) to (2,1,1). *)
Definition grid_empty : @RT_Udd ExactQ :=
  {| s := q3 (2 # 3) (1 # 2) (1 # 2);
     nv := V3 3 2 2;
     v := repeat zero_voxel 12 |}.

Definition voxel_with (tp : tri_ptr) : RT_Voxel :=
  {| vnt := 1; vp := 9; vt := Some (Some tp :: repeat None 9) |}.

(** The grids after [rtUddVoxelize]. *)
Definition grid_AB : @RT_Udd ExactQ :=
  {| s := q3 (2 # 3) (1 # 2) (1 # 2);
     nv := V3 3 2 2;
     v := voxel_with 1%nat :: repeat zero_voxel 11 |}.

Definition grid_CB : @RT_Udd ExactQ :=
  {| s := q3 (2 # 3) (1 # 2) (1 # 2);
     nv := V3 3 2 2;
     v := voxel_with 1%nat :: voxel_with 0%nat :: repeat zero_voxel 10 |}.

(** A ray pointing down the z axis from inside the voxel (0,0,1). *)
Definition ray_o : @point ExactQ := q3 (1 # 20) (3 # 10) (99 # 100).
Definition ray_r : @point ExactQ := q3 0 0 (- 1).

(** A unit-length ray in the voxel (0,0,0) aimed at the edge [x = 2/3,
    y = 1/2] of that voxel. *)
Definition edge_o : @point ExactQ := q3 (5 # 12) (1 # 6) (1 # 4).
Definition edge_r : @point ExactQ := q3 (3 # 5) (4 # 5) 0.

(** A unit-length ray that starts outside the domain on all three axes and
    enters it at [t = 21/10], at the point (0, 1/2, 2/5). *)
Definition corner_o : @point ExactQ := q3 (- 9 # 5) (- 2 # 5) (- 1 # 5).
Definition corner_r : @point ExactQ := q3 (6 # 7) (3 # 7) (2 # 7).

(** A ray that starts outside the domain, at [x = -1/5], and moves away
    from it. *)
Definition away_o : @point ExactQ := q3 (- 1 # 5) (3 # 10) (3 # 10).
Definition away_r : @point ExactQ := q3 (- 1) 0 0.

(** An empty scene about two million units wide. *)
Definition scene_wide : @RT_Scene ExactQ :=
  {| dmin := q3 (1 # 1000) (1 # 1000) (1 # 1000);
     dmax := q3 2047500 2047500 2047500;
     nt := 0;
     scene_t := [] |}.

(** What [rtUddCreate] returns for it: a resolution of 2048 per axis and no
    voxel. *)
Definition grid_wide : @RT_Udd ExactQ :=
  {| s := q3 (1023750001 # 1024000) (1023750001 # 1024000) (1023750001 # 1024000);
     nv := V3 2048 2048 2048;
     v := [] |}.

(** ** The same scene and rays, in IEEE single precision *)

Definition f3 (a b c : Q) : @point Binary32 := V3 (b32_lit a) (b32_lit b) (b32_lit c).

Definition tri_A32 : @RT_Triangle Binary32 :=
  @mk_triangle Binary32
    (f3 (1 # 50) (1 # 10) (183 # 200))
    (f3 (1 # 10) (3 # 10) (39 # 40))
    (f3 (1 # 25) (4 # 5) (93 # 100))
    (f3 (3 # 5) 0 (- 4 # 5)) (b32_lit (18 # 25)).

Definition tri_B32 : @RT_Triangle Binary32 :=
  @mk_triangle Binary32
    (f3 (1 # 100) (1 # 100) (1 # 4))
    (f3 (2 # 5) (1 # 100) (1 # 4))
    (f3 (1 # 100) (9 # 20) (1 # 4))
    (f3 0 0 1) (b32_lit (- 1 # 4)).

(** The scene with its bounds already inflated, and the grid of
    [grid_empty] with its sizes rounded to single precision. *)
Definition scene32 : @RT_Scene Binary32 :=
  {| dmin := f3 0 0 0;
     dmax := f3 (1999 # 1000) (999 # 1000) (999 # 1000);
     nt := 2;
     scene_t := [tri_A32; tri_B32] |}.

Definition grid32_empty : @RT_Udd Binary32 :=
  {| s := f3 (2 # 3) (1 # 2) (1 # 2);
     nv := V3 3 2 2;
     v := repeat zero_voxel 12 |}.

Definition grid32 : @RT_Udd Binary32 :=
  {| s := f3 (2 # 3) (1 # 2) (1 # 2);
     nv := V3 3 2 2;
     v := voxel_with 1%nat :: repeat zero_voxel 11 |}.

Definition ray32_o : @point Binary32 := f3 (1 # 20) (3 # 10) (99 # 100).
Definition ray32_r : @point Binary32 := f3 0 0 (- 1).

Definition corner32_o : @point Binary32 := f3 (- 9 # 5) (- 2 # 5) (- 1 # 5).
Definition corner32_r : @point Binary32 := f3 (6 # 7) (3 # 7) (2 # 7).

Definition away32_o : @point Binary32 := f3 (- 1 # 5) (3 # 10) (3 # 10).
Definition away32_r : @point Binary32 := f3 (- 1) 0 0.

(** A ray from the corner (0,0) of the voxel (0,0,0) whose direction has the
    proportions of the voxel, so that it leaves through the opposite edge. *)
Definition diag32_o : @point Binary32 := f3 0 0 (1 # 4).
Definition diag32_r : @point Binary32 := f3 (2 # 3) (1 # 2) 0.

(** ** Vocabulary for the statements about sequences of calls *)

(** [rtVoxelAddTriangle] called on one voxel for each pointer of [ts] in
    turn, every allocation succeeding. *)
Definition add_all (bufsize : Z) (vox : RT_Voxel) (ts : list tri_ptr) : option RT_Voxel :=
  fold_left (fun acc t =>
               do vx <- acc;
               do r <- rtVoxelAddTriangle true vx t bufsize;
               Some (snd r))
            ts (Some vox).

Section FurtherVocabulary.
Context {FO : FloatOps}.
Local Open Scope float_scope.

(** [vox'] is well formed and holds the triangles of [vox] followed by
    further triangles of the scene. *)
Definition voxel_extends (scene : RT_Scene) (vox vox' : RT_Voxel) : Prop :=
  voxel_wf vox'
  /\ exists added : list tri_ptr,
       voxel_cells vox' = voxel_cells vox ++ map Some added
       /\ Forall (fun tp => (tp < length scene.(scene_t))%nat
                            /\ (Z.of_nat tp < scene.(nt))%Z) added.

(** The same grid, each voxel extended. *)
Definition grid_extends (scene : RT_Scene) (udd udd' : RT_Udd) : Prop :=
  udd'.(s) = udd.(s) /\ udd'.(nv) = udd.(nv)
  /\ Forall2 (voxel_extends scene) udd.(v) udd'.(v).

(** The triangles of the voxel at array offset [off], none outside the
    array. *)
Definition grid_cells (udd : RT_Udd) (off : Z) : list (option tri_ptr) :=
  match at_index udd.(v) off with
  | Some vox => voxel_cells vox
  | None => []
  end.

Definition in_index_box (mn mx : vec3 Z) (i j k : Z) : bool :=
  ((mn.[AX] <=? i) && (i <=? mx.[AX]) && (mn.[AY] <=? j) && (j <=? mx.[AY])
   && (mn.[AZ] <=? k) && (k <=? mx.[AZ]))%Z.

(** The condition under which the voxelizer inserts triangle [tp] into the
    voxel [(i,j,k)]: the voxel is in the index box of the vertices, and the
    box is a single voxel or the sign test does not skip the voxel. *)
Definition stores (scene : RT_Scene) (udd : RT_Udd) (i j k : Z) (tp : tri_ptr) : bool :=
  match nth_error scene.(scene_t) tp with
  | Some t =>
      match index_box scene udd t with
      | Some (mn, mx) =>
          in_index_box mn mx i j k
          && (((mn.[AX] =? mx.[AX]) && (mn.[AY] =? mx.[AY]) && (mn.[AZ] =? mx.[AZ]))%Z
              || negb (voxel_skipped scene udd t i j k))
      | None => false
      end
  | None => false
  end.

(** Every triangle of the scene has its three vertices in voxels of the
    grid. *)
Definition vertices_in_grid (scene : RT_Scene) (udd : RT_Udd) : Prop :=
  forall (tp : tri_ptr) (t : RT_Triangle) (mn mx : vec3 Z),
    (Z.of_nat tp < scene.(nt))%Z ->
    nth_error scene.(scene_t) tp = Some t ->
    index_box scene udd t = Some (mn, mx) ->
    in_grid udd mn.[AX] mn.[AY] mn.[AZ] = true
    /\ in_grid udd mx.[AX] mx.[AY] mx.[AZ] = true.

(** The distances the locator's loop over the axes computes, in its order:
    for each axis with a non-zero direction component, the distance to the
    [dmin] plane and the distance to the [dmax] plane. *)
Definition wall_distance_list (scene : RT_Scene) (o r : point) : list float :=
  flat_map (fun a =>
              if negb (r.[a] =? flit 0)
              then [(scene.(dmin).[a] - o.[a]) / r.[a]; (scene.(dmax).[a] - o.[a]) / r.[a]]
              else [])
           [AX; AY; AZ].

(** [a] is not above [b]. *)
Definition fle (a b : float) : Prop := (b <? a) = false.

(** How far [cur] is from [cur0], counted in voxels along the directions
    the walk may take. *)
Definition walk_distance (c : dda) (cur0 cur : cursor) : Z :=
  (dda_step c AX * (cursor_index cur AX - cursor_index cur0 AX)
   + dda_step c AY * (cursor_index cur AY - cursor_index cur0 AY)
   + dda_step c AZ * (cursor_index cur AZ - cursor_index cur0 AZ))%Z.

End FurtherVocabulary.

(** ** Vocabulary for the statements in exact arithmetic *)


(** [p] is the point of the triangle with barycentric coordinates
    [(1 - u - v, u, v)]. *)
Definition at_barycentric (ti tj tk p : @point ExactQ) (u v : Q) : Prop :=
  forall a, (p.[a] == ti.[a] + u * (tj.[a] - ti.[a]) + v * (tk.[a] - ti.[a]))%Q.

(** The determinant [ray_triangle_intersection] computes: the triple product
    [(tj - ti) . (r x (tk - ti))]. *)
Definition mt_det (ti tj tk r : @point ExactQ) : Q :=
  vec_vector_dotp (vec_vector_make ti tj) (vec_vector_crossp r (vec_vector_make ti tk)).

(** ** rtUddDestroy *)

(** What [rtUddDestroy] hands to [free]: the array [t] of the voxel at
    offset [k], the voxel array, the structure. *)
Inductive freed : Type :=
| FreedCells (k : Z)
| FreedVoxels
| FreedGrid.

Section Destroy.
Context {FO : FloatOps}.

(** [rtUddDestroy].  [self] is the pointer [*self], NULL or a grid; the
    result is the sequence of calls of [free] and the pointer left in
    [*self].  The voxel array of a grid is never NULL in this model (a grid
    that [rtUddCreate] returns has one), so the branch [if(ptr->v)] is
    taken. *)
Definition rtUddDestroy (self : option RT_Udd) : option (list freed * option RT_Udd) :=
  do udd <- self;
  let size := wrap32 (wrap32 (udd.(nv).[AX] * udd.(nv).[AY]) * udd.(nv).[AZ]) in
  do fs <- fold_left (fun acc k =>
                        do l <- acc;
                        do vox <- at_index udd.(v) k;
                        Some (match vox.(vt) with
                              | Some _ => l ++ [FreedCells k]
                              | None => l
                              end))
                     (zrange 0 (size - 1)) (Some []);
  Some (fs ++ [FreedVoxels; FreedGrid], None).

(** The voxel at offset [k] owns an array. *)
Definition owns_array (udd : RT_Udd) (k : Z) : bool :=
  match at_index udd.(v) k with
  | Some vox => match vox.(vt) with Some _ => true | None => false end
  | None => false
  end.

End Destroy.

(** ** Vocabulary for rays that hit nothing *)

Section MissVocabulary.
Context {FO : FloatOps}.

(** A cell the inner loop of the traverser passes over for the ray
    [(o, r)]: it holds [current], or a triangle whose [isint] returns 0. *)
Definition passed_over (scene : RT_Scene) (current : option tri_ptr) (o r : point)
  (c : option tri_ptr) : Prop :=
  c = current
  \/ exists tp t, c = Some tp /\ nth_error scene.(scene_t) tp = Some t
                  /\ t.(isint) o r = None.

End MissVocabulary.

(** ** Vocabulary for the entry point of a ray *)

(** The two wall distances the locator computes on one axis. *)
Definition axis_walls (scene : @RT_Scene ExactQ) (o r : @point ExactQ) (a : axis) : list Q :=
  if negb (@feq ExactQ r.[a] (@flit ExactQ 0))
  then [@fdiv ExactQ (@fsub ExactQ (dmin scene).[a] o.[a]) r.[a];
        @fdiv ExactQ (@fsub ExactQ (dmax scene).[a] o.[a]) r.[a]]
  else [].

(** The parameter at which the ray reaches the slab between the [dmin] and
    the [dmax] plane of one axis: 0 when the origin is within the slab. *)
Definition entry_param (scene : @RT_Scene ExactQ) (o r : @point ExactQ) (a : axis) : Q :=
  if Qltb o.[a] (dmin scene).[a] then ((dmin scene).[a] - o.[a]) / r.[a]
  else if Qltb (dmax scene).[a] o.[a] then ((dmax scene).[a] - o.[a]) / r.[a]
  else 0.

(** The point [o + t r] is within the scene bounds. *)
Definition within_bounds (scene : @RT_Scene ExactQ) (o r : @point ExactQ) (t : Q) : Prop :=
  forall a, ((dmin scene).[a] <= o.[a] + r.[a] * t /\ o.[a] + r.[a] * t <= (dmax scene).[a])%Q.

(** A positive distance below [te]. *)
Definition below (te d : Q) : bool := Qltb (@flit ExactQ 0) d && Qltb d te.


(** ** Further scenes and rays in IEEE single precision *)

(** [pow] in single precision, at the two bases where ISO C fixes its value:
    [pow(1, y) = 1] and [pow(+0, y) = +0] for [y > 0]. *)
Definition pow32_fixed (x y : spec_float) : spec_float :=
  if SFeqb x (b32_of_int 1) then b32_of_int 1 else S754_zero false.

(** An empty scene of 96500 x 256500 x 672500 units. *)
Definition scene32_big : @RT_Scene Binary32 :=
  {| dmin := f3 0 0 0;
     dmax := f3 96500 256500 672500;
     nt := 0;
     scene_t := [] |}.

(** An empty scene of 2500 x 1500 x 1500 units, and the grid [rtUddCreate]
    returns for it in single precision: 3 x 2 x 2 voxels. *)
Definition scene32_small : @RT_Scene Binary32 :=
  {| dmin := f3 0 0 0;
     dmax := f3 2500 1500 1500;
     nt := 0;
     scene_t := [] |}.

Definition grid32_small : @RT_Udd Binary32 :=
  {| s := (V3 (S754_finite false 13653349 (-14))
              (S754_finite false 12288024 (-14))
              (S754_finite false 12288024 (-14)) : @point Binary32);
     nv := V3 3 2 2;
     v := repeat zero_voxel 12 |}.

(** A direction whose three components are the smallest positive
    single-precision number, [2^-149]. *)
Definition tiny32_r : @point Binary32 :=
  V3 (S754_finite false 1 (-149)) (S754_finite false 1 (-149)) (S754_finite false 1 (-149)).

(** A ray that starts outside the grid, below its first column of voxels,
    and enters the domain through the wall [x = dmin]. *)
Definition low_o : @point ExactQ := q3 (- 3) (- 1 # 4) (1 # 2).
Definition low_r : @point ExactQ := q3 3 (1 # 2) 0.

(** * Properties *)

(** ** The linearization of voxel indices *)

Lemma wrap32_small (z : Z) : INT32_MIN <= z <= INT32_MAX -> wrap32 z = z.
Proof.
  unfold wrap32, INT32_MIN, INT32_MAX. intros H.
  rewrite Z.mod_small by lia. lia.
Qed.

Section Offset.
Context {FO : FloatOps}.

Lemma rtVoxelArrayOffset_exact (udd : RT_Udd) (i j k : Z) :
  udd.(nv).[AX] * udd.(nv).[AY] * udd.(nv).[AZ] <= INT32_MAX ->
  0 <= i < udd.(nv).[AX] -> 0 <= j < udd.(nv).[AY] -> 0 <= k < udd.(nv).[AZ] ->
  rtVoxelArrayOffset udd i j k = (i * udd.(nv).[AY] + j) * udd.(nv).[AZ] + k
  /\ 0 <= rtVoxelArrayOffset udd i j k < udd.(nv).[AX] * udd.(nv).[AY] * udd.(nv).[AZ].
Proof.
  intros Hfit Hi Hj Hk. unfold rtVoxelArrayOffset.
  set (nx := udd.(nv).[AX]) in *. set (ny := udd.(nv).[AY]) in *.
  set (nz := udd.(nv).[AZ]) in *.
  assert (Hrow : 0 <= i * ny + j < nx * ny) by nia.
  assert (Hall : 0 <= (i * ny + j) * nz + k < nx * ny * nz) by nia.
  assert (H0 : 0 <= i * ny <= i * ny + j) by nia.
  assert (H1 : nx * ny <= nx * ny * nz) by nia.
  assert (H2 : (i * ny + j) * nz <= (i * ny + j) * nz + k) by lia.
  assert (H3 : 0 <= (i * ny + j) * nz) by nia.
  unfold INT32_MAX in Hfit.
  rewrite (wrap32_small (i * ny)) by (unfold INT32_MIN, INT32_MAX; lia).
  rewrite (wrap32_small (i * ny + j)) by (unfold INT32_MIN, INT32_MAX; lia).
  rewrite (wrap32_small ((i * ny + j) * nz)) by (unfold INT32_MIN, INT32_MAX; lia).
  rewrite (wrap32_small ((i * ny + j) * nz + k)) by (unfold INT32_MIN, INT32_MAX; lia).
  split; [reflexivity | exact Hall].
Qed.

Lemma linear_index_injective (ny nz i j k i' j' k' : Z) :
  0 <= j < ny -> 0 <= k < nz -> 0 <= j' < ny -> 0 <= k' < nz ->
  (i * ny + j) * nz + k = (i' * ny + j') * nz + k' ->
  i = i' /\ j = j' /\ k = k'.
Proof.
  intros Hj Hk Hj' Hk' E.
  assert (Erow : i * ny + j = i' * ny + j') by nia.
  assert (Ek : k = k') by nia.
  assert (Ei : i = i') by nia.
  subst. repeat split; nia.
Qed.

(** C9, as amended. On a grid whose voxel count [nx*ny*nz] fits an
    [int32_t], the offset computed by [rtVoxelArrayOffset] at in-range
    indices is [(i*ny + j)*nz + k], lies in [0, nx*ny*nz), and distinguishes
    distinct index triples. *)
Theorem rtVoxelArrayOffset_in_range_injective (udd : RT_Udd) (i j k i' j' k' : Z) :
  udd.(nv).[AX] * udd.(nv).[AY] * udd.(nv).[AZ] <= INT32_MAX ->
  0 <= i < udd.(nv).[AX] -> 0 <= j < udd.(nv).[AY] -> 0 <= k < udd.(nv).[AZ] ->
  0 <= i' < udd.(nv).[AX] -> 0 <= j' < udd.(nv).[AY] -> 0 <= k' < udd.(nv).[AZ] ->
  rtVoxelArrayOffset udd i j k = (i * udd.(nv).[AY] + j) * udd.(nv).[AZ] + k
  /\ 0 <= rtVoxelArrayOffset udd i j k < udd.(nv).[AX] * udd.(nv).[AY] * udd.(nv).[AZ]
  /\ (rtVoxelArrayOffset udd i j k = rtVoxelArrayOffset udd i' j' k' ->
      i = i' /\ j = j' /\ k = k').
Proof.
  intros Hfit Hi Hj Hk Hi' Hj' Hk'.
  destruct (rtVoxelArrayOffset_exact udd i j k Hfit Hi Hj Hk) as [E B].
  destruct (rtVoxelArrayOffset_exact udd i' j' k' Hfit Hi' Hj' Hk') as [E' _].
  split; [exact E | split; [exact B |]].
  rewrite E, E'. apply linear_index_injective; assumption.
Qed.

End Offset.

(** C9, counterexample. The grid [rtUddCreate] returns for [scene_wide] has
    2048 voxels per axis, a count that does not fit an [int32_t]: the
    in-range voxels (1024,0,0) and (0,0,0) get the same offset, and the
    in-range voxel (2047,2047,2047) gets the offset -1. *)
Lemma rtVoxelArrayOffset_wraps :
  rtUddCreate pow_fixed true true scene_wide = Some (inflate scene_wide, Some grid_wide)
  /\ nv grid_wide = V3 2048 2048 2048
  /\ in_grid grid_wide 1024 0 0 = true
  /\ in_grid grid_wide 0 0 0 = true
  /\ in_grid grid_wide 2047 2047 2047 = true
  /\ rtVoxelArrayOffset grid_wide 1024 0 0 = rtVoxelArrayOffset grid_wide 0 0 0
  /\ rtVoxelArrayOffset grid_wide 2047 2047 2047 = -1.
Proof. repeat split; reflexivity. Qed.

(** ** The traverser *)

Section TraverserFacts.
Context {FO : FloatOps}.
Local Open Scope float_scope.

Lemma in_grid_spec (udd : RT_Udd) (i j k : Z) :
  in_grid udd i j k = true <->
  (0 <= i < udd.(nv).[AX] /\ 0 <= j < udd.(nv).[AY] /\ 0 <= k < udd.(nv).[AZ])%Z.
Proof.
  unfold in_grid.
  rewrite !andb_true_iff, !negb_true_iff, !orb_false_iff, !Z.ltb_ge, !Z.leb_gt.
  lia.
Qed.

Lemma ptr_eqb_spec (a b : option tri_ptr) : ptr_eqb a b = true <-> a = b.
Proof.
  destruct a as [x|], b as [y|]; simpl; try (split; congruence).
  rewrite Nat.eqb_eq. split; congruence.
Qed.

Lemma ptr_eqb_false (a b : option tri_ptr) : ptr_eqb a b = false -> a <> b.
Proof.
  intros H E. apply ptr_eqb_spec in E. congruence.
Qed.

(** What the inner loop computes, for a comparison that is irreflexive and
    transitive. *)
Lemma scan_voxel_spec
  (Hirr : forall a : float, (a <? a) = false)
  (Htrans : forall a b c : float, (a <? b) = true -> (b <? c) = true -> (a <? c) = true)
  (scene : RT_Scene) (current : option tri_ptr) (o r : point) :
  forall (cells : list (option tri_ptr)) (dm : float) (nr : option tri_ptr)
         (d' : float) (nr' : option tri_ptr),
  scan_voxel scene current o r cells dm nr = Some (d', nr') ->
  (((d' <? dm) = true /\
    exists tp, nr' = Some tp /\ In (Some tp) cells /\ candidate_hit scene current o r tp d')
   \/ (d' = dm /\ nr' = nr))
  /\ (forall tp d'', In (Some tp) cells -> candidate_hit scene current o r tp d'' ->
        (d'' <? d') = false).
Proof.
  induction cells as [|c rest IH]; intros dm nr d' nr' H; simpl in H.
  - inversion H; subst. split; [right; auto | intros tp d'' []].
  - assert (Hweak : forall dm0 nr0,
      (((d' <? dm0) = true /\
        exists tp, nr' = Some tp /\ In (Some tp) rest /\ candidate_hit scene current o r tp d')
       \/ (d' = dm0 /\ nr' = nr0)) ->
      (((d' <? dm0) = true /\
        exists tp, nr' = Some tp /\ In (Some tp) (c :: rest)
                   /\ candidate_hit scene current o r tp d')
       \/ (d' = dm0 /\ nr' = nr0))).
    { intros dm0 nr0 [[Hlt (tp & E1 & Hin & Hc)] | Hs]; [left | right; exact Hs].
      split; [exact Hlt |]. exists tp. split; [exact E1 |]. split; [right; exact Hin | exact Hc]. }
    destruct (ptr_eqb c current) eqn:Ec.
    + apply ptr_eqb_spec in Ec. destruct (IH _ _ _ _ H) as [Hres Hall]. split.
      * apply Hweak, Hres.
      * intros tp d'' [E | Hin] Hc; [| eauto].
        destruct Hc as [Hne _]. congruence.
    + apply ptr_eqb_false in Ec.
      destruct c as [tp0|]; [| discriminate].
      destruct (nth_error scene.(scene_t) tp0) as [t0|] eqn:Et; [| discriminate].
      assert (Hcand : forall d, t0.(isint) o r = Some d ->
                candidate_hit scene current o r tp0 d).
      { intros d Ed. split; [exact Ec | exists t0; auto]. }
      assert (Hsame : forall tp d'', Some tp0 = Some tp ->
                candidate_hit scene current o r tp d'' -> t0.(isint) o r = Some d'').
      { intros tp d'' E (_ & t & Et' & Ei). inversion E; subst. congruence. }
      destruct (t0.(isint) o r) as [d|] eqn:Ei.
      * destruct (d <? dm) eqn:Elt.
        -- destruct (IH _ _ _ _ H) as [Hres Hall]. split.
           ++ left. destruct Hres as [[Hlt (tp & E1 & Hin & Hc)] | [E1 E2]].
              ** split; [eapply Htrans; eauto |].
                 exists tp. split; [exact E1 |]. split; [right; exact Hin | exact Hc].
              ** subst. split; [exact Elt |].
                 exists tp0. split; [reflexivity |]. split; [left; reflexivity | auto].
           ++ intros tp d'' [E | Hin] Hc; [| eauto].
              apply (Hsame _ _ E) in Hc. inversion Hc; subst d''.
              destruct Hres as [[Hlt _] | [E1 _]].
              ** destruct (d <? d') eqn:E2; [| reflexivity].
                 pose proof (Htrans _ _ _ Hlt E2) as Hd.
                 rewrite Hirr in Hd. discriminate.
              ** subst. apply Hirr.
        -- destruct (IH _ _ _ _ H) as [Hres Hall]. split.
           ++ apply Hweak, Hres.
           ++ intros tp d'' [E | Hin] Hc; [| eauto].
              apply (Hsame _ _ E) in Hc. inversion Hc; subst d''.
              destruct Hres as [[Hlt _] | [E1 _]].
              ** destruct (d <? d') eqn:E2; [| reflexivity].
                 rewrite (Htrans _ _ _ E2 Hlt) in Elt. discriminate.
              ** subst. exact Elt.
      * destruct (IH _ _ _ _ H) as [Hres Hall]. split.
        -- apply Hweak, Hres.
        -- intros tp d'' [E | Hin] Hc; [| eauto].
           apply (Hsame _ _ E) in Hc. discriminate.
Qed.

Lemma scan_voxel_skips_current (scene : RT_Scene) (current : option tri_ptr) (o r : point) :
  forall (cells : list (option tri_ptr)) (dm : float) (nr : option tri_ptr)
         (d' : float) (nr' : option tri_ptr),
  (forall tp, nr = Some tp -> Some tp <> current) ->
  scan_voxel scene current o r cells dm nr = Some (d', nr') ->
  forall tp, nr' = Some tp -> Some tp <> current.
Proof.
  induction cells as [|c rest IH]; intros dm nr d' nr' Hnr H; simpl in H.
  - inversion H; subst. exact Hnr.
  - destruct (ptr_eqb c current) eqn:Ec; [eapply IH; eauto |].
    apply ptr_eqb_false in Ec.
    destruct c as [tp0|]; [| discriminate].
    destruct (nth_error scene.(scene_t) tp0) as [t0|]; [| discriminate].
    destruct (t0.(isint) o r) as [d|]; [| eapply IH; eauto].
    destruct (d <? dm); [| eapply IH; eauto].
    eapply IH; [| exact H]. intros tp E. inversion E; subst. exact Ec.
Qed.

Lemma voxel_hit_skips_current (udd : RT_Udd) (scene : RT_Scene) (current : option tri_ptr)
  (o r : point) (c : dda) (cur : cursor) (tp : tri_ptr) (d : float) :
  voxel_hit udd scene current o r c cur = Some (Some (tp, d)) -> Some tp <> current.
Proof.
  unfold voxel_hit. intros H.
  destruct (at_index _ _) as [vox|]; [| discriminate].
  destruct (0 <? vox.(vnt))%Z; [| discriminate].
  destruct (voxel_read vox) as [cells|]; [| discriminate].
  destruct (scan_voxel _ _ _ _ _ _ _) as [[d' nr']|] eqn:Es; [| discriminate].
  simpl in H. destruct nr' as [tp'|]; inversion H; subst.
  eapply scan_voxel_skips_current; [| exact Es | reflexivity]. discriminate.
Qed.

Lemma traverse_loop_skips_current (udd : RT_Udd) (scene : RT_Scene)
  (current : option tri_ptr) (o r : point) (c : dda) :
  forall (fuel : nat) (cur : cursor) (tp : tri_ptr) (ip : point),
  traverse_loop fuel udd scene current o r c cur = Hit tp ip -> Some tp <> current.
Proof.
  induction fuel as [|fuel IH]; intros cur tp ip H; simpl in H; [discriminate |].
  destruct (voxel_hit udd scene current o r c cur) as [[[tp' d]|]|] eqn:Ev;
    try discriminate.
  - inversion H; subst. eapply voxel_hit_skips_current; eauto.
  - destruct (in_grid _ _ _ _); [eapply IH; eauto | discriminate].
Qed.

(** C7. Invoked with [current = T], the traverser never returns [T]. *)
Theorem rtUddTraverse_never_returns_current (fuel : nat) (udd : RT_Udd) (scene : RT_Scene)
  (T : tri_ptr) (o r : point) (i j k : Z) (ip : point) :
  rtUddTraverse fuel udd scene (Some T) o r i j k <> Hit T ip.
Proof.
  unfold rtUddTraverse. destruct (dda_init udd scene o r i j k) as [c cur].
  intros H. apply traverse_loop_skips_current in H. congruence.
Qed.

Section StrictOrder.
Hypothesis flt_irrefl : forall a : float, (a <? a) = false.
Hypothesis flt_trans :
  forall a b c : float, (a <? b) = true -> (b <? c) = true -> (a <? c) = true.


Lemma voxel_hit_nothing (udd : RT_Udd) (scene : RT_Scene) (current : option tri_ptr)
  (o r : point) (c : dda) (cur : cursor) :
  voxel_hit udd scene current o r c cur = Some None ->
  exists cells,
    cells_at udd cur = Some cells
    /\ nothing_below scene current o r cells (exit_bound c cur).
Proof.
  unfold voxel_hit, cells_at. intros H.
  destruct (at_index _ _) as [vox|]; [| discriminate].
  destruct (0 <? vox.(vnt))%Z.
  - destruct (voxel_read vox) as [cells|]; [| discriminate].
    destruct (scan_voxel _ _ _ _ _ _ _) as [[d' nr']|] eqn:Es; [| discriminate].
    simpl in H. destruct nr' as [tp'|]; [discriminate |].
    destruct (scan_voxel_spec flt_irrefl flt_trans _ _ _ _ _ _ _ _ _ Es) as [Hres Hall].
    exists cells. split; [reflexivity |].
    destruct Hres as [[_ (tp0 & E & _)] | [E _]]; [discriminate |].
    subst. exact Hall.
  - exists []. split; [reflexivity | intros tp d []].
Qed.



End StrictOrder.

(** *** Termination *)

Lemma axis_step_unit (x : float) : axis_step x = 1%Z \/ axis_step x = (-1)%Z.
Proof. unfold axis_step. destruct (flit 0 <? x); auto. Qed.

Lemma dda_init_unit_steps (udd : RT_Udd) (scene : RT_Scene) (o r : point) (i j k : Z) (a : axis) :
  dda_step (fst (dda_init udd scene o r i j k)) a = 1%Z
  \/ dda_step (fst (dda_init udd scene o r i j k)) a = (-1)%Z.
Proof. destruct a; simpl; apply axis_step_unit. Qed.

Lemma cursor_in_grid_spec (udd : RT_Udd) (cur : cursor) :
  cursor_in_grid udd cur = true <->
  forall a, (0 <= cursor_index cur a < udd.(nv).[a])%Z.
Proof.
  unfold cursor_in_grid. rewrite in_grid_spec. split.
  - intros (Hi & Hj & Hk) a. destruct a; assumption.
  - intros H. exact (conj (H AX) (conj (H AY) (H AZ))).
Qed.

(** One iteration moves the index of exactly one axis, by that axis' step. *)
Lemma next_voxel_moves_one (udd : RT_Udd) (c : dda) (cur : cursor) :
  (forall a, udd.(nv).[a] <= INT32_MAX)%Z ->
  (forall a, dda_step c a = 1 \/ dda_step c a = -1)%Z ->
  cursor_in_grid udd cur = true ->
  let a := next_axis c cur in
  cursor_index (next_voxel c cur) a = (cursor_index cur a + dda_step c a)%Z
  /\ forall b, b <> a -> cursor_index (next_voxel c cur) b = cursor_index cur b.
Proof.
  intros Hnv Hunit Hin a. unfold next_voxel. fold a.
  rewrite cursor_in_grid_spec in Hin.
  pose proof (Hin a) as Ha. pose proof (Hnv a) as Hb. pose proof (Hunit a) as Hu.
  assert (Hw : wrap32 (cursor_index cur a + dda_step c a)
               = (cursor_index cur a + dda_step c a)%Z).
  { apply wrap32_small. unfold INT32_MIN, INT32_MAX in *. lia. }
  split.
  - destruct a; simpl in *; exact Hw.
  - intros b Hb'. destruct a, b; simpl; congruence.
Qed.

Lemma steps_left_positive (udd : RT_Udd) (c : dda) (cur : cursor) (a : axis) :
  cursor_in_grid udd cur = true -> (1 <= steps_left udd c cur a <= udd.(nv).[a])%Z.
Proof.
  rewrite cursor_in_grid_spec. intros H. specialize (H a).
  unfold steps_left. destruct (dda_step c a =? 1)%Z; lia.
Qed.

Lemma steps_left_next (udd : RT_Udd) (c : dda) (cur : cursor) :
  (forall a, udd.(nv).[a] <= INT32_MAX)%Z ->
  (forall a, dda_step c a = 1 \/ dda_step c a = -1)%Z ->
  cursor_in_grid udd cur = true ->
  (steps_left udd c (next_voxel c cur) AX + steps_left udd c (next_voxel c cur) AY
   + steps_left udd c (next_voxel c cur) AZ
   = steps_left udd c cur AX + steps_left udd c cur AY + steps_left udd c cur AZ - 1)%Z.
Proof.
  intros Hnv Hunit Hin.
  destruct (next_voxel_moves_one udd c cur Hnv Hunit Hin) as [Hmove Hkeep].
  assert (Hone : forall b,
    steps_left udd c (next_voxel c cur) b
    = (steps_left udd c cur b - (if axis_eq_dec b (next_axis c cur) then 1 else 0))%Z).
  { intros b. unfold steps_left. destruct (axis_eq_dec b (next_axis c cur)) as [E|N].
    - subst b. rewrite Hmove. destruct (Hunit (next_axis c cur)) as [U|U]; rewrite U; simpl; lia.
    - rewrite (Hkeep b N). lia. }
  rewrite !Hone.
  destruct (next_axis c cur);
    repeat match goal with |- context [axis_eq_dec ?x ?y] =>
      destruct (axis_eq_dec x y); try congruence end; lia.
Qed.

Lemma traverse_loop_fuel (udd : RT_Udd) (scene : RT_Scene) (current : option tri_ptr)
  (o r : point) (c : dda) :
  (forall a, udd.(nv).[a] <= INT32_MAX)%Z ->
  (forall a, dda_step c a = 1 \/ dda_step c a = -1)%Z ->
  forall (fuel : nat) (cur : cursor),
  cursor_in_grid udd cur = true ->
  (steps_left udd c cur AX + steps_left udd c cur AY + steps_left udd c cur AZ
   <= Z.of_nat fuel + 2)%Z ->
  traverse_loop fuel udd scene current o r c cur <> OutOfFuel.
Proof.
  intros Hnv Hunit. induction fuel as [|fuel IH]; intros cur Hin Hsum.
  - pose proof (steps_left_positive udd c cur AX Hin).
    pose proof (steps_left_positive udd c cur AY Hin).
    pose proof (steps_left_positive udd c cur AZ Hin). lia.
  - simpl. destruct (voxel_hit udd scene current o r c cur) as [[[tp d]|]|];
      try discriminate.
    destruct (in_grid _ _ _ _) eqn:Eg; [| discriminate].
    apply IH; [exact Eg |].
    rewrite (steps_left_next udd c cur Hnv Hunit Hin). lia.
Qed.

Lemma at_index_in_range {A : Type} (l : list A) (z : Z) :
  (0 <= z < Z.of_nat (length l))%Z -> exists x, at_index l z = Some x /\ In x l.
Proof.
  intros H. unfold at_index. destruct (z <? 0)%Z eqn:E; [apply Z.ltb_lt in E; lia |].
  destruct (nth_error l (Z.to_nat z)) as [x|] eqn:En.
  - exists x. split; [reflexivity | eapply nth_error_In; eauto].
  - apply nth_error_None in En. lia.
Qed.

Lemma scan_voxel_defined (scene : RT_Scene) (current : option tri_ptr) (o r : point) :
  forall (cells : list (option tri_ptr)) (dm : float) (nr : option tri_ptr),
  forallb (cell_ok scene) cells = true ->
  scan_voxel scene current o r cells dm nr <> None.
Proof.
  induction cells as [|c rest IH]; intros dm nr H; simpl; [discriminate |].
  simpl in H. apply andb_true_iff in H. destruct H as [Hc Hrest].
  destruct (ptr_eqb c current); [apply IH; exact Hrest |].
  destruct c as [tp|]; [| discriminate]. simpl in Hc. apply Nat.ltb_lt in Hc.
  destruct (nth_error scene.(scene_t) tp) as [t|] eqn:Et.
  - destruct (t.(isint) o r) as [d|]; [destruct (d <? dm) |]; apply IH; exact Hrest.
  - apply nth_error_None in Et. lia.
Qed.

Lemma grid_ok_spec (scene : RT_Scene) (udd : RT_Udd) :
  grid_ok scene udd = true ->
  (forall a, 1 <= udd.(nv).[a] <= INT32_MAX)%Z
  /\ (udd.(nv).[AX] * udd.(nv).[AY] * udd.(nv).[AZ] <= INT32_MAX)%Z
  /\ Z.of_nat (length udd.(v)) = (udd.(nv).[AX] * udd.(nv).[AY] * udd.(nv).[AZ])%Z
  /\ (forall vox, In vox udd.(v) -> voxel_ok scene vox = true).
Proof.
  unfold grid_ok. rewrite !andb_true_iff, !Z.leb_le, Z.eqb_eq, forallb_forall.
  intros [[[[[Hx Hy] Hz] Hfit] Hlen] Hvox].
  split; [| auto]. intros a. unfold INT32_MAX in *. destruct a; nia.
Qed.

Lemma voxel_hit_defined (udd : RT_Udd) (scene : RT_Scene) (current : option tri_ptr)
  (o r : point) (c : dda) (cur : cursor) :
  grid_ok scene udd = true -> cursor_in_grid udd cur = true ->
  voxel_hit udd scene current o r c cur <> None.
Proof.
  intros Hok Hin. destruct (grid_ok_spec _ _ Hok) as (Hnv & Hfit & Hlen & Hvox).
  unfold cursor_in_grid in Hin. apply in_grid_spec in Hin. destruct Hin as (Hi & Hj & Hk).
  destruct (rtVoxelArrayOffset_exact udd _ _ _ Hfit Hi Hj Hk) as [_ Hoff].
  rewrite <- Hlen in Hoff.
  destruct (at_index_in_range _ _ Hoff) as (vox & Eat & Hinv).
  unfold voxel_hit. rewrite Eat. specialize (Hvox vox Hinv). unfold voxel_ok in Hvox.
  destruct (0 <? vox.(vnt))%Z eqn:Ent; [| discriminate].
  apply Z.ltb_lt in Ent. apply orb_true_iff in Hvox.
  destruct Hvox as [Hle | Hcells]; [apply Z.leb_le in Hle; lia |].
  destruct (voxel_read vox) as [cells|]; [| discriminate].
  pose proof (scan_voxel_defined scene current o r cells (exit_bound c cur) None Hcells) as Hs.
  destruct (scan_voxel _ _ _ _ _ _ _) as [[d nr]|]; [| congruence].
  simpl. destruct nr; discriminate.
Qed.

Lemma traverse_loop_defined (udd : RT_Udd) (scene : RT_Scene) (current : option tri_ptr)
  (o r : point) (c : dda) :
  grid_ok scene udd = true ->
  forall (fuel : nat) (cur : cursor),
  cursor_in_grid udd cur = true ->
  traverse_loop fuel udd scene current o r c cur <> Undefined.
Proof.
  intros Hok. induction fuel as [|fuel IH]; intros cur Hin; simpl; [discriminate |].
  pose proof (voxel_hit_defined udd scene current o r c cur Hok Hin) as Hd.
  destruct (voxel_hit udd scene current o r c cur) as [[[tp d]|]|];
    [discriminate | | congruence].
  destruct (in_grid _ _ _ _) eqn:Eg; [apply IH; exact Eg | discriminate].
Qed.

(** C8, as amended.  From an in-bounds entry voxel of a well-formed grid the
    traverser returns, a triangle or none, within [nx + ny + nz] iterations,
    for every ray and in any float arithmetic, whatever the step sizes
    [dtx], [dty], [dtz] are: an iteration that does not return moves exactly
    one index by its fixed unit step, and the loop is left as soon as an
    index is outside the grid. *)
Theorem rtUddTraverse_terminates (udd : RT_Udd) (scene : RT_Scene)
  (current : option tri_ptr) (o r : point) (i j k : Z) :
  grid_ok scene udd = true ->
  in_grid udd i j k = true ->
  let c := fst (dda_init udd scene o r i j k) in
  (forall cur, cursor_in_grid udd cur = true ->
     let a := next_axis c cur in
     (dda_step c a = 1 \/ dda_step c a = -1)%Z
     /\ cursor_index (next_voxel c cur) a = (cursor_index cur a + dda_step c a)%Z
     /\ forall b, b <> a -> cursor_index (next_voxel c cur) b = cursor_index cur b)
  /\ (forall fuel cur,
       voxel_hit udd scene current o r c cur = Some None ->
       cursor_in_grid udd (next_voxel c cur) = false ->
       traverse_loop (S fuel) udd scene current o r c cur = NoHit)
  /\ (forall fuel,
       (Z.to_nat (udd.(nv).[AX] + udd.(nv).[AY] + udd.(nv).[AZ]) <= fuel)%nat ->
       (exists T ip, rtUddTraverse fuel udd scene current o r i j k = Hit T ip)
       \/ rtUddTraverse fuel udd scene current o r i j k = NoHit).
Proof.
  intros Hok Hin c.
  destruct (grid_ok_spec _ _ Hok) as (Hnv & Hfit & Hlen & Hvox).
  assert (Hnv' : forall b, (udd.(nv).[b] <= INT32_MAX)%Z) by (intros b; apply Hnv).
  assert (Hunit : forall b, (dda_step c b = 1 \/ dda_step c b = -1)%Z)
    by (intros b; apply dda_init_unit_steps).
  split; [| split].
  - intros cur Hcur a0. split; [apply Hunit |].
    apply (next_voxel_moves_one udd c cur Hnv' Hunit Hcur).
  - intros fuel cur Hv Hout. simpl. rewrite Hv.
    unfold cursor_in_grid in Hout. rewrite Hout. reflexivity.
  - intros fuel Hfuel. unfold rtUddTraverse.
    assert (Ec : dda_init udd scene o r i j k = (c, snd (dda_init udd scene o r i j k))).
    { subst c. destruct (dda_init udd scene o r i j k); reflexivity. }
    rewrite Ec. set (cur0 := snd (dda_init udd scene o r i j k)).
    assert (Hcur0 : cursor_in_grid udd cur0 = true) by exact Hin.
    pose proof (steps_left_positive udd c cur0 AX Hcur0).
    pose proof (steps_left_positive udd c cur0 AY Hcur0).
    pose proof (steps_left_positive udd c cur0 AZ Hcur0).
    assert (Hsum : (steps_left udd c cur0 AX + steps_left udd c cur0 AY
                    + steps_left udd c cur0 AZ <= Z.of_nat fuel + 2)%Z) by lia.
    pose proof (traverse_loop_fuel udd scene current o r c Hnv' Hunit fuel cur0 Hcur0 Hsum) as Hf.
    pose proof (traverse_loop_defined udd scene current o r c Hok fuel cur0 Hcur0) as Hd.
    destruct (traverse_loop fuel udd scene current o r c cur0) as [T ip| | |];
      [left; eauto | right; reflexivity | congruence | congruence].
Qed.

End TraverserFacts.

(** *** Ties between next plane crossings *)

Section Ties.
Context {FO : FloatOps}.
Local Open Scope float_scope.

(** C6, as amended. When two or more axes tie for the smallest next
    crossing, the index stepped is that of the last tied axis in the order
    x, y, z: a tie of x and y below z steps y and leaves x alone, and any
    tie that involves z steps z. *)
Theorem next_axis_on_ties (c : dda) (cur : cursor) :
  let tx_n := t_next c cur AX in
  let ty_n := t_next c cur AY in
  let tz_n := t_next c cur AZ in
  (tied tx_n ty_n -> (ty_n <? tz_n) = true ->
     next_axis c cur = AY
     /\ cursor_index (next_voxel c cur) AY = wrap32 (cursor_index cur AY + dda_step c AY)
     /\ cursor_index (next_voxel c cur) AX = cursor_index cur AX)
  /\ (tied tx_n tz_n -> (tx_n <? ty_n) = true -> next_axis c cur = AZ)
  /\ (tied ty_n tz_n -> (tx_n <? ty_n) = false -> next_axis c cur = AZ)
  /\ (tied tx_n ty_n -> tied ty_n tz_n -> next_axis c cur = AZ).
Proof.
  unfold t_next, tied, next_voxel, next_axis; simpl.
  split; [| split; [| split]].
  - intros [H1 _] H2. rewrite H1, H2. repeat split.
  - intros [H1 _] H2. rewrite H2, H1. reflexivity.
  - intros [H1 _] H2. rewrite H2, H1. reflexivity.
  - intros [H1 _] [H2 _]. rewrite H1, H2. reflexivity.
Qed.

End Ties.

(** The instance of [next_axis_on_ties] (C6) on the ray [edge_o], [edge_r]. *)
Lemma next_axis_on_ties_witness :
  let c := fst (dda_init grid_AB scene_AB' edge_o edge_r 0 0 0) in
  let cur := snd (dda_init grid_AB scene_AB' edge_o edge_r 0 0 0) in
  next_axis c cur = AY
  /\ cursor_index (next_voxel c cur) AY = wrap32 (cursor_index cur AY + dda_step c AY)
  /\ cursor_index (next_voxel c cur) AX = cursor_index cur AX.
Proof.
  intros c cur.
  apply (proj1 (next_axis_on_ties c cur)).
  - split; reflexivity.
  - reflexivity.
Defined.

(** C6, counterexample. On the ray [edge_o], [edge_r] from the voxel (0,0,0)
    the next crossings of x and y are both 5/12, below that of z, and the
    step taken moves the y index to 1 and leaves the x index at 0. *)
Lemma tie_of_x_and_y_steps_y :
  let c := fst (dda_init grid_AB scene_AB' edge_o edge_r 0 0 0) in
  let cur := snd (dda_init grid_AB scene_AB' edge_o edge_r 0 0 0) in
  t_next c cur AX = (5 # 12)%Q
  /\ t_next c cur AY = (5 # 12)%Q
  /\ (t_next c cur AY <? t_next c cur AZ)%F = true
  /\ next_axis c cur <> AX
  /\ cursor_index (next_voxel c cur) AX = 0
  /\ cursor_index (next_voxel c cur) AY = 1.
Proof.
  repeat split; try reflexivity. discriminate.
Qed.

(** ** rtVoxelAddTriangle *)

Lemma set_nth_length {A : Type} (l : list A) (n : nat) (a : A) :
  length (set_nth l n a) = length l.
Proof.
  revert n. induction l as [|x l IH]; intros [|n]; simpl; auto.
Qed.

Lemma firstn_set_nth {A : Type} (l : list A) (n : nat) (a : A) :
  (n < length l)%nat -> firstn (S n) (set_nth l n a) = firstn n l ++ [a].
Proof.
  revert n. induction l as [|x l IH]; intros [|n] H; simpl in *; try lia.
  - reflexivity.
  - f_equal. apply IH. lia.
Qed.

Lemma store_index_in_range {A : Type} (l : list A) (z : Z) (a : A) :
  0 <= z < Z.of_nat (length l) ->
  store_index l z a = Some (set_nth l (Z.to_nat z) a).
Proof.
  intros H. unfold store_index.
  destruct (z <? 0) eqn:E1; [apply Z.ltb_lt in E1; lia |].
  destruct (Z.of_nat (length l) <=? z) eqn:E2; [apply Z.leb_le in E2; lia |].
  reflexivity.
Qed.

(** Storing at position [nt] of a well-formed array with a free cell. *)
Lemma store_appends (cells : list (option tri_ptr)) (n p : Z) (t : tri_ptr) :
  0 <= n -> 0 < p -> n + p <= INT32_MAX ->
  Z.of_nat (length cells) = n + p ->
  let vox' := {| vnt := wrap32 (n + 1); vp := wrap32 (p - 1);
                 vt := Some (set_nth cells (Z.to_nat n) (Some t)) |} in
  store_index cells n (Some t) = Some (set_nth cells (Z.to_nat n) (Some t))
  /\ vox'.(vnt) = n + 1
  /\ vox'.(vp) = p - 1
  /\ voxel_cells vox' = firstn (Z.to_nat n) cells ++ [Some t]
  /\ voxel_wf vox'.
Proof.
  intros Hn Hp Hfit Hlen vox'.
  assert (W1 : wrap32 (n + 1) = n + 1)
    by (apply wrap32_small; unfold INT32_MIN, INT32_MAX in *; lia).
  assert (W2 : wrap32 (p - 1) = p - 1)
    by (apply wrap32_small; unfold INT32_MIN, INT32_MAX in *; lia).
  split; [apply store_index_in_range; lia |].
  split; [exact W1 |]. split; [exact W2 |]. split.
  - unfold voxel_cells, vox'. simpl. rewrite W1.
    replace (Z.to_nat (n + 1)) with (S (Z.to_nat n)) by lia.
    apply firstn_set_nth. lia.
  - unfold voxel_wf, vox'. simpl. rewrite W1, W2, set_nth_length. lia.
Qed.

(** C10. On a well-formed voxel, a failed allocation makes
    [rtVoxelAddTriangle] return 0 with the voxel as it was; otherwise it
    returns 1, the triangle is stored at position [nt] behind the triangles
    already there, in their order, and [nt] grows by one. *)
Theorem rtVoxelAddTriangle_spec (malloc_ok : bool) (vox : RT_Voxel) (t : tri_ptr) (bufsize : Z) :
  voxel_wf vox -> 0 < bufsize -> vox.(vnt) + bufsize <= INT32_MAX ->
  (wants_room vox = true -> malloc_ok = false ->
     rtVoxelAddTriangle malloc_ok vox t bufsize = Some (0, vox))
  /\ (wants_room vox = false \/ malloc_ok = true ->
      exists vox',
        rtVoxelAddTriangle malloc_ok vox t bufsize = Some (1, vox')
        /\ vox'.(vnt) = vox.(vnt) + 1
        /\ vox'.(vp) = (if wants_room vox then bufsize else vox.(vp)) - 1
        /\ voxel_cells vox' = voxel_cells vox ++ [Some t]
        /\ at_index (voxel_cells vox') vox.(vnt) = Some (Some t)
        /\ voxel_wf vox').
Proof.
  intros (Hnt & Hp & Hfit & Hcells) Hbuf Hroom.
  assert (Hlast : forall (l : list (option tri_ptr)) (n : Z),
            n = Z.of_nat (length l) -> at_index (l ++ [Some t]) n = Some (Some t)).
  { intros l n E. unfold at_index. destruct (n <? 0) eqn:E1; [apply Z.ltb_lt in E1; lia |].
    subst n. rewrite Nat2Z.id, nth_error_app2 by lia. rewrite Nat.sub_diag. reflexivity. }
  assert (Hfirst : forall (l : list (option tri_ptr)) (n : Z),
            0 <= n <= Z.of_nat (length l) -> n = Z.of_nat (length (firstn (Z.to_nat n) l))).
  { intros l n H. rewrite length_firstn. lia. }
  unfold rtVoxelAddTriangle, voxel_make_room, wants_room, voxel_cells.
  destruct vox as [n p cells]. simpl in *.
  destruct cells as [old|].
  - destruct (p =? 0) eqn:Ep.
    + apply Z.eqb_eq in Ep. subst p. split.
      * intros _ ->. reflexivity.
      * intros [H | ->]; [discriminate |].
        destruct (n <? 0) eqn:E1; [apply Z.ltb_lt in E1; lia |].
        destruct (Z.of_nat (length old) <? n) eqn:E2; [apply Z.ltb_lt in E2; lia |].
        simpl.
        assert (W : wrap32 (n + bufsize) = n + bufsize)
          by (apply wrap32_small; unfold INT32_MIN, INT32_MAX in *; lia).
        rewrite W. replace (n + bufsize - n) with bufsize by lia.
        set (cells := firstn (Z.to_nat n) old ++ repeat None (Z.to_nat bufsize)).
        assert (Hlen : Z.of_nat (length cells) = n + bufsize).
        { unfold cells. rewrite length_app, length_firstn, repeat_length. lia. }
        destruct (store_appends cells n bufsize t Hnt Hbuf Hroom Hlen)
          as (Hs & Hn' & Hp' & Hc' & Hwf').
        rewrite Hs. eexists. split; [reflexivity |].
        split; [exact Hn' |]. split; [exact Hp' |].
        assert (Hc'' : firstn (Z.to_nat n) cells = firstn (Z.to_nat n) old).
        { unfold cells. rewrite firstn_app, length_firstn.
          replace (Z.to_nat n - Nat.min (Z.to_nat n) (length old))%nat with 0%nat by lia.
          rewrite firstn_firstn, Nat.min_id. simpl. apply app_nil_r. }
        unfold voxel_cells in Hc'. simpl in Hc'. rewrite Hc'' in Hc'.
        unfold voxel_cells. simpl. rewrite Hc'.
        split; [reflexivity |]. split; [| exact Hwf'].
        apply Hlast, Hfirst. lia.
    + apply Z.eqb_neq in Ep. split; [discriminate |]. intros _. simpl.
      destruct (store_appends old n p t Hnt ltac:(lia) Hfit Hcells)
        as (Hs & Hn' & Hp' & Hc' & Hwf').
      rewrite Hs. eexists. split; [reflexivity |].
      split; [exact Hn' |]. split; [exact Hp' |].
      unfold voxel_cells in Hc'. simpl in Hc'. unfold voxel_cells. simpl. rewrite Hc'.
      split; [reflexivity |]. split; [| exact Hwf'].
      apply Hlast, Hfirst. lia.
  - destruct Hcells as [-> ->]. split.
    + intros _ ->. reflexivity.
    + intros [H | ->]; [discriminate |]. simpl.
      set (cells := repeat (@None tri_ptr) (Z.to_nat bufsize)).
      assert (Hlen : Z.of_nat (length cells) = 0 + bufsize).
      { unfold cells. rewrite repeat_length. lia. }
      destruct (store_appends cells 0 bufsize t ltac:(lia) Hbuf Hroom Hlen)
        as (Hs & Hn' & Hp' & Hc' & Hwf').
      rewrite Hs. eexists. split; [reflexivity |].
      split; [exact Hn' |]. split; [exact Hp' |].
      unfold voxel_cells in Hc'. simpl in Hc'. unfold voxel_cells. simpl. rewrite Hc'.
      split; [reflexivity |]. split; [reflexivity | exact Hwf'].
Qed.

(** The instances of [rtVoxelAddTriangle_spec] on a voxel that holds one
    triangle and has no free cell left: with a failing and with a succeeding
    allocation of [BUFSIZE] more cells. *)
Lemma rtVoxelAddTriangle_spec_witness :
  let full := {| vnt := 1; vp := 0; vt := Some [Some 4%nat] |} in
  rtVoxelAddTriangle false full 7%nat BUFSIZE = Some (0, full)
  /\ exists vox',
       rtVoxelAddTriangle true full 7%nat BUFSIZE = Some (1, vox')
       /\ vox'.(vnt) = full.(vnt) + 1
       /\ vox'.(vp) = (if wants_room full then BUFSIZE else full.(vp)) - 1
       /\ voxel_cells vox' = voxel_cells full ++ [Some 7%nat]
       /\ at_index (voxel_cells vox') full.(vnt) = Some (Some 7%nat)
       /\ voxel_wf vox'.
Proof.
  intros full.
  assert (Hwf : voxel_wf full) by (unfold voxel_wf, full, INT32_MAX; simpl; lia).
  assert (Hbuf : 0 < BUFSIZE) by (unfold BUFSIZE; lia).
  assert (Hfit : full.(vnt) + BUFSIZE <= INT32_MAX)
    by (unfold full, BUFSIZE, INT32_MAX; simpl; lia).
  split.
  - apply (proj1 (rtVoxelAddTriangle_spec false full 7%nat BUFSIZE Hwf Hbuf Hfit));
      reflexivity.
  - apply (proj2 (rtVoxelAddTriangle_spec true full 7%nat BUFSIZE Hwf Hbuf Hfit)).
    right. reflexivity.
Defined.

(** ** The grid builder *)

Lemma Q_to_int32_inject (z n : Z) : Q_to_int32 (inject_Z z) = Some n -> n = z.
Proof.
  unfold Q_to_int32, Qtrunc. simpl. rewrite Z.quot_1_r.
  destruct (in_int32 z); congruence.
Qed.

Lemma Qceiling_pos (q : Q) : (0 < q)%Q -> 1 <= Qceiling q.
Proof.
  intros H. pose proof (Qle_ceiling q) as Hc.
  assert (Hz : (0 < inject_Z (Qceiling q))%Q) by lra.
  rewrite <- (Zlt_Qlt 0) in Hz. lia.
Qed.

Lemma domain_size_exact (scene : @RT_Scene ExactQ) (a : axis) :
  (domain_size (inflate scene) a == (dmax scene).[a] - (dmin scene).[a] + (3 # 1000))%Q
  /\ (domain_size (inflate scene) a
      == (dmax (inflate scene)).[a] - (dmin (inflate scene)).[a] + (1 # 1000))%Q.
Proof.
  split; destruct a; cbv [domain_size inflate vget dmin dmax cx cy cz fadd fsub flit ExactQ];
    rewrite !Qred_correct; lra.
Qed.

Lemma domain_size_pos (scene : @RT_Scene ExactQ) (a : axis) :
  ((dmin scene).[a] <= (dmax scene).[a])%Q -> (0 < domain_size (inflate scene) a)%Q.
Proof.
  intros H. destruct (domain_size_exact scene a) as [E _]. rewrite E. lra.
Qed.

Lemma density_pos (c_pow : Q -> Q -> Q) (scene : @RT_Scene ExactQ) :
  (forall x y, 0 <= x -> 0 <= c_pow x y)%Q ->
  0 <= nt scene ->
  (forall a, (dmin scene).[a] <= (dmax scene).[a])%Q ->
  (0 < density c_pow (inflate scene))%Q.
Proof.
  intros Hpow Hnt Hb.
  pose proof (domain_size_pos scene AX (Hb AX)) as Hx.
  pose proof (domain_size_pos scene AY (Hb AY)) as Hy.
  pose proof (domain_size_pos scene AZ (Hb AZ)) as Hz.
  unfold density.
  set (dx := domain_size (inflate scene) AX) in *.
  set (dy := domain_size (inflate scene) AY) in *.
  set (dz := domain_size (inflate scene) AZ) in *.
  cbv [fadd fdiv fmul flit float_of_int ExactQ].
  match goal with |- context [c_pow ?x ?y] =>
    assert (Hbase : (0 <= x)%Q); [| pose proof (Hpow x y Hbase) as Hp; set (pw := c_pow x y) in * ]
  end.
  - rewrite !Qred_correct.
    assert (Hvol : (0 < dx * dy * dz)%Q).
    { apply Qmult_lt_0_compat; [apply Qmult_lt_0_compat |]; assumption. }
    apply Qle_shift_div_l; [exact Hvol |].
    rewrite Qmult_0_l. rewrite <- (Zle_Qle 0). cbv [inflate nt]. exact Hnt.
  - rewrite !Qred_correct. lra.
Qed.

Section Shape.
Context {FO : FloatOps}.

Lemma add_to_voxel_shape (alloc : nat -> bool) (st st' : RT_Udd * nat) (off : Z) (t : tri_ptr) :
  add_to_voxel alloc st off t = Some st' -> same_shape (fst st) (fst st').
Proof.
  unfold add_to_voxel. destruct st as [udd n].
  destruct (at_index _ _) as [vox|]; [| discriminate].
  destruct (rtVoxelAddTriangle _ _ _ _) as [r|]; [| discriminate].
  intros H. inversion H; subst. simpl.
  repeat split. apply set_nth_length.
Qed.

Lemma same_shape_trans (a b c : RT_Udd) : same_shape a b -> same_shape b c -> same_shape a c.
Proof. unfold same_shape. intros (A1 & A2 & A3) (B1 & B2 & B3). repeat split; congruence. Qed.

Lemma same_shape_refl (a : RT_Udd) : same_shape a a.
Proof. repeat split. Qed.

Lemma fold_shape {A : Type} (f : RT_Udd * nat -> A -> option (RT_Udd * nat)) (l : list A) :
  (forall st x st', f st x = Some st' -> same_shape (fst st) (fst st')) ->
  forall st st',
  fold_left (fun acc x => do st0 <- acc; f st0 x) l (Some st) = Some st' ->
  same_shape (fst st) (fst st').
Proof.
  intros Hf. induction l as [|x l IH]; intros st st' H; simpl in H.
  - inversion H. apply same_shape_refl.
  - destruct (f st x) as [st1|] eqn:E.
    + eapply same_shape_trans; [eapply Hf; eauto | apply IH; exact H].
    + exfalso. clear -H. induction l; simpl in H; [discriminate | auto].
Qed.

Lemma voxelize_triangle_shape (alloc : nat -> bool) (scene : RT_Scene)
  (st st' : RT_Udd * nat) (tp : tri_ptr) :
  voxelize_triangle alloc scene st tp = Some st' -> same_shape (fst st) (fst st').
Proof.
  unfold voxelize_triangle.
  destruct (nth_error _ _) as [t|]; [| discriminate].
  destruct (index_box _ _ _) as [[mn mx]|]; [| discriminate].
  destruct (_ && _).
  - apply add_to_voxel_shape.
  - apply (fold_shape (fun st0 ijk => let '(i, j, k) := ijk in
             if voxel_skipped scene (fst st) t i j k then Some st0
             else add_to_voxel alloc st0 (rtVoxelArrayOffset (fst st) i j k) tp)).
    intros st0 [[i j] k] st1. destruct (voxel_skipped _ _ _ _ _ _).
    + intros H; inversion H. apply same_shape_refl.
    + apply add_to_voxel_shape.
Qed.

Lemma rtUddVoxelize_shape (malloc_tmp : bool) (alloc : nat -> bool)
  (udd udd' : RT_Udd) (scene : RT_Scene) :
  rtUddVoxelize malloc_tmp alloc udd scene = Some udd' -> same_shape udd udd'.
Proof.
  unfold rtUddVoxelize. destruct (negb malloc_tmp).
  - intros H; inversion H. apply same_shape_refl.
  - destruct (fold_left _ _ _) as [st|] eqn:E; [| discriminate].
    intros H; inversion H; subst.
    apply (fold_shape (voxelize_triangle alloc scene)) in E; [exact E |].
    intros. eapply voxelize_triangle_shape; eauto.
Qed.
End Shape.


Lemma created_inj {A B : Type} (a a' : A) (b b' : B) :
  Some (a, Some b) = Some (a', Some b') -> a' = a /\ b' = b.
Proof. intros H. inversion H. auto. Qed.

(** *** Integers as single-precision floats *)

Lemma digits2_pos_bounds (p : positive) :
  2 ^ (Zpos (digits2_pos p) - 1) <= Zpos p < 2 ^ Zpos (digits2_pos p).
Proof.
  assert (Hstep : forall d : positive,
            2 ^ Zpos d = 2 * 2 ^ (Zpos d - 1)
            /\ 2 ^ (Zpos (Pos.succ d) - 1) = 2 ^ Zpos d
            /\ 2 ^ Zpos (Pos.succ d) = 2 * 2 ^ Zpos d).
  { intros d. rewrite Pos2Z.inj_succ.
    replace (Z.succ (Zpos d) - 1) with (Zpos d) by lia.
    rewrite Z.pow_succ_r by lia. repeat split.
    replace (Zpos d) with (Z.succ (Zpos d - 1)) at 1 by lia.
    rewrite Z.pow_succ_r by lia. reflexivity. }
  induction p as [p IH | p IH |]; cbn [digits2_pos].
  - destruct (Hstep (digits2_pos p)) as (E1 & E2 & E3). rewrite E2, E3.
    change (Zpos p~1) with (2 * Zpos p + 1). clear E2 E3 Hstep.
    set (a := 2 ^ (Zpos (digits2_pos p) - 1)) in *. set (b := 2 ^ Zpos (digits2_pos p)) in *.
    clearbody a b. lia.
  - destruct (Hstep (digits2_pos p)) as (E1 & E2 & E3). rewrite E2, E3.
    change (Zpos p~0) with (2 * Zpos p). clear E2 E3 Hstep.
    set (a := 2 ^ (Zpos (digits2_pos p) - 1)) in *. set (b := 2 ^ Zpos (digits2_pos p)) in *.
    clearbody a b. lia.
  - simpl. lia.
Qed.

Lemma iter_xO_spec (n p : positive) :
  Zpos (Pos.iter xO p n) = Zpos p * 2 ^ Zpos n
  /\ digits2_pos (Pos.iter xO p n) = (digits2_pos p + n)%positive.
Proof.
  revert p. induction n as [|n IH] using Pos.peano_ind; intros p.
  - cbn [Pos.iter]. split; [rewrite Pos2Z.inj_xO; change (2 ^ 1) with 2; lia |].
    cbn [digits2_pos]. lia.
  - rewrite Pos.iter_succ. destruct (IH p) as [E1 E2]. split.
    + rewrite Pos2Z.inj_xO, E1, Pos2Z.inj_succ, Z.pow_succ_r by lia. lia.
    + cbn [digits2_pos]. rewrite E2. lia.
Qed.

Lemma binary_round_aux_exact (m : positive) (e : Z) :
  Zpos (digits2_pos m) = 24 -> - 149 <= e <= 104 ->
  binary_round_aux 24 128 false (Zpos m) e loc_Exact = S754_finite false m e.
Proof.
  intros Hd He.
  assert (Ef : fexp 24 128 (Zpos (digits2_pos m) + e) - e = 0)
    by (rewrite Hd; unfold fexp, emin; lia).
  unfold binary_round_aux, shr_fexp. cbn [Zdigits2 shr_record_of_loc].
  rewrite Ef. cbn [shr shr_m loc_of_shr_record round_nearest_even Zdigits2 shr_record_of_loc].
  rewrite Ef. cbn [shr shr_m].
  assert (El : (e <=? 128 - 24) = true) by (apply Z.leb_le; lia).
  rewrite El. reflexivity.
Qed.

(** An integer of at most 24 bits is a float: its digits, shifted to the
    left to fill the mantissa. *)
Lemma b32_of_int_small (p : positive) :
  Zpos p < 2 ^ 24 ->
  exists m e, b32_of_int (Zpos p) = S754_finite false m e
              /\ - 23 <= e <= 0 /\ Zpos m = Zpos p * 2 ^ (- e).
Proof.
  intros Hp. pose proof (digits2_pos_bounds p) as [Hlo Hhi].
  assert (Hd : Zpos (digits2_pos p) <= 24).
  { destruct (Z_le_gt_dec (Zpos (digits2_pos p)) 24) as [H | H]; [exact H | exfalso].
    assert (2 ^ 24 <= 2 ^ (Zpos (digits2_pos p) - 1)) by (apply Z.pow_le_mono_r; lia). lia. }
  unfold b32_of_int, binary_normalize, binary_round.
  assert (Ef : fexp 24 128 (Zpos (digits2_pos p) + 0) = Zpos (digits2_pos p) - 24).
  { unfold fexp, emin. lia. }
  rewrite Ef. unfold shl_align.
  destruct (Zpos (digits2_pos p) - 24 - 0) as [|q|q] eqn:Eq; [| lia |].
  - rewrite binary_round_aux_exact by lia.
    exists p, 0. split; [reflexivity |]. split; [lia |]. simpl. lia.
  - destruct (iter_xO_spec q p) as [Em Edig].
    rewrite binary_round_aux_exact by (try rewrite Edig; lia).
    exists (Pos.iter xO p q), (Zpos (digits2_pos p) - 24).
    split; [reflexivity |]. split; [lia |].
    rewrite Em. f_equal. f_equal. lia.
Qed.

Lemma b32_int_round_trip (p : Z) :
  0 <= p <= 2 ^ 24 -> b32_trunc (b32_of_int p) = Some p.
Proof.
  intros Hp. destruct (Z.eq_dec p (2 ^ 24)) as [-> | Hne]; [reflexivity |].
  destruct p as [|p|p]; [reflexivity | | lia].
  destruct (b32_of_int_small p) as (m & e & E & He & Em); [lia |].
  rewrite E. unfold b32_trunc.
  assert (Emag : (if 0 <=? e then Z.shiftl (Zpos m) e else Z.shiftr (Zpos m) (- e)) = Zpos p).
  { destruct (0 <=? e) eqn:E0.
    - apply Z.leb_le in E0. assert (e = 0) as -> by lia. rewrite Z.shiftl_0_r.
      rewrite Em. simpl. lia.
    - rewrite Z.shiftr_div_pow2 by lia. rewrite Em. apply Z.div_mul.
      apply Z.pow_nonzero; lia. }
  rewrite Emag.
  assert (Hin : in_int32 (Zpos p) = true).
  { unfold in_int32, INT32_MIN, INT32_MAX. apply andb_true_iff.
    split; apply Z.leb_le; lia. }
  rewrite Hin. reflexivity.
Qed.

(** *** What the call computes *)

Section CreateFacts.
Context {FO : FloatOps}.
Local Open Scope float_scope.

(** What a successful [rtUddCreate] has computed, in any float arithmetic. *)
Lemma rtUddCreate_computes (c_pow : float -> float -> float) (malloc_res malloc_v : bool)
  (scene scene' : RT_Scene) (udd : RT_Udd) :
  rtUddCreate c_pow malloc_res malloc_v scene = Some (scene', Some udd) ->
  scene' = inflate scene
  /\ (forall a,
        let tmp := fceil (domain_size scene' a * density c_pow scene') in
        int_of_float tmp = Some (nv udd).[a]
        /\ (s udd).[a] = domain_size scene' a / tmp)
  /\ exists count,
       int_of_float (float_of_int (wrap32 (wrap32 ((nv udd).[AX] * (nv udd).[AY])
                                           * (nv udd).[AZ]))) = Some count
       /\ (0 <= count)%Z
       /\ v udd = repeat zero_voxel (Z.to_nat count).
Proof.
  unfold rtUddCreate. destruct malloc_res; cbn [negb]; [| discriminate].
  cbv zeta.
  destruct (int_of_float (fceil (domain_size (inflate scene) AX
                                 * density c_pow (inflate scene)))) as [nx|] eqn:Ex;
    [| discriminate].
  destruct (int_of_float (fceil (domain_size (inflate scene) AY
                                 * density c_pow (inflate scene)))) as [ny|] eqn:Ey;
    [| discriminate].
  destruct (int_of_float (fceil (domain_size (inflate scene) AZ
                                 * density c_pow (inflate scene)))) as [nz|] eqn:Ez;
    [| discriminate].
  destruct (int_of_float (float_of_int (wrap32 (wrap32 (nx * ny) * nz)))) as [count|] eqn:Ec;
    [| discriminate].
  destruct (count <? 0)%Z eqn:E0; [discriminate |].
  destruct malloc_v; [| discriminate].
  intros H. apply created_inj in H. destruct H as [-> ->].
  cbn [s nv v vget cx cy cz].
  split; [reflexivity |]. split.
  - intros a. destruct a; cbn [vget cx cy cz]; (split; [assumption | reflexivity]).
  - exists count. split; [exact Ec |]. split; [apply Z.ltb_ge; exact E0 | reflexivity].
Qed.

(** When the voxel count survives the conversion to [float], the voxel array
    has that many voxels, and the grid is well formed. *)
Lemma rtUddCreate_counted (c_pow : float -> float -> float) (malloc_res malloc_v : bool)
  (scene scene' : RT_Scene) (udd : RT_Udd) :
  rtUddCreate c_pow malloc_res malloc_v scene = Some (scene', Some udd) ->
  (forall a, (1 <= (nv udd).[a])%Z) ->
  ((nv udd).[AX] * (nv udd).[AY] * (nv udd).[AZ] <= INT32_MAX)%Z ->
  int_of_float (float_of_int ((nv udd).[AX] * (nv udd).[AY] * (nv udd).[AZ]))
  = Some ((nv udd).[AX] * (nv udd).[AY] * (nv udd).[AZ])%Z ->
  v udd = repeat zero_voxel (Z.to_nat ((nv udd).[AX] * (nv udd).[AY] * (nv udd).[AZ])).
Proof.
  intros H Hnv Hfit Hrt.
  destruct (rtUddCreate_computes _ _ _ _ _ _ H) as (_ & _ & count & Ec & _ & Ev).
  pose proof (Hnv AX). pose proof (Hnv AY). pose proof (Hnv AZ).
  assert (Hw : wrap32 (wrap32 ((nv udd).[AX] * (nv udd).[AY]) * (nv udd).[AZ])
               = ((nv udd).[AX] * (nv udd).[AY] * (nv udd).[AZ])%Z).
  { rewrite (wrap32_small ((nv udd).[AX] * (nv udd).[AY]))
      by (unfold INT32_MIN, INT32_MAX in *; nia).
    apply wrap32_small. unfold INT32_MIN, INT32_MAX in *. nia. }
  rewrite Hw, Hrt in Ec. inversion Ec; subst count. exact Ev.
Qed.

End CreateFacts.

(** C5, as amended.  A grid that [rtUddCreate] returns, with [dmin], [dmax]
    the inflated bounds the call leaves in the scene.  In any float
    arithmetic [nv[a]] is [ceil(ds[a]*v)] converted to [int32_t], [s[a]] is
    [ds[a] / ceil(ds[a]*v)], and the voxel array has as many voxels, all
    empty, as the [int32_t] product [nx*ny*nz] gives once converted to
    [float] and back; that is [nx*ny*nz] itself when every [nv[a] >= 1], the
    product fits an [int32_t] and survives the conversion; voxelization
    changes neither [nv], nor [s], nor the number of voxels.  In single
    precision every count up to [2^24] survives the conversion.  In exact
    arithmetic, on bounds that are not inverted, [nv[a] >= 1] and
    [s[a] = (dmax[a] - dmin[a] + 0.001) / nv[a]]. *)
Theorem rtUddCreate_grid_invariants :
  (forall (FO : FloatOps) (c_pow : float -> float -> float) (malloc_res malloc_v : bool)
          (scene scene' : RT_Scene) (udd : RT_Udd),
     rtUddCreate c_pow malloc_res malloc_v scene = Some (scene', Some udd) ->
     let product := (nv udd).[AX] * (nv udd).[AY] * (nv udd).[AZ] in
     scene' = inflate scene
     /\ (forall a,
           let tmp := fceil (fmul (domain_size scene' a) (density c_pow scene')) in
           int_of_float tmp = Some (nv udd).[a]
           /\ (s udd).[a] = fdiv (domain_size scene' a) tmp)
     /\ (exists count,
           int_of_float (float_of_int (wrap32 (wrap32 ((nv udd).[AX] * (nv udd).[AY])
                                               * (nv udd).[AZ]))) = Some count
           /\ 0 <= count
           /\ v udd = repeat zero_voxel (Z.to_nat count))
     /\ ((forall a, 1 <= (nv udd).[a]) ->
         product <= INT32_MAX ->
         int_of_float (float_of_int product) = Some product ->
         v udd = repeat zero_voxel (Z.to_nat product))
     /\ (forall malloc_tmp alloc udd',
           rtUddVoxelize malloc_tmp alloc udd scene' = Some udd' -> same_shape udd udd'))
  /\ (forall p : Z,
        0 <= p <= 2 ^ 24 -> @int_of_float Binary32 (@float_of_int Binary32 p) = Some p)
  /\ (forall (c_pow : Q -> Q -> Q) (malloc_res malloc_v : bool)
             (scene scene' : @RT_Scene ExactQ) (udd : @RT_Udd ExactQ),
        (forall x y, 0 <= x -> 0 <= c_pow x y)%Q ->
        0 <= nt scene ->
        (forall a, (dmin scene).[a] <= (dmax scene).[a])%Q ->
        rtUddCreate c_pow malloc_res malloc_v scene = Some (scene', Some udd) ->
        forall a,
          1 <= (nv udd).[a]
          /\ ((s udd).[a]
              == ((dmax scene').[a] - (dmin scene').[a] + (1 # 1000))
                 / inject_Z (nv udd).[a])%Q).
Proof.
  split; [| split].
  - intros FO c_pow malloc_res malloc_v scene scene' udd H product.
    destruct (rtUddCreate_computes _ _ _ _ _ _ H) as (Es & Hax & Hcount).
    split; [exact Es |]. split; [exact Hax |]. split; [exact Hcount |]. split.
    + intros Hnv Hfit Hrt. apply (rtUddCreate_counted _ _ _ _ _ _ H Hnv Hfit Hrt).
    + intros malloc_tmp alloc udd'. apply rtUddVoxelize_shape.
  - intros p Hp. apply b32_int_round_trip. exact Hp.
  - intros c_pow malloc_res malloc_v scene scene' udd Hpow Hnt Hb H a.
    destruct (rtUddCreate_computes _ _ _ _ _ _ H) as (Es & Hax & _). subst scene'.
    destruct (Hax a) as [En Esz]. cbv zeta in En, Esz.
    pose proof (density_pos c_pow scene Hpow Hnt Hb) as Hv.
    pose proof (domain_size_pos scene a (Hb a)) as Hd.
    destruct (domain_size_exact scene a) as [_ Ed].
    set (vv := @density ExactQ c_pow (inflate scene)) in *.
    set (ds := @domain_size ExactQ (inflate scene) a) in *.
    change (@int_of_float ExactQ (@fceil ExactQ (@fmul ExactQ ds vv)))
      with (Q_to_int32 (inject_Z (Qceiling (Qred (ds * vv))))) in En.
    apply Q_to_int32_inject in En.
    assert (Ec : @fceil ExactQ (@fmul ExactQ ds vv) = inject_Z (nv udd).[a]).
    { rewrite En. reflexivity. }
    split.
    + rewrite En. apply Qceiling_pos. rewrite Qred_correct.
      apply Qmult_lt_0_compat; assumption.
    + rewrite Esz, Ec.
      change (@fdiv ExactQ ds (inject_Z (nv udd).[a]))
        with (Qred (ds / inject_Z (nv udd).[a])).
      rewrite Qred_correct, <- Ed. reflexivity.
Qed.

Lemma pow_fixed_nonneg (x y : Q) : (0 <= x -> 0 <= pow_fixed x y)%Q.
Proof. intros _. unfold pow_fixed. destruct (Qeq_bool x 1); discriminate. Qed.

(** The instances of [rtUddCreate_grid_invariants] on [scene_AB] in exact
    arithmetic, on [scene32_small] in single precision, and on a count of
    12. *)
Lemma rtUddCreate_grid_invariants_witness :
  (forall a,
     1 <= (nv grid_empty).[a]
     /\ ((s grid_empty).[a]
         == ((dmax scene_AB').[a] - (dmin scene_AB').[a] + (1 # 1000))
            / inject_Z (nv grid_empty).[a])%Q)
  /\ v grid_empty
     = repeat zero_voxel
         (Z.to_nat ((nv grid_empty).[AX] * (nv grid_empty).[AY] * (nv grid_empty).[AZ]))
  /\ v grid32_small
     = repeat zero_voxel
         (Z.to_nat ((nv grid32_small).[AX] * (nv grid32_small).[AY] * (nv grid32_small).[AZ]))
  /\ (forall malloc_tmp alloc udd',
        rtUddVoxelize malloc_tmp alloc grid32_small (@inflate Binary32 scene32_small)
        = Some udd' ->
        same_shape grid32_small udd')
  /\ @int_of_float Binary32 (@float_of_int Binary32 12) = Some 12.
Proof.
  pose proof rtUddCreate_grid_invariants as (G & B & E).
  assert (Hc : rtUddCreate pow_fixed true true scene_AB = Some (scene_AB', Some grid_empty))
    by reflexivity.
  assert (Hc32 : @rtUddCreate Binary32 pow32_fixed true true scene32_small
                 = Some (@inflate Binary32 scene32_small, Some grid32_small))
    by reflexivity.
  destruct (G ExactQ pow_fixed true true scene_AB scene_AB' grid_empty Hc)
    as (_ & _ & _ & Hcount & _).
  destruct (G Binary32 pow32_fixed true true scene32_small _ grid32_small Hc32)
    as (_ & _ & _ & Hcount32 & Hshape32).
  split; [| split; [| split; [| split]]].
  - apply (E pow_fixed true true scene_AB scene_AB' grid_empty).
    + exact pow_fixed_nonneg.
    + discriminate.
    + intros a. destruct a; discriminate.
    + exact Hc.
  - apply Hcount.
    + intros a. destruct a; simpl; lia.
    + unfold INT32_MAX. simpl. lia.
    + reflexivity.
  - apply Hcount32.
    + intros a. destruct a; simpl; lia.
    + unfold INT32_MAX. simpl. lia.
    + reflexivity.
  - exact Hshape32.
  - apply B. lia.
Defined.

(** C5, counterexample.  For [scene_AB] the call returns [nv[x] = 3] and
    [s[x] = 2/3] over inflated bounds 0 and 1.999: [s[x]] is neither the
    inflated nor the original extent divided by [nv[x]].  For [scene_wide]
    the grid has a resolution of 2048 per axis and an empty voxel array,
    the [int32_t] product being 0.  In single precision, for [scene32_big]
    the call returns [nv = (97, 257, 673)], whose product 16777217 is no
    float, and a voxel array of 16777216 voxels. *)
Lemma created_grid_breaks_stated_invariants :
  rtUddCreate pow_fixed true true scene_AB = Some (scene_AB', Some grid_empty)
  /\ (nv grid_empty).[AX] = 3
  /\ (s grid_empty).[AX] = (2 # 3)%Q
  /\ (dmin scene_AB').[AX] = 0%Q
  /\ (dmax scene_AB').[AX] = (1999 # 1000)%Q
  /\ ~ ((s grid_empty).[AX]
        == ((dmax scene_AB').[AX] - (dmin scene_AB').[AX]) / inject_Z (nv grid_empty).[AX])%Q
  /\ ~ ((s grid_empty).[AX]
        == ((dmax scene_AB).[AX] - (dmin scene_AB).[AX]) / inject_Z (nv grid_empty).[AX])%Q
  /\ rtUddCreate pow_fixed true true scene_wide = Some (inflate scene_wide, Some grid_wide)
  /\ nv grid_wide = V3 2048 2048 2048
  /\ length (v grid_wide) = 0%nat
  /\ exists udd32 : @RT_Udd Binary32,
       @rtUddCreate Binary32 pow32_fixed true true scene32_big
       = Some (@inflate Binary32 scene32_big, Some udd32)
       /\ nv udd32 = V3 97 257 673
       /\ 97 * 257 * 673 = 16777217
       /\ Z.of_nat (length (v udd32)) = 16777216.
Proof.
  repeat (split; [first [reflexivity | intros H; discriminate H] |]).
  assert (En : forall a,
            @int_of_float Binary32
              (@fceil Binary32 (@fmul Binary32 (@domain_size Binary32 (@inflate Binary32 scene32_big) a)
                                  (@density Binary32 pow32_fixed (@inflate Binary32 scene32_big))))
            = Some (V3 97 257 673).[a]).
  { intros a. destruct a; vm_compute; reflexivity. }
  assert (Ec : @int_of_float Binary32 (@float_of_int Binary32 (wrap32 (wrap32 (97 * 257) * 673)))
               = Some 16777216) by (vm_compute; reflexivity).
  unfold rtUddCreate. cbn [negb]. cbv zeta.
  rewrite (En AX), (En AY), (En AZ). cbn [vget cx cy cz].
  rewrite Ec.
  change (16777216 <? 0) with false. cbv iota.
  eexists. split; [reflexivity |]. cbn [nv v].
  split; [reflexivity |]. split; [reflexivity |].
  rewrite repeat_length. apply Z2Nat.id. lia.
Qed.

(** ** Runs on the concrete scenes *)

Lemma Qltb_lt (a b : Q) : Qltb a b = true <-> (a < b)%Q.
Proof. unfold Qltb, Qlt. apply Z.ltb_lt. Qed.

Lemma Qltb_irrefl (a : Q) : Qltb a a = false.
Proof. unfold Qltb. apply Z.ltb_irrefl. Qed.

Lemma Qltb_trans (a b c : Q) : Qltb a b = true -> Qltb b c = true -> Qltb a c = true.
Proof. rewrite !Qltb_lt. apply Qlt_trans. Qed.

(** The instance of [rtVoxelArrayOffset_in_range_injective] on the grid of
    [scene_AB], at the voxels (2,1,1) and (0,0,0). *)
Lemma rtVoxelArrayOffset_in_range_injective_witness :
  rtVoxelArrayOffset grid_AB 2 1 1 = (2 * 2 + 1) * 2 + 1
  /\ 0 <= rtVoxelArrayOffset grid_AB 2 1 1 < 3 * 2 * 2
  /\ (rtVoxelArrayOffset grid_AB 2 1 1 = rtVoxelArrayOffset grid_AB 0 0 0 ->
      2 = 0 /\ 1 = 0 /\ 1 = 0).
Proof.
  apply (rtVoxelArrayOffset_in_range_injective grid_AB 2 1 1 0 0 0);
    simpl; unfold INT32_MAX; lia.
Defined.

(** The instance of [rtUddTraverse_terminates] on the grid of [scene_AB]:
    the ray [ray_o], [ray_r] from the voxel (0,0,1) is answered within
    3 + 2 + 2 iterations. *)
Lemma rtUddTraverse_terminates_witness :
  (exists T ip, rtUddTraverse 7 grid_AB scene_AB' None ray_o ray_r 0 0 1 = Hit T ip)
  \/ rtUddTraverse 7 grid_AB scene_AB' None ray_o ray_r 0 0 1 = NoHit.
Proof.
  assert (Hok : grid_ok scene_AB' grid_AB = true) by reflexivity.
  assert (Hin : in_grid grid_AB 0 0 1 = true) by reflexivity.
  apply (proj2 (proj2
           (rtUddTraverse_terminates grid_AB scene_AB' None ray_o ray_r 0 0 1 Hok Hin))).
  simpl. lia.
Defined.



(** C2, failing input. The locator on a ray that starts outside the domain
    on all three axes: the ray is inside the domain at [t = 21/10], at the
    point (0, 1/2, 2/5)
    of the voxel (0,1,0); the two smallest positive wall distances are 7/10
    and 14/15, the points there are outside, and the locator returns 0. *)
Lemma locator_misses_corner_ray :
  rtVertexGetVoxel scene_AB' grid_AB corner_o = Some (false, (-2, 0, 0))
  /\ rtVectorRaypoint corner_o corner_r (21 # 10)%Q = q3 0 (1 # 2) (2 # 5)
  /\ rtVertexGetVoxel scene_AB' grid_AB (rtVectorRaypoint corner_o corner_r (21 # 10)%Q)
     = Some (true, (0, 1, 0))
  /\ (forall a, (dmin scene_AB').[a] <= (q3 0 (1 # 2) (2 # 5)).[a] <= (dmax scene_AB').[a])%Q
  /\ two_smallest_distances scene_AB' corner_o corner_r = ((7 # 10)%Q, (14 # 15)%Q)
  /\ rtVectorRaypoint corner_o corner_r (7 # 10)%Q = q3 (- 6 # 5) (- 1 # 10) 0
  /\ rtVectorRaypoint corner_o corner_r (14 # 15)%Q = q3 (- 1) 0 (1 # 15)
  /\ rtUddFindStartupVoxel grid_AB scene_AB' corner_o corner_r = Some (false, (-1, 0, 0)).
Proof.
  repeat split; try reflexivity; destruct a; discriminate.
Qed.

(** C3, failing input. The locator on a ray that starts at [x = -1/5],
    outside the domain, and moves away from it: it returns 1 with the voxel
    (0,0,0), whose box starts at [x = 0], while every point of the ray has
    [x <= -1/5]. *)
Lemma locator_accepts_ray_leaving_domain :
  rtUddFindStartupVoxel grid_AB scene_AB' away_o away_r = Some (true, (0, 0, 0))
  /\ voxel_lo scene_AB' grid_AB AX 0 = 0%Q
  /\ (forall t : Q, 0 <= t ->
        (rtVectorRaypoint away_o away_r t).[AX] < voxel_lo scene_AB' grid_AB AX 0)%Q.
Proof.
  split; [reflexivity |]. split; [reflexivity |].
  intros t Ht.
  assert (E : voxel_lo scene_AB' grid_AB AX 0 = 0%Q) by reflexivity.
  rewrite E. cbv [rtVectorRaypoint away_o away_r q3 vget cx cy cz fadd fmul ExactQ].
  rewrite !Qred_correct. lra.
Qed.

(** C4, failing input. The voxelizer on triangle A of [scene_AB]: the
    vertices lie in the voxels (0,0,1) and (0,1,1), so both are candidates
    of the general path;
    in (0,0,1) the plane value is 8/25 at the corner (0,0,1/2) and -2/25 at
    the corner (0,0,1), yet the sign test of the source skips the voxel, and
    after voxelization no voxel holds A. *)
Lemma voxelizer_skips_voxel_crossed_by_plane :
  rtVertexGetVoxel scene_AB' grid_empty (tri_i tri_A) = Some (true, (0, 0, 1))
  /\ rtVertexGetVoxel scene_AB' grid_empty (tri_j tri_A) = Some (true, (0, 0, 1))
  /\ rtVertexGetVoxel scene_AB' grid_empty (tri_k tri_A) = Some (true, (0, 1, 1))
  /\ index_box scene_AB' grid_empty tri_A = Some (V3 0 0 1, V3 0 1 1)
  /\ In (q3 0 0 (1 # 2)) (voxel_corners scene_AB' grid_empty 0 0 1)
  /\ In (q3 0 0 1) (voxel_corners scene_AB' grid_empty 0 0 1)
  /\ plane_value tri_A (q3 0 0 (1 # 2)) = (8 # 25)%Q
  /\ plane_value tri_A (q3 0 0 1) = (- 2 # 25)%Q
  /\ same_strict_sign tri_A (voxel_corners scene_AB' grid_empty 0 0 1) = false
  /\ voxel_skipped scene_AB' grid_empty tri_A 0 0 1 = true
  /\ rtUddVoxelize true (fun _ => true) grid_empty scene_AB' = Some grid_AB
  /\ (forall vox, In vox (v grid_AB) -> ~ In (Some 0%nat) (voxel_cells vox)).
Proof.
  repeat split; try reflexivity.
  - simpl. auto.
  - simpl. auto 10.
  - intros vox Hin Hc. simpl in Hin.
    repeat (destruct Hin as [<- | Hin]; [simpl in Hc; intuition discriminate |]).
    exact Hin.
Qed.

(** ** The locator's result is a voxel of the grid *)

Section LocatorFacts.
Context {FO : FloatOps}.

(** Whenever [rtUddFindStartupVoxel] returns 1, the indices it leaves are
    within the grid. *)
Theorem rtUddFindStartupVoxel_in_grid (udd : RT_Udd) (scene : RT_Scene) (o r : point)
  (i j k : Z) :
  rtUddFindStartupVoxel udd scene o r = Some (true, (i, j, k)) ->
  in_grid udd i j k = true.
Proof.
  assert (Hv : forall p flag idx,
            rtVertexGetVoxel scene udd p = Some (flag, idx) ->
            flag = true -> idx = (i, j, k) -> in_grid udd i j k = true).
  { intros p flag idx H Hflag Hidx. unfold rtVertexGetVoxel in H.
    destruct (int_of_float _) as [i0|]; [| discriminate].
    destruct (int_of_float _) as [j0|]; [| discriminate].
    destruct (int_of_float _) as [k0|]; [| discriminate].
    inversion H; subst. inversion H2; subst. assumption. }
  unfold rtUddFindStartupVoxel. intros H.
  destruct (rtVertexGetVoxel scene udd o) as [[f0 idx0]|] eqn:E0; [| discriminate].
  simpl in H. destruct f0.
  - inversion H; subst. eapply Hv; eauto.
  - destruct (two_smallest_distances scene o r) as [dmin1 dmin2].
    destruct (rtVertexGetVoxel scene udd (rtVectorRaypoint o r dmin1))
      as [[f1 idx1]|] eqn:E1; [| discriminate].
    simpl in H. destruct f1.
    + inversion H; subst. eapply Hv; eauto.
    + destruct (rtVertexGetVoxel scene udd (rtVectorRaypoint o r dmin2))
        as [[f2 idx2]|] eqn:E2; [| discriminate].
      simpl in H. destruct f2; [| discriminate].
      inversion H; subst. eapply Hv; eauto.
Qed.

End LocatorFacts.

(** The instance of [rtUddFindStartupVoxel_in_grid] on the ray [ray_o],
    [ray_r]. *)
Lemma rtUddFindStartupVoxel_in_grid_witness : in_grid grid_AB 0 0 1 = true.
Proof.
  apply (rtUddFindStartupVoxel_in_grid grid_AB scene_AB' ray_o ray_r 0 0 1).
  reflexivity.
Defined.

(** ** The runs repeated in IEEE single precision *)

Lemma SFltb_irrefl (x : spec_float) : SFltb x x = false.
Proof.
  unfold SFltb, SFcompare.
  destruct x as [sx|sx| |sx mx ex]; try destruct sx; try reflexivity;
    rewrite Z.compare_refl; fold (Pos.compare mx mx); rewrite Pos.compare_refl; reflexivity.
Qed.

Lemma finite_lt_trans (e1 e2 e3 : Z) (m1 m2 m3 : positive) :
  match Z.compare e1 e2 with Lt => Lt | Gt => Gt | Eq => Pos.compare m1 m2 end = Lt ->
  match Z.compare e2 e3 with Lt => Lt | Gt => Gt | Eq => Pos.compare m2 m3 end = Lt ->
  match Z.compare e1 e3 with Lt => Lt | Gt => Gt | Eq => Pos.compare m1 m3 end = Lt.
Proof.
  destruct (Z.compare_spec e1 e2), (Z.compare_spec e2 e3), (Z.compare_spec e1 e3);
    try discriminate; try lia; try reflexivity.
  rewrite !Pos.compare_lt_iff. lia.
Qed.

Lemma finite_gt_trans (e1 e2 e3 : Z) (m1 m2 m3 : positive) :
  match Z.compare e1 e2 with Lt => Gt | Gt => Lt | Eq => CompOpp (Pos.compare m1 m2) end = Lt ->
  match Z.compare e2 e3 with Lt => Gt | Gt => Lt | Eq => CompOpp (Pos.compare m2 m3) end = Lt ->
  match Z.compare e1 e3 with Lt => Gt | Gt => Lt | Eq => CompOpp (Pos.compare m1 m3) end = Lt.
Proof.
  destruct (Z.compare_spec e1 e2), (Z.compare_spec e2 e3), (Z.compare_spec e1 e3);
    try discriminate; try lia; try reflexivity.
  destruct (Pos.compare_spec m1 m2), (Pos.compare_spec m2 m3), (Pos.compare_spec m1 m3);
    simpl; try discriminate; try lia; reflexivity.
Qed.

(** The comparison of IEEE floats is a strict order, as the statement about
    the nearest hit in a voxel assumes. *)
Lemma SFltb_trans (x y z : spec_float) :
  SFltb x y = true -> SFltb y z = true -> SFltb x z = true.
Proof.
  unfold SFltb, SFcompare.
  destruct x as [sx|sx| |sx mx ex], y as [sy|sy| |sy my ey], z as [sz|sz| |sz mz ez];
    try destruct sx; try destruct sy; try destruct sz; simpl;
    try discriminate; try reflexivity;
    fold (Pos.compare mx my); fold (Pos.compare my mz); fold (Pos.compare mx mz);
    intros H1 H2.
  - pose proof (finite_gt_trans ex ey ez mx my mz) as H.
    destruct (match ex ?= ey with Lt => Gt | Gt => Lt | Eq => CompOpp (Pos.compare mx my) end);
      try discriminate.
    destruct (match ey ?= ez with Lt => Gt | Gt => Lt | Eq => CompOpp (Pos.compare my mz) end);
      try discriminate.
    rewrite H; reflexivity.
  - pose proof (finite_lt_trans ex ey ez mx my mz) as H.
    destruct (match ex ?= ey with Lt => Lt | Gt => Gt | Eq => Pos.compare mx my end);
      try discriminate.
    destruct (match ey ?= ez with Lt => Lt | Gt => Gt | Eq => Pos.compare my mz end);
      try discriminate.
    rewrite H; reflexivity.
Qed.

(** The voxelizer on triangle A: the voxel (0,0,1) is skipped although its
    corners do not share a sign, and A is stored nowhere. *)
Lemma ieee_voxelizer_skips_voxel_crossed_by_plane :
  index_box scene32 grid32_empty tri_A32 = Some (V3 0 0 1, V3 0 1 1)
  /\ voxel_skipped scene32 grid32_empty tri_A32 0 0 1 = true
  /\ same_strict_sign tri_A32 (voxel_corners scene32 grid32_empty 0 0 1) = false
  /\ rtUddVoxelize true (fun _ => true) grid32_empty scene32 = Some grid32.
Proof. repeat split; reflexivity. Qed.

(** The traverser, from the voxel the locator gives, returns B although A
    is hit at a smaller positive distance. *)
Lemma ieee_returned_hit_is_not_the_nearest :
  let dA := S754_finite false 14092859 (-28) in
  let dB := S754_finite false 12415142 (-24) in
  rtUddFindStartupVoxel grid32 scene32 ray32_o ray32_r = Some (true, (0, 0, 1))
  /\ rtUddTraverse 7 grid32 scene32 None ray32_o ray32_r 0 0 1
     = @Hit Binary32 1%nat (rtVectorRaypoint ray32_o ray32_r dB)
  /\ isint tri_B32 ray32_o ray32_r = Some dB
  /\ isint tri_A32 ray32_o ray32_r = Some dA
  /\ SFltb (b32_lit 0) dA = true
  /\ SFltb dA dB = true.
Proof.
  intros dA dB.
  split; [reflexivity |]. split; [reflexivity |]. split; [reflexivity |].
  split; [reflexivity |]. split; reflexivity.
Qed.

(** The locator returns 0 for the corner ray, which at [t = 2.11] is at a
    point strictly inside the scene bounds, in the voxel (0,1,0). *)
Lemma ieee_locator_misses_corner_ray :
  let p := rtVectorRaypoint corner32_o corner32_r (b32_lit (211 # 100)) in
  rtVertexGetVoxel scene32 grid32 p = Some (true, (0, 1, 0))
  /\ (forall a, SFltb (dmin scene32).[a] p.[a] = true
                /\ SFltb p.[a] (dmax scene32).[a] = true)
  /\ rtUddFindStartupVoxel grid32 scene32 corner32_o corner32_r = Some (false, (-1, 0, 0)).
Proof.
  intros p. split; [reflexivity |]. split; [| reflexivity].
  intros a. destruct a; split; reflexivity.
Qed.

(** The locator returns 1 with the voxel (0,0,0) for a ray that starts left
    of that voxel's box and points further left. *)
Lemma ieee_locator_accepts_ray_leaving_domain :
  rtUddFindStartupVoxel grid32 scene32 away32_o away32_r = Some (true, (0, 0, 0))
  /\ SFltb away32_o.[AX] (voxel_lo scene32 grid32 AX 0) = true
  /\ SFltb away32_r.[AX] (b32_lit 0) = true.
Proof. repeat split; reflexivity. Qed.

(** On the ray [diag32_o], [diag32_r] the next crossings of x and y are both
    1, below that of z, and the step taken moves the y index. *)
Lemma ieee_tie_of_x_and_y_steps_y :
  let c := fst (dda_init grid32 scene32 diag32_o diag32_r 0 0 0) in
  let cur := snd (dda_init grid32 scene32 diag32_o diag32_r 0 0 0) in
  t_next c cur AX = S754_finite false 8388608 (-23)
  /\ t_next c cur AY = S754_finite false 8388608 (-23)
  /\ SFltb (t_next c cur AY) (t_next c cur AZ) = true
  /\ next_axis c cur = AY
  /\ cursor_index (next_voxel c cur) AX = 0
  /\ cursor_index (next_voxel c cur) AY = 1.
Proof. repeat split; reflexivity. Qed.

(** C8, counterexample.  In single precision, for the ray from [ray32_o]
    whose direction has three non-zero components of [2^-149], traversed
    from the in-bounds voxel the locator gives, the quotients overflow: all
    of [dtx], [dty], [dtz] are [+infinity], every next crossing is a NaN;
    the traverser still returns, NULL, after one step along z. *)
Lemma no_step_size_is_finite :
  (forall a, @feq Binary32 tiny32_r.[a] (@flit Binary32 0) = false)
  /\ @rtUddFindStartupVoxel Binary32 grid32 scene32 ray32_o tiny32_r = Some (true, (0, 0, 1))
  /\ @grid_ok Binary32 scene32 grid32 = true
  /\ @in_grid Binary32 grid32 0 0 1 = true
  /\ (forall a, dda_dt (fst (@dda_init Binary32 grid32 scene32 ray32_o tiny32_r 0 0 1)) a
                = S754_infinity false)
  /\ (forall a, @t_next Binary32 (fst (@dda_init Binary32 grid32 scene32 ray32_o tiny32_r 0 0 1))
                  (snd (@dda_init Binary32 grid32 scene32 ray32_o tiny32_r 0 0 1)) a
                = S754_nan)
  /\ @rtUddTraverse Binary32 7 grid32 scene32 None ray32_o tiny32_r 0 0 1 = NoHit.
Proof.
  repeat split; try reflexivity; intros a; destruct a; reflexivity.
Qed.

(** * Further properties of the code *)

(** ** Sequences of insertions into a voxel *)

Lemma wrap32_overflow (z : Z) :
  INT32_MAX < z <= 2 * INT32_MAX -> wrap32 z < 0.
Proof.
  unfold wrap32, INT32_MAX. intros H.
  assert (Hm : (z + 2147483648) mod 4294967296 = z + 2147483648 - 4294967296)
    by (symmetry; apply Z.mod_unique with (q := 1); lia).
  rewrite Hm. lia.
Qed.

Lemma firstn_app_exact {A : Type} (l l' : list A) (n : nat) :
  (n <= length l)%nat -> firstn n (firstn n l ++ l') = firstn n l.
Proof.
  intros H. rewrite firstn_app, length_firstn.
  replace (n - Nat.min n (length l))%nat with 0%nat by lia.
  rewrite firstn_firstn, Nat.min_id. simpl. apply app_nil_r.
Qed.

(** Every defined call on a well-formed voxel: the voxel stays well formed,
    and it either fails at the allocation and changes nothing, or appends the
    pointer. *)
Lemma rtVoxelAddTriangle_defined (ok : bool) (vox vox' : RT_Voxel) (t : tri_ptr) (bufsize r : Z) :
  voxel_wf vox -> 0 < bufsize <= INT32_MAX ->
  rtVoxelAddTriangle ok vox t bufsize = Some (r, vox') ->
  voxel_wf vox'
  /\ ((r = 0 /\ vox' = vox /\ wants_room vox = true /\ ok = false)
      \/ (r = 1 /\ vox'.(vnt) = vox.(vnt) + 1
          /\ vox'.(vp) = (if wants_room vox then bufsize else vox.(vp)) - 1
          /\ voxel_cells vox' = voxel_cells vox ++ [Some t]
          /\ (wants_room vox = false \/ ok = true))).
Proof.
  intros Hwf [Hbuf Hbmax] H.
  pose proof Hwf as (Hnt & Hp & Hfit & Hcells).
  revert H. unfold rtVoxelAddTriangle, voxel_make_room, wants_room.
  destruct vox as [n p cells]. cbn [vt vnt vp] in *.
  destruct cells as [old|].
  - destruct (p =? 0) eqn:Ep.
    + destruct ok.
      * apply Z.eqb_eq in Ep. subst p.
        destruct ((n <? 0) || (Z.of_nat (length old) <? n)); [discriminate |].
        cbn [vt vnt vp].
        set (cells := firstn (Z.to_nat n) old
                      ++ repeat None (Z.to_nat (wrap32 (n + bufsize) - n))).
        destruct (store_index cells n (Some t)) as [cells'|] eqn:Es; [| discriminate].
        assert (Hroom : n + bufsize <= INT32_MAX).
        { destruct (Z_le_gt_dec (n + bufsize) INT32_MAX) as [Hle|Hgt]; [exact Hle |].
          exfalso. pose proof (wrap32_overflow (n + bufsize) ltac:(lia)) as Hw.
          unfold store_index in Es. unfold cells in Es.
          rewrite length_app, length_firstn, repeat_length in Es.
          destruct (n <? 0) eqn:E1; [discriminate |]. cbn [orb] in Es.
          match type of Es with (if ?c then _ else _) = _ => destruct c eqn:E2 end;
            [discriminate |].
          apply Z.leb_gt in E2. lia. }
        assert (W : wrap32 (n + bufsize) = n + bufsize)
          by (apply wrap32_small; unfold INT32_MIN, INT32_MAX in *; lia).
        assert (Hlen : Z.of_nat (length cells) = n + bufsize).
        { unfold cells. rewrite W, length_app, length_firstn, repeat_length. lia. }
        destruct (store_appends cells n bufsize t Hnt Hbuf Hroom Hlen)
          as (Hs & Hn' & Hp' & Hc' & Hwf').
        rewrite Hs in Es. inversion Es; subst cells'. clear Es.
        intros H. inversion H; subst r vox'. clear H.
        split; [exact Hwf' |]. right.
        split; [reflexivity |]. split; [exact Hn' |]. split; [exact Hp' |].
        split; [| right; reflexivity].
        unfold voxel_cells in *. cbn [vt vnt vp] in *. rewrite Hc'. f_equal.
        unfold cells. apply firstn_app_exact. lia.
      * intros H. inversion H; subst. split; [exact Hwf |]. left. auto.
    + cbn [vt vnt vp]. apply Z.eqb_neq in Ep.
      destruct (store_appends old n p t Hnt ltac:(lia) Hfit Hcells)
        as (Hs & Hn' & Hp' & Hc' & Hwf').
      rewrite Hs. intros H. inversion H; subst r vox'. clear H.
      split; [exact Hwf' |]. right.
      split; [reflexivity |]. split; [exact Hn' |]. split; [exact Hp' |].
      split; [| left; reflexivity].
      unfold voxel_cells in *. cbn [vt vnt vp] in *. exact Hc'.
  - destruct Hcells as [-> ->]. destruct ok.
    + cbn [vt vnt vp].
      set (cells := repeat (@None tri_ptr) (Z.to_nat bufsize)).
      assert (Hlen : Z.of_nat (length cells) = 0 + bufsize).
      { unfold cells. rewrite repeat_length. lia. }
      destruct (store_appends cells 0 bufsize t ltac:(lia) Hbuf ltac:(lia) Hlen)
        as (Hs & Hn' & Hp' & Hc' & Hwf').
      rewrite Hs. intros H. inversion H; subst r vox'. clear H.
      split; [exact Hwf' |]. right.
      split; [reflexivity |]. split; [exact Hn' |]. split; [exact Hp' |].
      split; [| right; reflexivity].
      unfold voxel_cells in *. cbn [vt vnt vp] in *. exact Hc'.
    + intros H. inversion H; subst. split; [exact Hwf |]. left. auto.
Qed.

Lemma zero_voxel_wf : voxel_wf zero_voxel.
Proof. unfold voxel_wf, zero_voxel, INT32_MAX. simpl. lia. Qed.

Lemma rtVoxelAddTriangle_total (ok : bool) (vox : RT_Voxel) (t : tri_ptr) (bufsize : Z) :
  voxel_wf vox -> 0 < bufsize -> vox.(vnt) + bufsize <= INT32_MAX ->
  exists res, rtVoxelAddTriangle ok vox t bufsize = Some res.
Proof.
  intros (Hnt & Hp & Hfit & Hcells) Hbuf Hroom.
  unfold rtVoxelAddTriangle, voxel_make_room.
  destruct vox as [n p cells]. cbn [vt vnt vp] in *.
  destruct cells as [old|].
  - destruct (p =? 0) eqn:Ep.
    + destruct ok; [| eexists; reflexivity].
      apply Z.eqb_eq in Ep. subst p.
      destruct (n <? 0) eqn:E1; [apply Z.ltb_lt in E1; lia |].
      destruct (Z.of_nat (length old) <? n) eqn:E2; [apply Z.ltb_lt in E2; lia |].
      cbn [orb vt vnt vp].
      rewrite store_index_in_range; [eexists; reflexivity |].
      rewrite length_app, length_firstn, repeat_length.
      rewrite wrap32_small by (unfold INT32_MIN, INT32_MAX in *; lia). lia.
    + cbn [vt vnt vp]. apply Z.eqb_neq in Ep.
      rewrite store_index_in_range by lia. eexists; reflexivity.
  - destruct ok; [| eexists; reflexivity]. cbn [vt vnt vp].
    destruct Hcells as [-> ->].
    rewrite store_index_in_range; [eexists; reflexivity |].
    rewrite repeat_length. lia.
Qed.

Lemma add_all_from (bufsize : Z) (ts : list tri_ptr) :
  0 < bufsize ->
  forall vox : RT_Voxel,
  voxel_wf vox ->
  vox.(vp) = (- vox.(vnt)) mod bufsize ->
  vox.(vnt) + Z.of_nat (length ts) + bufsize <= INT32_MAX ->
  exists vox',
    add_all bufsize vox ts = Some vox'
    /\ voxel_cells vox' = voxel_cells vox ++ map Some ts
    /\ vox'.(vnt) = vox.(vnt) + Z.of_nat (length ts)
    /\ vox'.(vp) = (- vox'.(vnt)) mod bufsize
    /\ voxel_wf vox'.
Proof.
  intros Hbuf. unfold add_all.
  induction ts as [|t ts IH]; intros vox Hwf Hp Hfit.
  - exists vox. simpl. rewrite app_nil_r, Z.add_0_r. auto.
  - cbn [fold_left length map] in *.
    destruct (rtVoxelAddTriangle_total true vox t bufsize Hwf Hbuf ltac:(lia)) as [[r vox1] E].
    rewrite E. cbn [snd].
    destruct (rtVoxelAddTriangle_defined true vox vox1 t bufsize r Hwf
                ltac:(unfold INT32_MAX in *; pose proof (proj1 Hwf); lia) E)
      as [Hwf1 [(_ & _ & _ & Hno) | (_ & Hn1 & Hp1 & Hc1 & _)]]; [discriminate |].
    assert (Hp1' : vox1.(vp) = (- vox1.(vnt)) mod bufsize).
    { rewrite Hp1, Hn1.
      pose proof (Z.mod_pos_bound (- vnt vox) bufsize Hbuf) as Hb.
      assert (Hm : (- vnt vox) mod bufsize = 0 -> (- (vnt vox + 1)) mod bufsize = bufsize - 1).
      { intros Hz. apply Z.mod_divide in Hz; [| lia]. destruct Hz as [q Hq].
        symmetry. apply Z.mod_unique with (q := q - 1); lia. }
      assert (Hm' : 0 < (- vnt vox) mod bufsize ->
                    (- (vnt vox + 1)) mod bufsize = (- vnt vox) mod bufsize - 1).
      { intros Hz. symmetry. apply Z.mod_unique with (q := (- vnt vox) / bufsize); [lia |].
        pose proof (Z.div_mod (- vnt vox) bufsize ltac:(lia)). lia. }
      unfold wants_room. destruct (vt vox) eqn:Ev.
      - destruct (vp vox =? 0) eqn:E0.
        + apply Z.eqb_eq in E0. rewrite Hm; [reflexivity | lia].
        + apply Z.eqb_neq in E0. rewrite Hm'; lia.
      - destruct Hwf as (_ & _ & _ & Hc). rewrite Ev in Hc. destruct Hc as [Hc0 Hc1'].
        rewrite Hm; [reflexivity | rewrite Hc0; reflexivity]. }
    destruct (IH vox1 Hwf1 Hp1' ltac:(lia)) as (vox' & Ef & Hc & Hn & Hp' & Hwf').
    exists vox'. split; [exact Ef |]. split.
    + rewrite Hc, Hc1, <- app_assoc. reflexivity.
    + split; [lia |]. split; assumption.
Qed.

(** Inserting the triangles [ts] one after the other into an empty voxel,
    every allocation succeeding: the voxel holds exactly [ts], in insertion
    order, and its capacity is the next multiple of [bufsize]. *)
Theorem rtVoxelAddTriangle_sequence (bufsize : Z) (ts : list tri_ptr) :
  0 < bufsize ->
  Z.of_nat (length ts) + bufsize <= INT32_MAX ->
  exists vox,
    add_all bufsize zero_voxel ts = Some vox
    /\ voxel_cells vox = map Some ts
    /\ vox.(vnt) = Z.of_nat (length ts)
    /\ vox.(vp) = (- Z.of_nat (length ts)) mod bufsize
    /\ voxel_wf vox.
Proof.
  intros Hbuf Hfit.
  destruct (add_all_from bufsize ts Hbuf zero_voxel zero_voxel_wf)
    as (vox & E & Hc & Hn & Hp & Hwf).
  - simpl. rewrite Z.mod_0_l; lia.
  - simpl. lia.
  - exists vox. simpl in *. rewrite Hn in Hp. auto.
Qed.

Lemma rtVoxelAddTriangle_sequence_witness :
  exists vox,
    add_all BUFSIZE zero_voxel [3%nat; 1%nat; 4%nat] = Some vox
    /\ voxel_cells vox = map Some [3%nat; 1%nat; 4%nat]
    /\ vox.(vnt) = 3
    /\ vox.(vp) = (- 3) mod BUFSIZE
    /\ voxel_wf vox.
Proof.
  apply (rtVoxelAddTriangle_sequence BUFSIZE [3%nat; 1%nat; 4%nat]);
    unfold BUFSIZE, INT32_MAX; simpl; lia.
Defined.

(** ** What voxelization keeps *)

Section VoxelizeFacts.
Context {FO : FloatOps}.

Lemma voxel_extends_refl (scene : RT_Scene) (vox : RT_Voxel) :
  voxel_wf vox -> voxel_extends scene vox vox.
Proof.
  intros H. split; [exact H |]. exists []. simpl. rewrite app_nil_r. auto.
Qed.

Lemma voxel_extends_trans (scene : RT_Scene) (a b c : RT_Voxel) :
  voxel_extends scene a b -> voxel_extends scene b c -> voxel_extends scene a c.
Proof.
  intros (_ & l1 & E1 & F1) (W & l2 & E2 & F2). split; [exact W |].
  exists (l1 ++ l2). split.
  - rewrite E2, E1, map_app, app_assoc. reflexivity.
  - apply Forall_app. auto.
Qed.

Lemma Forall2_refl_on {A : Type} (R : A -> A -> Prop) (l : list A) :
  Forall (fun x => R x x) l -> Forall2 R l l.
Proof. induction 1; constructor; auto. Qed.

Lemma Forall2_trans_on {A : Type} (R : A -> A -> Prop) :
  (forall a b c, R a b -> R b c -> R a c) ->
  forall l1 l2 l3, Forall2 R l1 l2 -> Forall2 R l2 l3 -> Forall2 R l1 l3.
Proof.
  intros HR l1 l2 l3 H. revert l3.
  induction H; intros l3 H3; inversion H3; subst; constructor; eauto.
Qed.

Lemma Forall2_set_nth {A : Type} (R : A -> A -> Prop) (l : list A) (n : nat) (x y : A) :
  Forall (fun z => R z z) l -> nth_error l n = Some x -> R x y ->
  Forall2 R l (set_nth l n y).
Proof.
  intros Hl. revert n. induction Hl as [|z l Hz Hl IH]; intros [|n] E Hxy; simpl in *;
    try discriminate.
  - inversion E; subst. constructor; [exact Hxy | apply Forall2_refl_on; exact Hl].
  - constructor; [exact Hz | apply IH; assumption].
Qed.

Lemma at_index_nth {A : Type} (l : list A) (z : Z) (x : A) :
  at_index l z = Some x -> 0 <= z /\ nth_error l (Z.to_nat z) = Some x.
Proof.
  unfold at_index. destruct (z <? 0) eqn:E; [discriminate |].
  apply Z.ltb_ge in E. auto.
Qed.


Lemma grid_extends_wf (scene : RT_Scene) (udd udd' : RT_Udd) :
  grid_extends scene udd udd' -> Forall voxel_wf udd'.(v).
Proof.
  intros (_ & _ & H). induction H; constructor; auto. destruct H; auto.
Qed.

Lemma grid_extends_refl (scene : RT_Scene) (udd : RT_Udd) :
  Forall voxel_wf udd.(v) -> grid_extends scene udd udd.
Proof.
  intros H. split; [reflexivity |]. split; [reflexivity |].
  apply Forall2_refl_on. eapply Forall_impl; [| exact H].
  intros vox. apply voxel_extends_refl.
Qed.

Lemma grid_extends_trans (scene : RT_Scene) (a b c : RT_Udd) :
  grid_extends scene a b -> grid_extends scene b c -> grid_extends scene a c.
Proof.
  intros (S1 & N1 & F1) (S2 & N2 & F2). split; [congruence |]. split; [congruence |].
  eapply Forall2_trans_on; eauto. apply voxel_extends_trans.
Qed.

Lemma add_to_voxel_extends (alloc : nat -> bool) (scene : RT_Scene)
  (st st' : RT_Udd * nat) (off : Z) (tp : tri_ptr) :
  Forall voxel_wf (fst st).(v) ->
  (tp < length scene.(scene_t))%nat -> Z.of_nat tp < scene.(nt) ->
  add_to_voxel alloc st off tp = Some st' ->
  grid_extends scene (fst st) (fst st').
Proof.
  intros Hwf Htp Hnt. unfold add_to_voxel. destruct st as [udd n]. cbn [fst] in *.
  destruct (at_index _ _) as [vox|] eqn:Ea; [| discriminate].
  destruct (rtVoxelAddTriangle _ _ _ _) as [[r vox']|] eqn:Er; [| discriminate].
  intros H. inversion H; subst. clear H. cbn [fst snd].
  split; [reflexivity |]. split; [reflexivity |]. cbn [v].
  apply at_index_nth in Ea. destruct Ea as [_ Ea].
  assert (Hvox : voxel_wf vox).
  { rewrite Forall_forall in Hwf. apply Hwf. eapply nth_error_In; eauto. }
  apply Forall2_set_nth with (x := vox).
  - eapply Forall_impl; [| exact Hwf]. intros z. apply voxel_extends_refl.
  - exact Ea.
  - assert (Hbuf : 0 < BUFSIZE <= INT32_MAX) by (unfold BUFSIZE, INT32_MAX; lia).
    destruct (rtVoxelAddTriangle_defined _ _ _ _ _ _ Hvox Hbuf Er)
      as [W [(_ & -> & _) | (_ & _ & _ & Hc & _)]].
    + apply voxel_extends_refl; exact W.
    + split; [exact W |]. exists [tp]. split; [exact Hc |]. constructor; auto.
Qed.

Lemma fold_option_none {A B : Type} (f : B -> A -> option B) (l : list A) :
  fold_left (fun acc x => do st0 <- acc; f st0 x) l None = None.
Proof. induction l; simpl; auto. Qed.

Lemma fold_extends {A : Type} (scene : RT_Scene)
  (f : RT_Udd * nat -> A -> option (RT_Udd * nat)) (l : list A) (P : A -> Prop) :
  (forall st x st', P x -> Forall voxel_wf (fst st).(v) -> f st x = Some st' ->
                    grid_extends scene (fst st) (fst st')) ->
  Forall P l ->
  forall st st',
  Forall voxel_wf (fst st).(v) ->
  fold_left (fun acc x => do st0 <- acc; f st0 x) l (Some st) = Some st' ->
  grid_extends scene (fst st) (fst st').
Proof.
  intros Hf HP. induction HP as [|x l Hx HP IH]; intros st st' Hwf H; simpl in H.
  - inversion H; subst. apply grid_extends_refl; exact Hwf.
  - destruct (f st x) as [st1|] eqn:E.
    + pose proof (Hf _ _ _ Hx Hwf E) as H1.
      eapply grid_extends_trans; [exact H1 |].
      apply IH; [eapply grid_extends_wf; exact H1 | exact H].
    + rewrite fold_option_none in H. discriminate.
Qed.

Lemma voxelize_triangle_extends (alloc : nat -> bool) (scene : RT_Scene)
  (st st' : RT_Udd * nat) (tp : tri_ptr) :
  Z.of_nat tp < scene.(nt) ->
  Forall voxel_wf (fst st).(v) ->
  voxelize_triangle alloc scene st tp = Some st' ->
  grid_extends scene (fst st) (fst st').
Proof.
  intros Hnt Hwf. unfold voxelize_triangle.
  destruct (nth_error _ _) as [t|] eqn:Et; [| discriminate].
  assert (Htp : (tp < length scene.(scene_t))%nat).
  { apply nth_error_Some. congruence. }
  destruct (index_box _ _ _) as [[mn mx]|]; [| discriminate].
  destruct (_ && _).
  - apply add_to_voxel_extends; assumption.
  - apply (fold_extends scene (fun st0 ijk => let '(i, j, k) := ijk in
             if voxel_skipped scene (fst st) t i j k then Some st0
             else add_to_voxel alloc st0 (rtVoxelArrayOffset (fst st) i j k) tp)
             (candidate_box mn mx) (fun _ => True)).
    + intros st0 [[i j] k] st1 _ Hwf0. destruct (voxel_skipped _ _ _ _ _ _).
      * intros H; inversion H; subst. apply grid_extends_refl; exact Hwf0.
      * apply add_to_voxel_extends; assumption.
    + apply Forall_forall. auto.
    + exact Hwf.
Qed.

Lemma rtUddVoxelize_extends (malloc_tmp : bool) (alloc : nat -> bool)
  (udd udd' : RT_Udd) (scene : RT_Scene) :
  Forall voxel_wf udd.(v) ->
  rtUddVoxelize malloc_tmp alloc udd scene = Some udd' ->
  grid_extends scene udd udd'.
Proof.
  intros Hwf. unfold rtUddVoxelize. destruct (negb malloc_tmp).
  - intros H; inversion H; subst. apply grid_extends_refl; exact Hwf.
  - destruct (fold_left _ _ _) as [st|] eqn:E; [| discriminate].
    intros H; inversion H; subst. clear H.
    apply (fold_extends scene (voxelize_triangle alloc scene)
             (seq 0 (Z.to_nat scene.(nt))) (fun tp => Z.of_nat tp < scene.(nt))) in E;
      [exact E | | | exact Hwf].
    + intros st0 tp st1 Htp Hwf0. apply voxelize_triangle_extends; assumption.
    + apply Forall_forall. intros tp Hin. apply in_seq in Hin. lia.
Qed.

(** Voxelization only ever appends: whatever the allocator does, a voxel of
    the grid keeps the triangles it held, in their order, followed by
    pointers to triangles of the scene, and stays well formed. *)
Theorem rtUddVoxelize_only_appends (malloc_tmp : bool) (alloc : nat -> bool)
  (udd udd' : RT_Udd) (scene : RT_Scene) :
  Forall voxel_wf udd.(v) ->
  rtUddVoxelize malloc_tmp alloc udd scene = Some udd' ->
  forall (off : Z) (vox : RT_Voxel),
    at_index udd.(v) off = Some vox ->
    exists vox',
      at_index udd'.(v) off = Some vox'
      /\ voxel_wf vox'
      /\ exists added : list tri_ptr,
           voxel_cells vox' = voxel_cells vox ++ map Some added
           /\ Forall (fun tp => (tp < length scene.(scene_t))%nat
                                /\ Z.of_nat tp < scene.(nt)) added.
Proof.
  intros Hwf H off vox Ea.
  destruct (rtUddVoxelize_extends _ _ _ _ _ Hwf H) as (_ & _ & F).
  unfold at_index in *. destruct (off <? 0); [discriminate |].
  revert Ea. generalize (Z.to_nat off). clear -F.
  induction F as [|a b l l' Hab F IH]; intros [|n] E; simpl in *; try discriminate.
  - inversion E; subst. exists b. split; [reflexivity |]. exact Hab.
  - apply IH; exact E.
Qed.

Lemma voxel_read_wf (vox : RT_Voxel) :
  voxel_wf vox -> 0 < vox.(vnt) -> voxel_read vox = Some (voxel_cells vox).
Proof.
  intros (Hn & Hp & _ & Hc) Hpos. unfold voxel_read, voxel_cells.
  destruct (vt vox) as [cells|]; [| lia].
  destruct (Z.of_nat (length cells) <? vnt vox) eqn:E; [apply Z.ltb_lt in E; lia |].
  reflexivity.
Qed.

Lemma voxel_ok_cells (scene : RT_Scene) (vox : RT_Voxel) :
  voxel_wf vox ->
  (voxel_ok scene vox = true <-> forallb (cell_ok scene) (voxel_cells vox) = true).
Proof.
  intros Hwf. unfold voxel_ok.
  destruct (vnt vox <=? 0) eqn:E.
  - apply Z.leb_le in E. simpl. unfold voxel_cells.
    replace (Z.to_nat (vnt vox)) with 0%nat by lia.
    destruct (vt vox); simpl; tauto.
  - apply Z.leb_gt in E. simpl. rewrite voxel_read_wf by assumption. tauto.
Qed.

Lemma grid_extends_ok (scene : RT_Scene) (udd udd' : RT_Udd) :
  grid_ok scene udd = true ->
  Forall voxel_wf udd.(v) ->
  grid_extends scene udd udd' ->
  grid_ok scene udd' = true.
Proof.
  intros Hok Hwf (Es & En & F).
  unfold grid_ok in *. rewrite En.
  apply andb_true_iff in Hok. destruct Hok as [Hdims Hvox].
  apply andb_true_iff. split.
  - rewrite <- (Forall2_length F). exact Hdims.
  - clear Hdims. rewrite forallb_forall in Hvox. apply forallb_forall.
    intros vox' Hin.
    assert (Hex : exists vox, In vox udd.(v) /\ voxel_extends scene vox vox').
    { clear -F Hin. induction F as [|a b l l' Hab F IH]; [destruct Hin |].
      destruct Hin as [<- | Hin].
      - exists a. split; [left; reflexivity | exact Hab].
      - destruct (IH Hin) as (x & Hx & Hr). exists x. split; [right; exact Hx | exact Hr]. }
    destruct Hex as (vox & Hvin & W & added & Ec & Fa).
    apply voxel_ok_cells; [exact W |]. rewrite Ec, forallb_app.
    apply andb_true_iff. split.
    + apply voxel_ok_cells; [| apply Hvox; exact Hvin].
      rewrite Forall_forall in Hwf. apply Hwf; exact Hvin.
    + clear -Fa. induction Fa as [|tp l [Htp _] Fa IH]; simpl; [reflexivity |].
      rewrite IH, andb_true_r. apply Nat.ltb_lt. exact Htp.
Qed.

(** A well-formed grid whose voxels hold valid pointers is still one after
    voxelization, whatever the allocator does: the grid the voxelizer
    leaves meets what the traverser needs to run. *)
Theorem rtUddVoxelize_keeps_grid_ok (malloc_tmp : bool) (alloc : nat -> bool)
  (udd udd' : RT_Udd) (scene : RT_Scene) :
  grid_ok scene udd = true ->
  Forall voxel_wf udd.(v) ->
  rtUddVoxelize malloc_tmp alloc udd scene = Some udd' ->
  grid_ok scene udd' = true /\ Forall voxel_wf udd'.(v).
Proof.
  intros Hok Hwf H.
  pose proof (rtUddVoxelize_extends _ _ _ _ _ Hwf H) as Hext.
  split; [eapply grid_extends_ok; eauto | eapply grid_extends_wf; exact Hext].
Qed.

End VoxelizeFacts.

(** ** What voxelization stores *)

Section ContentsFacts.
Context {FO : FloatOps}.

Lemma nth_error_set_nth_same {A : Type} (l : list A) (n : nat) (a : A) :
  (n < length l)%nat -> nth_error (set_nth l n a) n = Some a.
Proof.
  revert n. induction l as [|x l IH]; intros [|n] H; simpl in *; try lia; auto.
  apply IH. lia.
Qed.

Lemma nth_error_set_nth_other {A : Type} (l : list A) (n m : nat) (a : A) :
  n <> m -> nth_error (set_nth l n a) m = nth_error l m.
Proof.
  revert n m. induction l as [|x l IH]; intros [|n] [|m] H; simpl; auto; try lia.
Qed.

Lemma index_box_shape (scene : RT_Scene) (udd udd' : RT_Udd) (t : RT_Triangle) :
  udd'.(s) = udd.(s) -> index_box scene udd' t = index_box scene udd t.
Proof. intros E. unfold index_box, vertex_index. rewrite E. reflexivity. Qed.

Lemma voxel_skipped_shape (scene : RT_Scene) (udd udd' : RT_Udd) (t : RT_Triangle) (i j k : Z) :
  udd'.(s) = udd.(s) -> voxel_skipped scene udd' t i j k = voxel_skipped scene udd t i j k.
Proof. intros E. unfold voxel_skipped, voxel_hi, voxel_lo. rewrite E. reflexivity. Qed.

Lemma rtVoxelArrayOffset_shape (udd udd' : RT_Udd) (i j k : Z) :
  udd'.(nv) = udd.(nv) -> rtVoxelArrayOffset udd' i j k = rtVoxelArrayOffset udd i j k.
Proof. intros E. unfold rtVoxelArrayOffset. rewrite E. reflexivity. Qed.

(** One insertion with a succeeding allocator: the target voxel gains the
    pointer, the others are untouched. *)
Lemma add_to_voxel_cells (st st' : RT_Udd * nat) (off off0 : Z) (tp : tri_ptr) :
  Forall voxel_wf (fst st).(v) ->
  add_to_voxel (fun _ => true) st off tp = Some st' ->
  grid_cells (fst st') off0
  = grid_cells (fst st) off0 ++ (if off =? off0 then [Some tp] else []).
Proof.
  intros Hwf. unfold add_to_voxel. destruct st as [udd n]. cbn [fst] in *.
  destruct (at_index _ _) as [vox|] eqn:Ea; [| discriminate].
  destruct (rtVoxelAddTriangle _ _ _ _) as [[r vox']|] eqn:Er; [| discriminate].
  intros H. inversion H; subst. clear H. cbn [fst snd].
  pose proof (at_index_nth _ _ _ Ea) as [Hoff En].
  assert (Hvox : voxel_wf vox).
  { rewrite Forall_forall in Hwf. apply Hwf. eapply nth_error_In; eauto. }
  assert (Hbuf : 0 < BUFSIZE <= INT32_MAX) by (unfold BUFSIZE, INT32_MAX; lia).
  destruct (rtVoxelAddTriangle_defined _ _ _ _ _ _ Hvox Hbuf Er)
    as [W [(_ & _ & _ & Hno) | (_ & _ & _ & Hc & _)]]; [discriminate |].
  unfold grid_cells, at_index. cbn [v].
  destruct (off0 <? 0) eqn:E0.
  - apply Z.ltb_lt in E0. destruct (off =? off0) eqn:E; [apply Z.eqb_eq in E; lia |].
    reflexivity.
  - apply Z.ltb_ge in E0. destruct (off =? off0) eqn:E.
    + apply Z.eqb_eq in E. subst off0.
      rewrite nth_error_set_nth_same by (apply nth_error_Some; congruence).
      rewrite En. exact Hc.
    + apply Z.eqb_neq in E. rewrite nth_error_set_nth_other by lia.
      rewrite app_nil_r. reflexivity.
Qed.

Lemma add_to_voxel_keeps (scene : RT_Scene) (st st' : RT_Udd * nat) (off : Z) (tp : tri_ptr) :
  Forall voxel_wf (fst st).(v) ->
  add_to_voxel (fun _ => true) st off tp = Some st' ->
  Forall voxel_wf (fst st').(v) /\ (fst st').(s) = (fst st).(s) /\ (fst st').(nv) = (fst st).(nv).
Proof.
  intros Hwf. unfold add_to_voxel. destruct st as [udd n]. cbn [fst] in *.
  destruct (at_index _ _) as [vox|] eqn:Ea; [| discriminate].
  destruct (rtVoxelAddTriangle _ _ _ _) as [[r vox']|] eqn:Er; [| discriminate].
  intros H. inversion H; subst. clear H. cbn [fst snd s nv v].
  split; [| split; reflexivity].
  pose proof (at_index_nth _ _ _ Ea) as [Hoff En].
  assert (Hvox : voxel_wf vox).
  { rewrite Forall_forall in Hwf. apply Hwf. eapply nth_error_In; eauto. }
  assert (Hbuf : 0 < BUFSIZE <= INT32_MAX) by (unfold BUFSIZE, INT32_MAX; lia).
  destruct (rtVoxelAddTriangle_defined _ _ _ _ _ _ Hvox Hbuf Er) as [W _].
  clear -Hwf W. revert Hwf. generalize (Z.to_nat off). generalize (v udd).
  induction l as [|x l IH]; intros [|n] H; simpl; auto; inversion H; subst; constructor; auto.
Qed.

(** The loop over the candidate voxels of one triangle. *)
Lemma box_loop_cells (scene : RT_Scene) (udd : RT_Udd) (t : RT_Triangle) (tp : tri_ptr)
  (off0 : Z) (L : list (Z * Z * Z)) :
  forall st st' : RT_Udd * nat,
  Forall voxel_wf (fst st).(v) ->
  fold_left (fun acc ijk =>
      do st0 <- acc;
      let '(i, j, k) := ijk in
      if voxel_skipped scene udd t i j k then Some st0
      else add_to_voxel (fun _ => true) st0 (rtVoxelArrayOffset udd i j k) tp)
    L (Some st) = Some st' ->
  (Forall voxel_wf (fst st').(v) /\ (fst st').(s) = (fst st).(s)
   /\ (fst st').(nv) = (fst st).(nv))
  /\ grid_cells (fst st') off0
     = grid_cells (fst st) off0
       ++ map (fun _ => Some tp)
            (filter (fun ijk => let '(i, j, k) := ijk in
                       (rtVoxelArrayOffset udd i j k =? off0)
                       && negb (voxel_skipped scene udd t i j k)) L).
Proof.
  induction L as [|[[i j] k] L IH]; intros st st' Hwf H; simpl in H.
  - inversion H; subst. simpl. rewrite app_nil_r. auto.
  - cbn [filter].
    destruct (voxel_skipped scene udd t i j k) eqn:Es.
    + rewrite andb_false_r. apply IH; assumption.
    + rewrite andb_true_r.
      destruct (add_to_voxel _ st _ tp) as [st1|] eqn:E1;
        [| rewrite fold_option_none in H; discriminate].
      destruct (add_to_voxel_keeps scene _ _ _ _ Hwf E1) as (W1 & S1 & N1).
      destruct (IH st1 st' W1 H) as ((W & S' & N') & Hc).
      split; [split; [exact W | split; congruence] |].
      rewrite Hc, (add_to_voxel_cells _ _ _ off0 _ Hwf E1), <- app_assoc. f_equal.
      destruct (_ =? off0); reflexivity.
Qed.

Lemma zrange_cons (lo hi : Z) :
  lo <= hi -> zrange lo hi = lo :: zrange (lo + 1) hi.
Proof.
  intros H. unfold zrange.
  replace (Z.to_nat (hi - lo + 1)) with (S (Z.to_nat (hi - (lo + 1) + 1))) by lia.
  cbn [seq map]. f_equal; [lia |].
  rewrite <- seq_shift, map_map. apply map_ext. intros n. lia.
Qed.

Lemma zrange_nil (lo hi : Z) : hi < lo -> zrange lo hi = [].
Proof.
  intros H. unfold zrange. replace (Z.to_nat (hi - lo + 1)) with 0%nat by lia. reflexivity.
Qed.

Lemma flat_map_zrange_one {B : Type} (f : Z -> list B) (x0 : Z) :
  forall (n : nat) (lo hi : Z),
  Z.to_nat (hi - lo + 1) = n ->
  (forall x, x <> x0 -> f x = []) ->
  flat_map f (zrange lo hi) = if (lo <=? x0) && (x0 <=? hi) then f x0 else [].
Proof.
  induction n as [|n IH]; intros lo hi Hn Hf.
  - rewrite zrange_nil by lia.
    destruct (lo <=? x0) eqn:E1, (x0 <=? hi) eqn:E2; simpl; try reflexivity.
    apply Z.leb_le in E1, E2. lia.
  - rewrite zrange_cons by lia. cbn [flat_map].
    rewrite (IH (lo + 1) hi) by (auto; lia).
    destruct (Z.eq_dec lo x0) as [<- | Hne].
    + rewrite Z.leb_refl.
      destruct (lo + 1 <=? lo) eqn:E; [apply Z.leb_le in E; lia |].
      destruct (lo <=? hi) eqn:E2; [| apply Z.leb_gt in E2; lia].
      simpl. apply app_nil_r.
    + rewrite (Hf lo Hne). simpl.
      destruct (lo <=? x0) eqn:E1, (lo + 1 <=? x0) eqn:E2; try reflexivity;
        [apply Z.leb_le in E1; apply Z.leb_gt in E2; lia
        | apply Z.leb_gt in E1; apply Z.leb_le in E2; lia].
Qed.

Lemma filter_flat_map_swap {A B : Type} (p : B -> bool) (f : A -> list B) (l : list A) :
  filter p (flat_map f l) = flat_map (fun x => filter p (f x)) l.
Proof.
  induction l as [|x l IH]; simpl; [reflexivity |].
  rewrite filter_app, IH. reflexivity.
Qed.

Lemma flat_map_singletons {A B : Type} (g : A -> B) (l : list A) :
  flat_map (fun x => [g x]) l = map g l.
Proof. induction l; simpl; congruence. Qed.

(** Among the candidate voxels, the ones equal to [(i0,j0,k0)] and passing
    [q]: at most the voxel itself. *)
Lemma candidate_box_filter (mn mx : vec3 Z) (i0 j0 k0 : Z) (q : Z * Z * Z -> bool) :
  filter (fun ijk => let '(i, j, k) := ijk in
            ((i =? i0) && (j =? j0) && (k =? k0)) && q ijk)
         (candidate_box mn mx)
  = if in_index_box mn mx i0 j0 k0 && q (i0, j0, k0) then [(i0, j0, k0)] else [].
Proof.
  unfold candidate_box, in_index_box. rewrite filter_flat_map_swap.
  replace ((mn.[AX] <=? i0) && (i0 <=? mx.[AX]) && (mn.[AY] <=? j0) && (j0 <=? mx.[AY])
           && (mn.[AZ] <=? k0) && (k0 <=? mx.[AZ]))
    with (((mn.[AX] <=? i0) && (i0 <=? mx.[AX])) && ((mn.[AY] <=? j0) && (j0 <=? mx.[AY]))
          && ((mn.[AZ] <=? k0) && (k0 <=? mx.[AZ])))
    by (rewrite !andb_assoc; reflexivity).
  set (P := fun ijk : Z * Z * Z => let '(i, j, k) := ijk in
            ((i =? i0) && (j =? j0) && (k =? k0)) && q ijk).
  set (bx := (mn.[AX] <=? i0) && (i0 <=? mx.[AX])).
  set (by_ := (mn.[AY] <=? j0) && (j0 <=? mx.[AY])).
  set (bz := (mn.[AZ] <=? k0) && (k0 <=? mx.[AZ])).
  set (q0 := q (i0, j0, k0)).
  assert (Hk : forall i j,
    filter P (map (fun k => (i, j, k)) (zrange mn.[AZ] mx.[AZ]))
    = if (i =? i0) && (j =? j0) && bz && q0 then [(i0, j0, k0)] else []).
  { intros i j. rewrite <- flat_map_singletons, filter_flat_map_swap.
    rewrite (flat_map_zrange_one _ k0 _ _ _ eq_refl).
    - fold bz. unfold P. cbn [filter]. rewrite Z.eqb_refl.
      destruct (i =? i0) eqn:Ei, (j =? j0) eqn:Ej; cbn [andb];
        try (destruct bz; reflexivity).
      apply Z.eqb_eq in Ei, Ej. subst. fold q0.
      destruct bz, q0; reflexivity.
    - intros k Hne. unfold P. cbn [filter].
      destruct (k =? k0) eqn:E; [apply Z.eqb_eq in E; contradiction |].
      rewrite !andb_false_r. reflexivity. }
  assert (Hj : forall i,
    filter P (flat_map (fun j => map (fun k => (i, j, k)) (zrange mn.[AZ] mx.[AZ]))
                       (zrange mn.[AY] mx.[AY]))
    = if (i =? i0) && by_ && bz && q0 then [(i0, j0, k0)] else []).
  { intros i. rewrite filter_flat_map_swap.
    rewrite (flat_map_zrange_one _ j0 _ _ _ eq_refl).
    - fold by_. rewrite Hk, Z.eqb_refl.
      destruct (i =? i0), by_, bz, q0; reflexivity.
    - intros j Hne. rewrite Hk.
      destruct (j =? j0) eqn:E; [apply Z.eqb_eq in E; contradiction |].
      rewrite andb_false_r. reflexivity. }
  rewrite (flat_map_zrange_one _ i0 _ _ _ eq_refl).
  - fold bx. rewrite Hj, Z.eqb_refl.
    destruct bx, by_, bz, q0; reflexivity.
  - intros i Hne. rewrite Hj.
    destruct (i =? i0) eqn:E; [apply Z.eqb_eq in E; contradiction |]. reflexivity.
Qed.

Lemma candidate_box_in (mn mx : vec3 Z) (i j k : Z) :
  In (i, j, k) (candidate_box mn mx) -> in_index_box mn mx i j k = true.
Proof.
  unfold candidate_box, in_index_box, zrange. intros H.
  apply in_flat_map in H. destruct H as (i' & Hi & H).
  apply in_flat_map in H. destruct H as (j' & Hj & H).
  apply in_map_iff in H. destruct H as (k' & E & Hk).
  inversion E; subst.
  apply in_map_iff in Hi, Hj, Hk.
  destruct Hi as (a & <- & Ha), Hj as (b & <- & Hb), Hk as (c & <- & Hc).
  apply in_seq in Ha, Hb, Hc.
  rewrite !andb_true_iff, !Z.leb_le. lia.
Qed.

Lemma offset_eqb (udd : RT_Udd) (i j k i0 j0 k0 : Z) :
  udd.(nv).[AX] * udd.(nv).[AY] * udd.(nv).[AZ] <= INT32_MAX ->
  in_grid udd i j k = true -> in_grid udd i0 j0 k0 = true ->
  (rtVoxelArrayOffset udd i j k =? rtVoxelArrayOffset udd i0 j0 k0)
  = (i =? i0) && (j =? j0) && (k =? k0).
Proof.
  intros Hfit H H0. apply in_grid_spec in H, H0.
  destruct H as (Hi & Hj & Hk), H0 as (Hi0 & Hj0 & Hk0).
  destruct (rtVoxelArrayOffset_exact udd i j k Hfit Hi Hj Hk) as [E _].
  destruct (rtVoxelArrayOffset_exact udd i0 j0 k0 Hfit Hi0 Hj0 Hk0) as [E0 _].
  rewrite E, E0.
  destruct (_ =? _) eqn:Eo.
  - apply Z.eqb_eq in Eo.
    destruct (linear_index_injective _ _ _ _ _ _ _ _ Hj Hk Hj0 Hk0 Eo) as (-> & -> & ->).
    rewrite !Z.eqb_refl. reflexivity.
  - apply Z.eqb_neq in Eo. symmetry. apply not_true_is_false. intros Ht.
    rewrite !andb_true_iff, !Z.eqb_eq in Ht. destruct Ht as [[-> ->] ->]. lia.
Qed.

Lemma in_index_box_grid (udd : RT_Udd) (mn mx : vec3 Z) (i j k : Z) :
  in_grid udd mn.[AX] mn.[AY] mn.[AZ] = true ->
  in_grid udd mx.[AX] mx.[AY] mx.[AZ] = true ->
  in_index_box mn mx i j k = true -> in_grid udd i j k = true.
Proof.
  intros H1 H2 H. apply in_grid_spec in H1, H2. apply in_grid_spec.
  unfold in_index_box in H. rewrite !andb_true_iff, !Z.leb_le in H. lia.
Qed.

(** One iteration of the loop over the triangles, every allocation
    succeeding. *)
Lemma voxelize_triangle_cells (scene : RT_Scene) (udd : RT_Udd)
  (st st' : RT_Udd * nat) (tp : tri_ptr) (i0 j0 k0 : Z) :
  udd.(nv).[AX] * udd.(nv).[AY] * udd.(nv).[AZ] <= INT32_MAX ->
  vertices_in_grid scene udd ->
  in_grid udd i0 j0 k0 = true ->
  Z.of_nat tp < scene.(nt) ->
  Forall voxel_wf (fst st).(v) ->
  (fst st).(s) = udd.(s) -> (fst st).(nv) = udd.(nv) ->
  voxelize_triangle (fun _ => true) scene st tp = Some st' ->
  (Forall voxel_wf (fst st').(v) /\ (fst st').(s) = udd.(s) /\ (fst st').(nv) = udd.(nv))
  /\ grid_cells (fst st') (rtVoxelArrayOffset udd i0 j0 k0)
     = grid_cells (fst st) (rtVoxelArrayOffset udd i0 j0 k0)
       ++ (if stores scene udd i0 j0 k0 tp then [Some tp] else []).
Proof.
  intros Hfit Hvert H0 Htp Hwf Hs Hn. unfold voxelize_triangle, stores.
  destruct (nth_error _ _) as [t|] eqn:Et; [| discriminate].
  rewrite (index_box_shape scene udd (fst st) t Hs).
  destruct (index_box scene udd t) as [[mn mx]|] eqn:Eb; [| discriminate].
  destruct (Hvert tp t mn mx Htp Et Eb) as [Gmn Gmx].
  destruct ((mn.[AX] =? mx.[AX]) && (mn.[AY] =? mx.[AY]) && (mn.[AZ] =? mx.[AZ])) eqn:Esingle.
  - rewrite (rtVoxelArrayOffset_shape udd (fst st) _ _ _ Hn). intros H.
    destruct (add_to_voxel_keeps scene _ _ _ _ Hwf H) as (W & S1 & N1).
    split; [split; [exact W | split; congruence] |].
    rewrite (add_to_voxel_cells _ _ _ (rtVoxelArrayOffset udd i0 j0 k0) _ Hwf H).
    f_equal. rewrite (offset_eqb udd _ _ _ _ _ _ Hfit Gmn H0).
    cbn [orb]. rewrite andb_true_r.
    rewrite !andb_true_iff, !Z.eqb_eq in Esingle. destruct Esingle as [[Ex Ey] Ez].
    unfold in_index_box. rewrite <- Ex, <- Ey, <- Ez.
    destruct (mn.[AX] =? i0) eqn:E1, (mn.[AY] =? j0) eqn:E2, (mn.[AZ] =? k0) eqn:E3;
      cbn [andb];
      repeat match goal with
             | H : (_ =? _) = true |- _ => apply Z.eqb_eq in H
             | H : (_ =? _) = false |- _ => apply Z.eqb_neq in H
             end;
      repeat match goal with
             | |- context [?a <=? ?b] =>
                 let E := fresh "E" in
                 destruct (a <=? b) eqn:E;
                 [apply Z.leb_le in E | apply Z.leb_gt in E]
             end; cbn [andb]; try reflexivity; lia.
  - intros H.
    assert (H' : fold_left (fun acc ijk =>
                   do st0 <- acc;
                   let '(i, j, k) := ijk in
                   if voxel_skipped scene (fst st) t i j k then Some st0
                   else add_to_voxel (fun _ => true) st0
                          (rtVoxelArrayOffset (fst st) i j k) tp)
                 (candidate_box mn mx) (Some st) = Some st') by exact H.
    clear H.
    destruct (box_loop_cells scene (fst st) t tp (rtVoxelArrayOffset udd i0 j0 k0)
                (candidate_box mn mx) st st' Hwf H') as ((W & S1 & N1) & Hc).
    split; [split; [exact W | split; congruence] |].
    rewrite Hc. f_equal. cbn [orb].
    rewrite (filter_ext_in _
               (fun ijk => let '(i, j, k) := ijk in
                  ((i =? i0) && (j =? j0) && (k =? k0))
                  && (fun '(i, j, k) => negb (voxel_skipped scene udd t i j k)) ijk)).
    + rewrite candidate_box_filter.
      destruct (in_index_box mn mx i0 j0 k0 && negb (voxel_skipped scene udd t i0 j0 k0));
        reflexivity.
    + intros [[i j] k] Hin. apply candidate_box_in in Hin.
      pose proof (in_index_box_grid udd mn mx i j k Gmn Gmx Hin) as Hg.
      rewrite (rtVoxelArrayOffset_shape udd (fst st) _ _ _ Hn).
      rewrite (offset_eqb udd _ _ _ _ _ _ Hfit Hg H0).
      rewrite (voxel_skipped_shape scene udd (fst st) t i j k Hs). reflexivity.
Qed.

Lemma triangles_loop_cells (scene : RT_Scene) (udd : RT_Udd) (i0 j0 k0 : Z)
  (l : list tri_ptr) :
  udd.(nv).[AX] * udd.(nv).[AY] * udd.(nv).[AZ] <= INT32_MAX ->
  vertices_in_grid scene udd ->
  in_grid udd i0 j0 k0 = true ->
  Forall (fun tp => Z.of_nat tp < scene.(nt)) l ->
  forall st st' : RT_Udd * nat,
  Forall voxel_wf (fst st).(v) ->
  (fst st).(s) = udd.(s) -> (fst st).(nv) = udd.(nv) ->
  fold_left (fun acc tp => do st0 <- acc; voxelize_triangle (fun _ => true) scene st0 tp)
            l (Some st) = Some st' ->
  grid_cells (fst st') (rtVoxelArrayOffset udd i0 j0 k0)
  = grid_cells (fst st) (rtVoxelArrayOffset udd i0 j0 k0)
    ++ map Some (filter (stores scene udd i0 j0 k0) l).
Proof.
  intros Hfit Hvert H0 Hl.
  induction Hl as [|tp l Htp Hl IH]; intros st st' Hwf Hs Hn H; simpl in H.
  - inversion H; subst. simpl. rewrite app_nil_r. reflexivity.
  - destruct (voxelize_triangle _ scene st tp) as [st1|] eqn:E1;
      [| rewrite fold_option_none in H; discriminate].
    destruct (voxelize_triangle_cells scene udd st st1 tp i0 j0 k0
                Hfit Hvert H0 Htp Hwf Hs Hn E1) as ((W & S1 & N1) & Hc).
    rewrite (IH st1 st' W S1 N1 H), Hc, <- app_assoc. f_equal.
    cbn [filter]. destruct (stores scene udd i0 j0 k0 tp); reflexivity.
Qed.

(** What the voxelizer computes when no allocation fails and every vertex
    falls in a voxel of the grid: a voxel gains, in scene order, exactly the
    triangles whose index box contains it and for which the box is a single
    voxel or the sign test does not skip the voxel. *)
Theorem rtUddVoxelize_contents (udd udd' : RT_Udd) (scene : RT_Scene) (i j k : Z) :
  udd.(nv).[AX] * udd.(nv).[AY] * udd.(nv).[AZ] <= INT32_MAX ->
  Forall voxel_wf udd.(v) ->
  vertices_in_grid scene udd ->
  in_grid udd i j k = true ->
  rtUddVoxelize true (fun _ => true) udd scene = Some udd' ->
  grid_cells udd' (rtVoxelArrayOffset udd i j k)
  = grid_cells udd (rtVoxelArrayOffset udd i j k)
    ++ map Some (filter (stores scene udd i j k) (seq 0 (Z.to_nat scene.(nt)))).
Proof.
  intros Hfit Hwf Hvert Hg. unfold rtUddVoxelize. cbn [negb].
  destruct (fold_left _ _ _) as [st|] eqn:E; [| discriminate].
  intros H. inversion H; subst. clear H.
  apply (triangles_loop_cells scene udd i j k (seq 0 (Z.to_nat scene.(nt)))
           Hfit Hvert Hg) with (st := (udd, O)); auto.
  apply Forall_forall. intros tp Hin. apply in_seq in Hin. lia.
Qed.

End ContentsFacts.

(** ** The two distances the locator keeps *)

Section TwoSmallest.
Context {FO : FloatOps}.
Local Open Scope float_scope.
Hypothesis flt_irrefl : forall a : float, (a <? a) = false.
Hypothesis flt_trans : forall a b c : float, (a <? b) = true -> (b <? c) = true -> (a <? c) = true.
Hypothesis flt_incomparable :
  forall a b c : float, (a <? b) = false -> (b <? c) = false -> (a <? c) = false.

Lemma two_smallest_distances_fold (scene : RT_Scene) (o r : point) :
  two_smallest_distances scene o r
  = fold_left (fun m d => track_two_smallest d m) (wall_distance_list scene o r)
              (FLT_MAX, FLT_MAX).
Proof.
  unfold two_smallest_distances, wall_distance_list, wall_distances.
  cbn [fold_left flat_map].
  destruct (negb (r.[AX] =? flit 0)), (negb (r.[AY] =? flit 0)), (negb (r.[AZ] =? flit 0));
    reflexivity.
Qed.

Lemma fle_of_lt (a b : float) : (a <? b) = true -> fle a b.
Proof.
  intros H. unfold fle. destruct (b <? a) eqn:E; [| reflexivity].
  pose proof (flt_trans _ _ _ H E) as Hc. rewrite flt_irrefl in Hc. discriminate.
Qed.

Lemma fle_trans (a b c : float) : fle a b -> fle b c -> fle a c.
Proof. unfold fle. intros H1 H2. eapply flt_incomparable; eauto. Qed.

Lemma fle_lt_trans (a b c : float) : (a <? b) = true -> fle b c -> fle a c.
Proof.
  unfold fle. intros H1 H2. destruct (c <? a) eqn:E; [| reflexivity].
  rewrite (flt_trans _ _ _ E H1) in H2. discriminate.
Qed.

Lemma track_fold_spec (l : list float) :
  forall (m1 m2 : float) (pool : list float) (m1' m2' : float),
  fle m1 m2 -> Forall (fle m2) pool ->
  fold_left (fun m d => track_two_smallest d m) l (m1, m2) = (m1', m2') ->
  fle m1' m2'
  /\ exists rest,
       Permutation (m1 :: m2 :: pool ++ filter (fun d => flit 0 <? d) l) (m1' :: m2' :: rest)
       /\ Forall (fle m2') rest.
Proof.
  induction l as [|d l IH]; intros m1 m2 pool m1' m2' H12 Hpool H; simpl in H.
  - inversion H; subst. split; [exact H12 |]. exists pool. simpl. rewrite app_nil_r.
    split; [apply Permutation_refl | exact Hpool].
  - cbn [filter]. destruct (flit 0 <? d) eqn:Epos.
    + destruct (d <? m1) eqn:E1.
      * (* new smallest *)
        destruct (IH d m1 (m2 :: pool) m1' m2' (fle_of_lt _ _ E1)) as (Hle & rest & Hperm & Hrest).
        { constructor; [exact H12 |].
          eapply Forall_impl; [| exact Hpool]. intros x Hx. eapply fle_trans; eauto. }
        { exact H. }
        split; [exact Hle |]. exists rest. split; [| exact Hrest].
        eapply Permutation_trans; [| exact Hperm].
        cbn [app].
        apply Permutation_trans with (l' := d :: m1 :: m2 :: pool ++ filter (fun d0 => flit 0 <? d0) l).
        -- apply Permutation_sym.
           apply Permutation_trans with (l' := m1 :: d :: m2 :: pool ++ filter (fun d0 => flit 0 <? d0) l);
             [apply perm_swap |].
           apply perm_skip.
           apply Permutation_trans with (l' := m2 :: d :: pool ++ filter (fun d0 => flit 0 <? d0) l);
             [apply perm_swap |].
           apply perm_skip. apply Permutation_middle.
        -- apply Permutation_refl.
      * destruct (d <? m2) eqn:E2.
        -- (* new second smallest *)
           destruct (IH m1 d (m2 :: pool) m1' m2' E1) as (Hle & rest & Hperm & Hrest).
           { constructor; [apply fle_of_lt; exact E2 |].
             eapply Forall_impl; [| exact Hpool]. intros x Hx.
             eapply fle_lt_trans; eauto. }
           { exact H. }
           split; [exact Hle |]. exists rest. split; [| exact Hrest].
           eapply Permutation_trans; [| exact Hperm].
           cbn [app]. apply perm_skip.
           apply Permutation_sym.
           apply Permutation_trans with (l' := m2 :: d :: pool ++ filter (fun d0 => flit 0 <? d0) l);
             [apply perm_swap |].
           apply perm_skip. apply Permutation_middle.
        -- (* not among the two smallest *)
           destruct (IH m1 m2 (d :: pool) m1' m2' H12) as (Hle & rest & Hperm & Hrest).
           { constructor; [exact E2 | exact Hpool]. }
           { exact H. }
           split; [exact Hle |]. exists rest. split; [| exact Hrest].
           eapply Permutation_trans; [| exact Hperm].
           cbn [app]. apply perm_skip. apply perm_skip.
           apply Permutation_sym. apply Permutation_middle.
    + apply (IH m1 m2 pool m1' m2' H12 Hpool H).
Qed.

(** The pair the locator keeps is the two smallest of the positive wall
    distances, with [FLT_MAX] standing in for a missing one: every other
    positive wall distance is at least the second of the pair. *)
Theorem two_smallest_distances_spec (scene : RT_Scene) (o r : point) (m1 m2 : float) :
  two_smallest_distances scene o r = (m1, m2) ->
  fle m1 m2
  /\ exists rest,
       Permutation
         (FLT_MAX :: FLT_MAX :: filter (fun d => flit 0 <? d) (wall_distance_list scene o r))
         (m1 :: m2 :: rest)
       /\ Forall (fle m2) rest.
Proof.
  rewrite two_smallest_distances_fold. intros H.
  apply (track_fold_spec _ FLT_MAX FLT_MAX [] m1 m2); [apply flt_irrefl | constructor | exact H].
Qed.

End TwoSmallest.

(** ** The walk through the grid *)

Section WalkFacts.
Context {FO : FloatOps}.

Lemma walk_distance_next (udd : RT_Udd) (c : dda) (cur0 cur : cursor) :
  (forall a, udd.(nv).[a] <= INT32_MAX) ->
  (forall a, dda_step c a = 1 \/ dda_step c a = -1) ->
  cursor_in_grid udd cur = true ->
  walk_distance c cur0 (next_voxel c cur) = walk_distance c cur0 cur + 1.
Proof.
  intros Hnv Hunit Hin.
  destruct (next_voxel_moves_one udd c cur Hnv Hunit Hin) as [Hmove Hkeep].
  unfold walk_distance.
  pose proof (Hunit (next_axis c cur)) as Hu.
  destruct (next_axis c cur) eqn:Ea.
  - rewrite Hmove, (Hkeep AY), (Hkeep AZ) by discriminate. nia.
  - rewrite Hmove, (Hkeep AX), (Hkeep AZ) by discriminate. nia.
  - rewrite Hmove, (Hkeep AX), (Hkeep AY) by discriminate. nia.
Qed.

Lemma walk_distance_after (udd : RT_Udd) (c : dda) (cur0 : cursor) (n : nat) :
  (forall a, udd.(nv).[a] <= INT32_MAX) ->
  (forall a, dda_step c a = 1 \/ dda_step c a = -1) ->
  (forall m, (m < n)%nat -> cursor_in_grid udd (cursor_after c cur0 m) = true) ->
  walk_distance c cur0 (cursor_after c cur0 n) = Z.of_nat n.
Proof.
  intros Hnv Hunit. induction n as [|n IH]; intros Hin.
  - unfold walk_distance. cbn. lia.
  - change (cursor_after c cur0 (S n)) with (next_voxel c (cursor_after c cur0 n)).
    rewrite (walk_distance_next udd) by auto.
    rewrite IH by (intros m Hm; apply Hin; lia). lia.
Qed.

(** The walk never comes back.  While it stays in the grid, the voxel at
    the head of the [n]-th iteration is exactly [n] unit steps away from the
    entry voxel, all taken in the directions [di], [dj], [dk] fixed before the
    loop; so no voxel is visited twice. *)
Theorem rtUddTraverse_never_revisits (udd : RT_Udd) (scene : RT_Scene) (o r : point)
  (i j k : Z) (n : nat) :
  (forall a, udd.(nv).[a] <= INT32_MAX) ->
  let c := fst (dda_init udd scene o r i j k) in
  let cur0 := snd (dda_init udd scene o r i j k) in
  (forall m, (m < n)%nat -> cursor_in_grid udd (cursor_after c cur0 m) = true) ->
  walk_distance c cur0 (cursor_after c cur0 n) = Z.of_nat n
  /\ forall m, (m < n)%nat ->
       exists a, cursor_index (cursor_after c cur0 m) a <> cursor_index (cursor_after c cur0 n) a.
Proof.
  intros Hnv c cur0 Hin.
  assert (Hunit : forall a, dda_step c a = 1 \/ dda_step c a = -1)
    by (intros a; apply dda_init_unit_steps).
  pose proof (walk_distance_after udd c cur0 n Hnv Hunit Hin) as Hn.
  split; [exact Hn |]. intros m Hm.
  assert (Hm' : walk_distance c cur0 (cursor_after c cur0 m) = Z.of_nat m)
    by (apply (walk_distance_after udd); auto; intros m' Hlt; apply Hin; lia).
  destruct (Z.eq_dec (cursor_index (cursor_after c cur0 m) AX)
                     (cursor_index (cursor_after c cur0 n) AX)) as [Ex | Nx];
    [| exists AX; exact Nx].
  destruct (Z.eq_dec (cursor_index (cursor_after c cur0 m) AY)
                     (cursor_index (cursor_after c cur0 n) AY)) as [Ey | Ny];
    [| exists AY; exact Ny].
  destruct (Z.eq_dec (cursor_index (cursor_after c cur0 m) AZ)
                     (cursor_index (cursor_after c cur0 n) AZ)) as [Ez | Nz];
    [| exists AZ; exact Nz].
  exfalso. unfold walk_distance in Hn, Hm'. rewrite Ex, Ey, Ez in Hm'. lia.
Qed.

(** How [rtUddCreate] fails.  It returns NULL exactly when one of its two
    allocations fails; a failure of the first leaves the scene untouched,
    whereas after the first has succeeded the scene keeps the enlarged
    bounds, also when the second fails and NULL is returned. *)
Theorem rtUddCreate_failure (c_pow : float -> float -> float) (malloc_res malloc_v : bool)
  (scene scene' : RT_Scene) (res : option RT_Udd) :
  rtUddCreate c_pow malloc_res malloc_v scene = Some (scene', res) ->
  (res = None <-> malloc_res = false \/ malloc_v = false)
  /\ (malloc_res = false -> scene' = scene)
  /\ (malloc_res = true -> scene' = inflate scene).
Proof.
  unfold rtUddCreate. destruct malloc_res; cbn [negb].
  - cbv zeta.
    destruct (int_of_float _) as [nx|]; [| discriminate].
    destruct (int_of_float _) as [ny|]; [| discriminate].
    destruct (int_of_float _) as [nz|]; [| discriminate].
    destruct (int_of_float _) as [count|]; [| discriminate].
    destruct (count <? 0); [discriminate |].
    destruct malloc_v; intros H; inversion H; subst.
    + split; [| split; [discriminate | reflexivity]].
      split; [discriminate | intros [E | E]; discriminate].
    + split; [| split; [discriminate | reflexivity]].
      split; [right; reflexivity | reflexivity].
  - intros H. inversion H; subst.
    split; [| split; [reflexivity | discriminate]].
    split; [left; reflexivity | reflexivity].
Qed.

End WalkFacts.

(** ** Exact arithmetic: the state of the walk *)

Lemma fadd_Q (a b : Q) : (@fadd ExactQ a b == a + b)%Q.
Proof. apply Qred_correct. Qed.

Lemma fsub_Q (a b : Q) : (@fsub ExactQ a b == a - b)%Q.
Proof. apply Qred_correct. Qed.

Lemma fmul_Q (a b : Q) : (@fmul ExactQ a b == a * b)%Q.
Proof. apply Qred_correct. Qed.

Lemma fdiv_Q (a b : Q) : (@fdiv ExactQ a b == a / b)%Q.
Proof. apply Qred_correct. Qed.

Lemma flit_Q (q : Q) : (@flit ExactQ q == q)%Q.
Proof. apply Qred_correct. Qed.

Lemma Qltb_ge (a b : Q) : Qltb a b = false <-> (b <= a)%Q.
Proof.
  unfold Qltb, Qle. rewrite Z.ltb_ge. reflexivity.
Qed.















Lemma raypoint_exact (o r : @point ExactQ) (t : Q) (a : axis) :
  ((rtVectorRaypoint o r t).[a] == o.[a] + r.[a] * t)%Q.
Proof.
  destruct a; unfold rtVectorRaypoint; cbn [vget cx cy cz];
    rewrite fadd_Q, fmul_Q; reflexivity.
Qed.



(** ** Exact arithmetic: points and voxels *)

Lemma Qtrunc_nonneg (q : Q) :
  (0 <= q)%Q -> (inject_Z (Qtrunc q) <= q /\ q < inject_Z (Qtrunc q) + 1)%Q /\ 0 <= Qtrunc q.
Proof.
  intros H. unfold Qtrunc. destruct q as [n d].
  assert (Hn : 0 <= n).
  { unfold Qle in H. simpl in H. lia. }
  cbn [Qnum Qden]. rewrite Z.quot_div_nonneg by (auto; lia).
  change (n / Z.pos d) with (Qfloor (n # d)).
  split; [split; [apply Qfloor_le |] |].
  - pose proof (Qlt_floor (n # d)) as Hf. rewrite inject_Z_plus in Hf. exact Hf.
  - simpl. apply Z.div_pos; lia.
Qed.

Lemma Qtrunc_opp (q : Q) : Qtrunc (- q) = - Qtrunc q.
Proof. unfold Qtrunc. simpl. apply Z.quot_opp_l. lia. Qed.

Lemma Qtrunc_nonpos (q : Q) :
  (q <= 0)%Q -> (q <= inject_Z (Qtrunc q) /\ inject_Z (Qtrunc q) - 1 < q)%Q /\ Qtrunc q <= 0.
Proof.
  intros H.
  destruct (Qtrunc_nonneg (- q) ltac:(lra)) as [[A B] C].
  rewrite Qtrunc_opp in A, B, C. rewrite inject_Z_opp in A, B.
  split; [split; lra | lia].
Qed.

(** The conversion to [int32_t] of a quotient lands in [0, n) exactly when
    the quotient is in the open interval from -1 to [n]. *)
Lemma Q_to_int32_in_range (q : Q) (n : Z) :
  1 <= n <= INT32_MAX ->
  ((exists z, Q_to_int32 q = Some z /\ 0 <= z < n) <-> (- (1) < q /\ q < inject_Z n)%Q).
Proof.
  intros Hn. unfold Q_to_int32. cbv zeta. split.
  - intros (z & E & Hz).
    destruct (in_int32 (Qtrunc q)); [| discriminate]. inversion E; subst z. clear E.
    destruct (Qlt_le_dec q 0) as [Hneg | Hpos].
    + destruct (Qtrunc_nonpos q ltac:(lra)) as [[A B] C].
      assert (E0 : Qtrunc q = 0) by lia. rewrite E0 in B.
      change (inject_Z 0) with 0%Q in B.
      assert (Hn' : (0 < inject_Z n)%Q) by (rewrite <- (Zlt_Qlt 0); lia).
      split; lra.
    + destruct (Qtrunc_nonneg q Hpos) as [[A B] C].
      split; [lra |].
      assert (Hle : (inject_Z (Qtrunc q + 1) <= inject_Z n)%Q)
        by (rewrite <- Zle_Qle; lia).
      rewrite inject_Z_plus in Hle. change (inject_Z 1) with 1%Q in Hle.
      lra.
  - intros [Hlo Hhi].
    assert (Hz : 0 <= Qtrunc q < n).
    { destruct (Qlt_le_dec q 0) as [Hneg | Hpos].
      - destruct (Qtrunc_nonpos q ltac:(lra)) as [[A B] C].
        assert (Hgt : (inject_Z (-1) < inject_Z (Qtrunc q))%Q)
          by (change (inject_Z (-1)) with (- (1))%Q; lra).
        rewrite <- Zlt_Qlt in Hgt. lia.
      - destruct (Qtrunc_nonneg q Hpos) as [[A B] C].
        assert (Hlt : (inject_Z (Qtrunc q) < inject_Z n)%Q) by lra.
        rewrite <- Zlt_Qlt in Hlt. lia. }
    exists (Qtrunc q). split; [| exact Hz].
    unfold in_int32, INT32_MIN, INT32_MAX in *.
    destruct (-2147483648 <=? Qtrunc q) eqn:E1; [| apply Z.leb_gt in E1; lia].
    destruct (Qtrunc q <=? 2147483647) eqn:E2; [| apply Z.leb_gt in E2; lia].
    reflexivity.
Qed.

Lemma int_of_float_Q (q : Q) (z : Z) : @int_of_float ExactQ q = Some z -> z = Qtrunc q.
Proof.
  change (@int_of_float ExactQ q) with (Q_to_int32 q). unfold Q_to_int32.
  destruct (in_int32 (Qtrunc q)); congruence.
Qed.

Lemma vertex_quotient_range (p lo sz : Q) (n : Z) :
  (0 < sz)%Q ->
  let q := @fdiv ExactQ (@fsub ExactQ p lo) sz in
  ((- (1) < q /\ q < inject_Z n) <-> (lo - sz < p /\ p < lo + inject_Z n * sz))%Q.
Proof.
  intros Hs q.
  assert (Hq : (q * sz == p - lo)%Q).
  { unfold q. rewrite fdiv_Q, fsub_Q. field. lra. }
  rewrite <- (Qmult_lt_r (- (1)) q sz Hs).
  rewrite <- (Qmult_lt_r q (inject_Z n) sz Hs).
  rewrite Hq. split; intros [A B]; split; lra.
Qed.

Lemma voxel_lo_Q (scene : @RT_Scene ExactQ) (udd : @RT_Udd ExactQ) (a : axis) (i : Z) :
  (voxel_lo scene udd a i == (dmin scene).[a] + inject_Z i * (s udd).[a])%Q.
Proof. unfold voxel_lo. rewrite fadd_Q, fmul_Q. reflexivity. Qed.

Lemma voxel_hi_Q (scene : @RT_Scene ExactQ) (udd : @RT_Udd ExactQ) (a : axis) (i : Z) :
  (voxel_hi scene udd a i == (dmin scene).[a] + inject_Z i * (s udd).[a] + (s udd).[a])%Q.
Proof. unfold voxel_hi. rewrite fadd_Q, voxel_lo_Q. reflexivity. Qed.

Lemma rtVertexGetVoxel_axes (scene : @RT_Scene ExactQ) (udd : @RT_Udd ExactQ)
  (p : @point ExactQ) (b : bool) (i j k : Z) :
  rtVertexGetVoxel scene udd p = Some (b, (i, j, k)) <->
  (forall a, vertex_index scene udd p a = Some (V3 i j k).[a]) /\ b = in_grid udd i j k.
Proof.
  unfold rtVertexGetVoxel, vertex_index. split.
  - destruct (int_of_float ((p.[AX] - _) / _)%F) as [i'|] eqn:Ex; [| discriminate].
    destruct (int_of_float ((p.[AY] - _) / _)%F) as [j'|] eqn:Ey; [| discriminate].
    destruct (int_of_float ((p.[AZ] - _) / _)%F) as [k'|] eqn:Ez; [| discriminate].
    intros H. inversion H; subst. split; [| reflexivity].
    intros a; destruct a; assumption.
  - intros [H ->].
    pose proof (H AX) as Hx. pose proof (H AY) as Hy. pose proof (H AZ) as Hz.
    change ((V3 i j k).[AX]) with i in Hx. change ((V3 i j k).[AY]) with j in Hy.
    change ((V3 i j k).[AZ]) with k in Hz. rewrite Hx, Hy, Hz. reflexivity.
Qed.

Lemma vertex_index_in_range (scene : @RT_Scene ExactQ) (udd : @RT_Udd ExactQ)
  (p : @point ExactQ) (a : axis) (n : Z) :
  (0 < (s udd).[a])%Q -> 1 <= n <= INT32_MAX ->
  ((exists z, vertex_index scene udd p a = Some z /\ 0 <= z < n)
   <-> ((dmin scene).[a] - (s udd).[a] < p.[a]
        /\ p.[a] < (dmin scene).[a] + inject_Z n * (s udd).[a])%Q).
Proof.
  intros Hs Hn.
  rewrite <- (vertex_quotient_range p.[a] (dmin scene).[a] (s udd).[a] n Hs).
  apply (Q_to_int32_in_range _ _ Hn).
Qed.

Lemma vertex_index_locates (scene : @RT_Scene ExactQ) (udd : @RT_Udd ExactQ)
  (p : @point ExactQ) (a : axis) (z : Z) :
  vertex_index scene udd p a = Some z ->
  (0 < (s udd).[a])%Q -> ((dmin scene).[a] <= p.[a])%Q ->
  (voxel_lo scene udd a z <= p.[a] /\ p.[a] < voxel_hi scene udd a z)%Q.
Proof.
  intros Hidx Hs Hp. unfold vertex_index in Hidx.
  apply int_of_float_Q in Hidx.
  set (q := @fdiv ExactQ (@fsub ExactQ p.[a] (dmin scene).[a]) (s udd).[a]) in *.
  assert (Hq : (q * (s udd).[a] == p.[a] - (dmin scene).[a])%Q).
  { unfold q. rewrite fdiv_Q, fsub_Q. field. lra. }
  assert (Hq0 : (0 <= q)%Q).
  { apply (Qmult_le_r 0 q _ Hs). rewrite Hq. lra. }
  destruct (Qtrunc_nonneg q Hq0) as [[A B] _].
  rewrite voxel_lo_Q, voxel_hi_Q, Hidx.
  apply (Qmult_le_r _ _ _ Hs) in A. apply (Qmult_lt_r _ _ _ Hs) in B.
  rewrite Hq in A, B. split; lra.
Qed.

(** Which points [rtVertexGetVoxel] accepts, in exact arithmetic: those
    less than one voxel below [dmin] and below [dmin + nv s] on every axis.
    The conversion to [int32_t] truncates toward zero, so the grid is
    entered one voxel early on the low side. *)
Theorem rtVertexGetVoxel_accepts_iff (scene : @RT_Scene ExactQ) (udd : @RT_Udd ExactQ)
  (p : @point ExactQ) :
  (forall a, (0 < (s udd).[a])%Q /\ 1 <= (nv udd).[a] <= INT32_MAX) ->
  ((exists i j k, rtVertexGetVoxel scene udd p = Some (true, (i, j, k)))
   <-> forall a, ((dmin scene).[a] - (s udd).[a] < p.[a]
                  /\ p.[a] < (dmin scene).[a] + inject_Z (nv udd).[a] * (s udd).[a])%Q).
Proof.
  intros Hgrid.
  assert (Hax : forall a,
    (exists z, vertex_index scene udd p a = Some z /\ 0 <= z < (nv udd).[a])
    <-> ((dmin scene).[a] - (s udd).[a] < p.[a]
         /\ p.[a] < (dmin scene).[a] + inject_Z (nv udd).[a] * (s udd).[a])%Q).
  { intros a. destruct (Hgrid a) as [Hs Hn]. apply vertex_index_in_range; assumption. }
  split.
  - intros (i & j & k & H) a.
    apply rtVertexGetVoxel_axes in H. destruct H as [Hidx Hin].
    symmetry in Hin. apply in_grid_spec in Hin.
    apply Hax. exists (V3 i j k).[a]. split; [apply Hidx |].
    destruct a; cbn [vget cx cy cz] in *; lia.
  - intros H.
    destruct (proj2 (Hax AX) (H AX)) as (i & Ei & Hi).
    destruct (proj2 (Hax AY) (H AY)) as (j & Ej & Hj).
    destruct (proj2 (Hax AZ) (H AZ)) as (k & Ek & Hk).
    exists i, j, k. apply rtVertexGetVoxel_axes. split.
    + intros a; destruct a; assumption.
    + symmetry. apply in_grid_spec. lia.
Qed.

Lemma Qtrunc_unique (q : Q) (z : Z) :
  (inject_Z z <= q /\ q < inject_Z z + 1)%Q -> 0 <= z -> Qtrunc q = z.
Proof.
  intros [A B] Hz.
  assert (Hq : (0 <= q)%Q).
  { assert (H0 : (inject_Z 0 <= inject_Z z)%Q) by (rewrite <- Zle_Qle; exact Hz).
    change (inject_Z 0) with 0%Q in H0. lra. }
  destruct (Qtrunc_nonneg q Hq) as [[A' B'] _].
  assert (H1 : (inject_Z (Qtrunc q) < inject_Z (z + 1))%Q)
    by (rewrite inject_Z_plus; change (inject_Z 1) with 1%Q; lra).
  assert (H2 : (inject_Z z < inject_Z (Qtrunc q + 1))%Q)
    by (rewrite inject_Z_plus; change (inject_Z 1) with 1%Q; lra).
  rewrite <- Zlt_Qlt in H1, H2. lia.
Qed.

Lemma vertex_index_of_box (scene : @RT_Scene ExactQ) (udd : @RT_Udd ExactQ)
  (p : @point ExactQ) (a : axis) (z : Z) :
  (0 < (s udd).[a])%Q -> ((dmin scene).[a] <= p.[a])%Q -> z <= INT32_MAX ->
  (voxel_lo scene udd a z <= p.[a] /\ p.[a] < voxel_hi scene udd a z)%Q ->
  vertex_index scene udd p a = Some z.
Proof.
  intros Hs Hp Hz. rewrite voxel_lo_Q, voxel_hi_Q. intros [A B].
  unfold vertex_index.
  set (q := @fdiv ExactQ (@fsub ExactQ p.[a] (dmin scene).[a]) (s udd).[a]).
  assert (Hq : (q * (s udd).[a] == p.[a] - (dmin scene).[a])%Q).
  { unfold q. rewrite fdiv_Q, fsub_Q. field. lra. }
  assert (Hlo : (inject_Z z <= q)%Q).
  { apply (Qmult_le_r _ _ _ Hs). rewrite Hq. lra. }
  assert (Hhi : (q < inject_Z z + 1)%Q).
  { apply (Qmult_lt_r _ _ _ Hs). rewrite Hq. lra. }
  assert (Hz0 : 0 <= z).
  { assert (Hq0 : (0 <= q)%Q) by (apply (Qmult_le_r 0 q _ Hs); rewrite Hq; lra).
    assert (H1 : (inject_Z (-1) < inject_Z z)%Q)
      by (change (inject_Z (-1)) with (- (1))%Q; lra).
    rewrite <- Zlt_Qlt in H1. lia. }
  change (Q_to_int32 q = Some z). unfold Q_to_int32. cbv zeta.
  rewrite (Qtrunc_unique q z (conj Hlo Hhi) Hz0).
  unfold in_int32, INT32_MIN, INT32_MAX in *.
  destruct (-2147483648 <=? z) eqn:E1; [| apply Z.leb_gt in E1; lia].
  destruct (z <=? 2147483647) eqn:E2; [| apply Z.leb_gt in E2; lia].
  reflexivity.
Qed.

(** At or above [dmin], [rtVertexGetVoxel] computes the indices of the
    voxel whose box holds the point, and only those: the box of voxel
    [(i,j,k)] is half open, from [dmin + (i,j,k) s] up to, not including,
    [dmin + (i+1,j+1,k+1) s]. *)
Theorem rtVertexGetVoxel_locates (scene : @RT_Scene ExactQ) (udd : @RT_Udd ExactQ)
  (p : @point ExactQ) (i j k : Z) :
  (forall a, (0 < (s udd).[a])%Q /\ ((dmin scene).[a] <= p.[a])%Q
             /\ (V3 i j k).[a] <= INT32_MAX) ->
  (rtVertexGetVoxel scene udd p = Some (in_grid udd i j k, (i, j, k))
   <-> forall a, (voxel_lo scene udd a (V3 i j k).[a] <= p.[a]
                  /\ p.[a] < voxel_hi scene udd a (V3 i j k).[a])%Q).
Proof.
  intros Hyp. rewrite rtVertexGetVoxel_axes. split.
  - intros [Hidx _] a. destruct (Hyp a) as (Hs & Hp & _).
    apply vertex_index_locates; auto.
  - intros Hbox. split; [| reflexivity].
    intros a. destruct (Hyp a) as (Hs & Hp & Hz).
    apply vertex_index_of_box; auto.
Qed.

(** ** The grid that is built *)

Lemma Forall_repeat {A : Type} (P : A -> Prop) (x : A) (n : nat) :
  P x -> Forall P (repeat x n).
Proof. intros H. induction n; simpl; constructor; auto. Qed.

Lemma forallb_repeat {A : Type} (f : A -> bool) (x : A) (n : nat) :
  f x = true -> forallb f (repeat x n) = true.
Proof. intros H. induction n; simpl; [reflexivity |]. rewrite H, IHn. reflexivity. Qed.

Section CreatedGrid.
Context {FO : FloatOps}.

(** A grid as [rtUddCreate] returns it is well formed once its voxel array
    has the length [nx*ny*nz]: that is, when every [nv[a]] is at least 1 and
    the product fits an [int32_t] and survives the conversion to [float]. *)
Lemma rtUddCreate_grid_ok (c_pow : float -> float -> float) (malloc_res malloc_v : bool)
  (scene scene' : RT_Scene) (udd : RT_Udd) :
  rtUddCreate c_pow malloc_res malloc_v scene = Some (scene', Some udd) ->
  (forall a, 1 <= (nv udd).[a]) ->
  (nv udd).[AX] * (nv udd).[AY] * (nv udd).[AZ] <= INT32_MAX ->
  int_of_float (float_of_int ((nv udd).[AX] * (nv udd).[AY] * (nv udd).[AZ]))
  = Some ((nv udd).[AX] * (nv udd).[AY] * (nv udd).[AZ]) ->
  grid_ok scene' udd = true /\ Forall voxel_wf (v udd).
Proof.
  intros H Hnv Hfit Hrt.
  pose proof (rtUddCreate_counted _ _ _ _ _ _ H Hnv Hfit Hrt) as Hv.
  pose proof (Hnv AX) as Hx. pose proof (Hnv AY) as Hy. pose proof (Hnv AZ) as Hz.
  split.
  - unfold grid_ok. rewrite Hv, repeat_length.
    rewrite forallb_repeat by reflexivity.
    repeat (apply andb_true_iff; split); try reflexivity;
      try (apply Z.leb_le; assumption).
    apply Z.eqb_eq. nia.
  - rewrite Hv. apply Forall_repeat. apply zero_voxel_wf.
Qed.

(** Build, fill, walk, in any float arithmetic.  On a grid that
    [rtUddCreate] returned with every [nv[a] >= 1] and a voxel count
    [nx*ny*nz] that fits an [int32_t] and is unchanged by the conversion to
    [float] and back, and that [rtUddVoxelize] then filled, whatever the
    allocator did during voxelization, the traverser started at any voxel of
    the grid returns a triangle or NULL within [nx + ny + nz] iterations. *)
Theorem created_grid_traversal_returns (c_pow : float -> float -> float)
  (malloc_res malloc_v : bool) (scene scene' : RT_Scene) (udd udd' : RT_Udd)
  (malloc_tmp : bool) (alloc : nat -> bool)
  (current : option tri_ptr) (o r : point) (i j k : Z) (fuel : nat) :
  rtUddCreate c_pow malloc_res malloc_v scene = Some (scene', Some udd) ->
  (forall a, 1 <= (nv udd).[a]) ->
  (nv udd).[AX] * (nv udd).[AY] * (nv udd).[AZ] <= INT32_MAX ->
  int_of_float (float_of_int ((nv udd).[AX] * (nv udd).[AY] * (nv udd).[AZ]))
  = Some ((nv udd).[AX] * (nv udd).[AY] * (nv udd).[AZ]) ->
  rtUddVoxelize malloc_tmp alloc udd scene' = Some udd' ->
  in_grid udd' i j k = true ->
  (Z.to_nat ((nv udd').[AX] + (nv udd').[AY] + (nv udd').[AZ]) <= fuel)%nat ->
  (exists T ip, rtUddTraverse fuel udd' scene' current o r i j k = Hit T ip)
  \/ rtUddTraverse fuel udd' scene' current o r i j k = NoHit.
Proof.
  intros Hc Hnv1 Hfit Hrt Hv Hin Hfuel.
  destruct (rtUddCreate_grid_ok _ _ _ _ _ _ Hc Hnv1 Hfit Hrt) as [Hok Hwf].
  pose proof (rtUddVoxelize_extends _ _ _ _ _ Hwf Hv) as Hext.
  pose proof (grid_extends_ok _ _ _ Hok Hwf Hext) as Hok'.
  destruct (grid_ok_spec _ _ Hok') as (Hnv & Hfit' & Hlen & Hvox).
  unfold rtUddTraverse.
  destruct (dda_init udd' scene' o r i j k) as [c cur0] eqn:Ed.
  assert (Hunit : forall b, dda_step c b = 1 \/ dda_step c b = -1).
  { intros b. pose proof (dda_init_unit_steps udd' scene' o r i j k b) as Hu.
    rewrite Ed in Hu. exact Hu. }
  assert (Hnv' : forall b, (nv udd').[b] <= INT32_MAX) by (intros b; apply Hnv).
  assert (Hcur0 : cursor_in_grid udd' cur0 = true).
  { unfold dda_init in Ed. inversion Ed; subst. exact Hin. }
  pose proof (steps_left_positive udd' c cur0 AX Hcur0).
  pose proof (steps_left_positive udd' c cur0 AY Hcur0).
  pose proof (steps_left_positive udd' c cur0 AZ Hcur0).
  assert (Hsum : steps_left udd' c cur0 AX + steps_left udd' c cur0 AY
                 + steps_left udd' c cur0 AZ <= Z.of_nat fuel + 2).
  { assert (Hs : forall a, steps_left udd' c cur0 a <= (nv udd').[a]).
    { intros a. unfold steps_left. unfold cursor_in_grid in Hcur0.
      apply in_grid_spec in Hcur0.
      destruct (dda_step c a =? 1); destruct a; cbn [cursor_index vget cx cy cz] in *; lia. }
    pose proof (Hs AX). pose proof (Hs AY). pose proof (Hs AZ).
    pose proof (Hnv AX). pose proof (Hnv AY). pose proof (Hnv AZ). lia. }
  pose proof (traverse_loop_fuel udd' scene' current o r c Hnv' Hunit fuel cur0 Hcur0 Hsum) as Hf.
  pose proof (traverse_loop_defined udd' scene' current o r c Hok' fuel cur0 Hcur0) as Hd.
  destruct (traverse_loop fuel udd' scene' current o r c cur0) as [T ip| | |];
    [left; eauto | right; reflexivity | congruence | congruence].
Qed.

End CreatedGrid.

(** ** Exact arithmetic: the ray-triangle test *)

Lemma dotp_Q (a b : @point ExactQ) :
  (vec_vector_dotp a b == cx a * cx b + cy a * cy b + cz a * cz b)%Q.
Proof.
  unfold vec_vector_dotp, rtVectorDotp. cbn [vget]. rewrite !fadd_Q, !fmul_Q. reflexivity.
Qed.

Lemma make_Q (a b : @point ExactQ) :
  (cx (vec_vector_make a b) == cx b - cx a)%Q
  /\ (cy (vec_vector_make a b) == cy b - cy a)%Q
  /\ (cz (vec_vector_make a b) == cz b - cz a)%Q.
Proof.
  unfold vec_vector_make. cbn [vget cx cy cz]. rewrite !fsub_Q. repeat split; reflexivity.
Qed.

Lemma crossp_Q (a b : @point ExactQ) :
  (cx (vec_vector_crossp a b) == cy a * cz b - cz a * cy b)%Q
  /\ (cy (vec_vector_crossp a b) == cz a * cx b - cx a * cz b)%Q
  /\ (cz (vec_vector_crossp a b) == cx a * cy b - cy a * cx b)%Q.
Proof.
  unfold vec_vector_crossp. cbn [vget cx cy cz]. rewrite !fsub_Q, !fmul_Q.
  repeat split; reflexivity.
Qed.

Lemma mt_det_Q (ti tj tk r : @point ExactQ) :
  (mt_det ti tj tk r
   == (cx tj - cx ti) * (cy r * (cz tk - cz ti) - cz r * (cy tk - cy ti))
      + (cy tj - cy ti) * (cz r * (cx tk - cx ti) - cx r * (cz tk - cz ti))
      + (cz tj - cz ti) * (cx r * (cy tk - cy ti) - cy r * (cx tk - cx ti)))%Q.
Proof.
  unfold mt_det. rewrite dotp_Q.
  destruct (crossp_Q r (vec_vector_make ti tk)) as (C1 & C2 & C3).
  destruct (make_Q ti tj) as (J1 & J2 & J3).
  destruct (make_Q ti tk) as (K1 & K2 & K3).
  rewrite C1, C2, C3, J1, J2, J3, K1, K2, K3. reflexivity.
Qed.

Lemma Some_inj {A : Type} (a b : A) : Some a = Some b -> a = b.
Proof. intros H. inversion H. reflexivity. Qed.

Lemma Qltb_false_le (a b : Q) : Qltb a b = false -> (b <= a)%Q.
Proof. apply Qltb_ge. Qed.

(** What the test computes, in exact arithmetic: it answers only outside
    the band of determinants around 0, and then with the solution of
    [o + d r = ti + u (tj - ti) + v (tk - ti)] by Cramer's rule. *)
Lemma ray_triangle_intersection_exact (ti tj tk o r : @point ExactQ) (d : Q) :
  ray_triangle_intersection ti tj tk o r = Some d ->
  let det := mt_det ti tj tk r in
  let tvec := vec_vector_make ti o in
  let u := (vec_vector_dotp tvec (vec_vector_crossp r (vec_vector_make ti tk)) / det)%Q in
  let v := (vec_vector_dotp r (vec_vector_crossp tvec (vec_vector_make ti tj)) / det)%Q in
  (det <= - (1 # 1000000) \/ (1 # 1000000) <= det)%Q
  /\ (0 <= u /\ 0 <= v /\ u + v <= 1)%Q
  /\ (d == vec_vector_dotp (vec_vector_make ti tk)
              (vec_vector_crossp tvec (vec_vector_make ti tj)) / det)%Q.
Proof.
  unfold ray_triangle_intersection. fold (mt_det ti tj tk r).
  set (det := mt_det ti tj tk r).
  set (ij := vec_vector_make ti tj). set (ik := vec_vector_make ti tk).
  set (tvec := vec_vector_make ti o).
  set (pvec := vec_vector_crossp r ik). set (qvec := vec_vector_crossp tvec ij).
  cbv zeta.
  change (@flt ExactQ) with Qltb.
  destruct (Qltb (@fsub ExactQ (@flit ExactQ 0) (@EPSILON ExactQ)) det && Qltb det (@EPSILON ExactQ)) eqn:Eband;
    [discriminate |].
  assert (Hband : (det <= - (1 # 1000000) \/ (1 # 1000000) <= det)%Q).
  { apply andb_false_iff in Eband. destruct Eband as [E | E]; apply Qltb_false_le in E.
    - left. rewrite fsub_Q, flit_Q in E. unfold EPSILON in E. rewrite flit_Q in E. lra.
    - right. unfold EPSILON in E. rewrite flit_Q in E. exact E. }
  assert (Hdet : ~ (det == 0)%Q) by (destruct Hband; lra).
  set (inv_det := @fdiv ExactQ (@flit ExactQ 1) det).
  assert (Hinv : forall x : Q, (@fmul ExactQ x inv_det == x / det)%Q).
  { intros x. unfold inv_det. rewrite fmul_Q, fdiv_Q, flit_Q. field. exact Hdet. }
  destruct (Qltb (@fmul ExactQ (vec_vector_dotp tvec pvec) inv_det) (@flit ExactQ 0)
            || Qltb (@flit ExactQ 1) (@fmul ExactQ (vec_vector_dotp tvec pvec) inv_det)) eqn:Eu;
    [discriminate |].
  apply orb_false_iff in Eu. destruct Eu as [Eu0 Eu1].
  apply Qltb_false_le in Eu0, Eu1. rewrite Hinv, flit_Q in Eu0, Eu1.
  destruct (Qltb (@fmul ExactQ (vec_vector_dotp r qvec) inv_det) (@flit ExactQ 0)
            || Qltb (@flit ExactQ 1)
                 (@fadd ExactQ (@fmul ExactQ (vec_vector_dotp tvec pvec) inv_det)
                               (@fmul ExactQ (vec_vector_dotp r qvec) inv_det))) eqn:Ev;
    [discriminate |].
  apply orb_false_iff in Ev. destruct Ev as [Ev0 Ev1].
  apply Qltb_false_le in Ev0, Ev1. rewrite Hinv, flit_Q in Ev0.
  rewrite fadd_Q, !Hinv, flit_Q in Ev1.
  intros H. apply Some_inj in H. rewrite <- H.
  split; [exact Hband |]. split; [repeat split; assumption |].
  apply Hinv.
Qed.

(** The three dot products of the test, as polynomials in the coordinates. *)
Lemma mt_products_Q (ti tj tk o r : @point ExactQ) :
  let ij := vec_vector_make ti tj in
  let ik := vec_vector_make ti tk in
  let tvec := vec_vector_make ti o in
  (vec_vector_dotp tvec (vec_vector_crossp r ik)
   == (cx o - cx ti) * (cy r * (cz tk - cz ti) - cz r * (cy tk - cy ti))
      + (cy o - cy ti) * (cz r * (cx tk - cx ti) - cx r * (cz tk - cz ti))
      + (cz o - cz ti) * (cx r * (cy tk - cy ti) - cy r * (cx tk - cx ti)))%Q
  /\ (vec_vector_dotp r (vec_vector_crossp tvec ij)
      == cx r * ((cy o - cy ti) * (cz tj - cz ti) - (cz o - cz ti) * (cy tj - cy ti))
         + cy r * ((cz o - cz ti) * (cx tj - cx ti) - (cx o - cx ti) * (cz tj - cz ti))
         + cz r * ((cx o - cx ti) * (cy tj - cy ti) - (cy o - cy ti) * (cx tj - cx ti)))%Q
  /\ (vec_vector_dotp ik (vec_vector_crossp tvec ij)
      == (cx tk - cx ti) * ((cy o - cy ti) * (cz tj - cz ti) - (cz o - cz ti) * (cy tj - cy ti))
         + (cy tk - cy ti) * ((cz o - cz ti) * (cx tj - cx ti) - (cx o - cx ti) * (cz tj - cz ti))
         + (cz tk - cz ti) * ((cx o - cx ti) * (cy tj - cy ti) - (cy o - cy ti) * (cx tj - cx ti)))%Q.
Proof.
  intros ij ik tvec.
  destruct (make_Q ti tj) as (J1 & J2 & J3).
  destruct (make_Q ti tk) as (K1 & K2 & K3).
  destruct (make_Q ti o) as (T1 & T2 & T3).
  destruct (crossp_Q r ik) as (P1 & P2 & P3).
  destruct (crossp_Q tvec ij) as (Q1 & Q2 & Q3).
  fold ij in J1, J2, J3. fold ik in K1, K2, K3. fold tvec in T1, T2, T3.
  rewrite !dotp_Q, P1, P2, P3, Q1, Q2, Q3, J1, J2, J3, K1, K2, K3, T1, T2, T3.
  repeat split; reflexivity.
Qed.

(** Soundness of the test, in exact arithmetic: a reported distance [d] is
    the parameter of a point of the ray's line that lies in the triangle. *)
Theorem ray_triangle_intersection_sound (ti tj tk o r : @point ExactQ) (d : Q) :
  ray_triangle_intersection ti tj tk o r = Some d ->
  exists u v : Q,
    (0 <= u /\ 0 <= v /\ u + v <= 1)%Q
    /\ at_barycentric ti tj tk (rtVectorRaypoint o r d) u v.
Proof.
  intros H. destruct (ray_triangle_intersection_exact ti tj tk o r d H) as (Hband & Huv & Hd).
  cbv zeta in Huv.
  set (det := mt_det ti tj tk r) in *.
  assert (Hdet : ~ (det == 0)%Q) by (destruct Hband; lra).
  destruct (mt_products_Q ti tj tk o r) as (EU & EV & ED).
  pose proof (mt_det_Q ti tj tk r) as EDet. fold det in EDet.
  eexists. eexists. split; [exact Huv |].
  intros a. rewrite raypoint_exact. rewrite Hd.
  set (ND := vec_vector_dotp (vec_vector_make ti tk)
          (vec_vector_crossp (vec_vector_make ti o) (vec_vector_make ti tj))) in *.
  set (NU := vec_vector_dotp (vec_vector_make ti o) (vec_vector_crossp r (vec_vector_make ti tk))) in *.
  set (NV := vec_vector_dotp r (vec_vector_crossp (vec_vector_make ti o) (vec_vector_make ti tj))) in *.
  apply (Qmult_inj_r _ _ det Hdet).
  setoid_replace ((o.[a] + r.[a] * (ND / det)) * det)%Q with (o.[a] * det + r.[a] * ND)%Q
    by (field; exact Hdet).
  setoid_replace ((ti.[a] + NU / det * (tj.[a] - ti.[a]) + NV / det * (tk.[a] - ti.[a])) * det)%Q
    with (ti.[a] * det + NU * (tj.[a] - ti.[a]) + NV * (tk.[a] - ti.[a]))%Q
    by (field; exact Hdet).
  rewrite EDet, EU, EV, ED.
  (destruct a; cbn [vget]; ring).
Qed.

Lemma Qltb_false_of_le (a b : Q) : (b <= a)%Q -> Qltb a b = false.
Proof. apply Qltb_ge. Qed.

(** Completeness of the test, in exact arithmetic: outside the band of
    determinants around 0, a point of the ray's line that lies in the
    triangle is reported, with its parameter, whatever the sign of that
    parameter. *)
Theorem ray_triangle_intersection_complete (ti tj tk o r : @point ExactQ) (t u v : Q) :
  (mt_det ti tj tk r <= - (1 # 1000000) \/ (1 # 1000000) <= mt_det ti tj tk r)%Q ->
  (0 <= u /\ 0 <= v /\ u + v <= 1)%Q ->
  at_barycentric ti tj tk (rtVectorRaypoint o r t) u v ->
  exists d : Q, ray_triangle_intersection ti tj tk o r = Some d /\ (d == t)%Q.
Proof.
  intros Hband (Hu & Hv & Huv) Hbar.
  set (det := mt_det ti tj tk r) in *.
  assert (Hdet : ~ (det == 0)%Q) by (destruct Hband; lra).
  destruct (mt_products_Q ti tj tk o r) as (EU & EV & ED).
  pose proof (mt_det_Q ti tj tk r) as EDet. fold det in EDet.
  set (ND := vec_vector_dotp (vec_vector_make ti tk)
          (vec_vector_crossp (vec_vector_make ti o) (vec_vector_make ti tj))) in *.
  set (NU := vec_vector_dotp (vec_vector_make ti o) (vec_vector_crossp r (vec_vector_make ti tk))) in *.
  set (NV := vec_vector_dotp r (vec_vector_crossp (vec_vector_make ti o) (vec_vector_make ti tj))) in *.
  (* the origin, from the barycentric equations *)
  assert (Ho : forall a, (o.[a] == ti.[a] + u * (tj.[a] - ti.[a]) + v * (tk.[a] - ti.[a])
                                  - r.[a] * t)%Q).
  { intros a. pose proof (Hbar a) as Ha. rewrite raypoint_exact in Ha. lra. }
  pose proof (Ho AX) as Hox. pose proof (Ho AY) as Hoy. pose proof (Ho AZ) as Hoz.
  cbn [vget] in Hox, Hoy, Hoz.
  assert (HU : (NU == u * det)%Q) by (rewrite EU, EDet, Hox, Hoy, Hoz; ring).
  assert (HV : (NV == v * det)%Q) by (rewrite EV, EDet, Hox, Hoy, Hoz; ring).
  assert (HD : (ND == t * det)%Q) by (rewrite ED, EDet, Hox, Hoy, Hoz; ring).
  assert (Hdiv : forall x y : Q, (x == y * det -> x / det == y)%Q).
  { intros x y E. rewrite E. field. exact Hdet. }
  unfold ray_triangle_intersection. cbv zeta. fold (mt_det ti tj tk r). fold det. fold NU NV ND.
  change (@flt ExactQ) with Qltb.
  set (inv_det := @fdiv ExactQ (@flit ExactQ 1) det).
  assert (Hinv : forall x : Q, (@fmul ExactQ x inv_det == x / det)%Q).
  { intros x. unfold inv_det. rewrite fmul_Q, fdiv_Q, flit_Q. field. exact Hdet. }
  assert (Eband : Qltb (@fsub ExactQ (@flit ExactQ 0) (@EPSILON ExactQ)) det
                  && Qltb det (@EPSILON ExactQ) = false).
  { apply andb_false_iff. destruct Hband as [Hneg | Hpos]; [left | right];
      apply Qltb_false_of_le; unfold EPSILON; rewrite ?fsub_Q, ?flit_Q; lra. }
  rewrite Eband.
  assert (Eu : Qltb (@fmul ExactQ NU inv_det) (@flit ExactQ 0)
               || Qltb (@flit ExactQ 1) (@fmul ExactQ NU inv_det) = false).
  { apply orb_false_iff. split; apply Qltb_false_of_le;
      rewrite Hinv, flit_Q, (Hdiv NU u HU); lra. }
  rewrite Eu.
  assert (Ev : Qltb (@fmul ExactQ NV inv_det) (@flit ExactQ 0)
               || Qltb (@flit ExactQ 1)
                    (@fadd ExactQ (@fmul ExactQ NU inv_det) (@fmul ExactQ NV inv_det)) = false).
  { apply orb_false_iff. split; apply Qltb_false_of_le.
    - rewrite Hinv, flit_Q, (Hdiv NV v HV). lra.
    - rewrite fadd_Q, !Hinv, flit_Q, (Hdiv NU u HU), (Hdiv NV v HV). lra. }
  rewrite Ev.
  eexists. split; [reflexivity |].
  rewrite Hinv. apply Hdiv. exact HD.
Qed.

(** ** Instances on the concrete scenes *)

Lemma empty_grid_wf : Forall voxel_wf (v grid_empty).
Proof. apply Forall_repeat, zero_voxel_wf. Qed.

Lemma rtUddVoxelize_only_appends_witness :
  exists vox',
    at_index (v grid_CB) 1 = Some vox'
    /\ voxel_wf vox'
    /\ exists added : list tri_ptr,
         voxel_cells vox' = voxel_cells zero_voxel ++ map Some added
         /\ Forall (fun tp => (tp < length (scene_t scene_CB'))%nat
                              /\ Z.of_nat tp < nt scene_CB') added.
Proof.
  apply (rtUddVoxelize_only_appends true (fun _ => true) grid_empty grid_CB scene_CB'
           empty_grid_wf).
  - reflexivity.
  - reflexivity.
Defined.

Lemma rtUddVoxelize_keeps_grid_ok_witness :
  grid_ok scene_CB' grid_CB = true /\ Forall voxel_wf (v grid_CB).
Proof.
  apply (rtUddVoxelize_keeps_grid_ok true (fun _ => true) grid_empty grid_CB scene_CB').
  - reflexivity.
  - exact empty_grid_wf.
  - reflexivity.
Defined.

Lemma scene_CB_vertices_in_grid : vertices_in_grid scene_CB' grid_empty.
Proof.
  intros tp t mn mx Htp Et Eb.
  destruct tp as [|[|tp]]; cbn in Et.
  - injection Et as <-. vm_compute in Eb. injection Eb as <- <-. split; reflexivity.
  - injection Et as <-. vm_compute in Eb. injection Eb as <- <-. split; reflexivity.
  - destruct tp; discriminate.
Qed.

Lemma rtUddVoxelize_contents_witness :
  grid_cells grid_CB (rtVoxelArrayOffset grid_empty 0 0 1)
  = grid_cells grid_empty (rtVoxelArrayOffset grid_empty 0 0 1)
    ++ map Some (filter (stores scene_CB' grid_empty 0 0 1)
                        (seq 0 (Z.to_nat (nt scene_CB')))).
Proof.
  apply (rtUddVoxelize_contents grid_empty grid_CB scene_CB' 0 0 1).
  - unfold INT32_MAX. simpl. lia.
  - exact empty_grid_wf.
  - exact scene_CB_vertices_in_grid.
  - reflexivity.
  - reflexivity.
Defined.

Lemma Qltb_incomparable (a b c : Q) :
  Qltb a b = false -> Qltb b c = false -> Qltb a c = false.
Proof. rewrite !Qltb_ge. intros H1 H2. lra. Qed.

Lemma two_smallest_distances_spec_witness :
  @fle ExactQ (7 # 10) (14 # 15)
  /\ exists rest,
       Permutation
         (@FLT_MAX ExactQ :: @FLT_MAX ExactQ
          :: filter (fun d => @flt ExactQ (@flit ExactQ 0) d)
                    (wall_distance_list scene_AB' corner_o corner_r))
         ((7 # 10)%Q :: (14 # 15)%Q :: rest)
       /\ Forall (@fle ExactQ (14 # 15)) rest.
Proof.
  apply (@two_smallest_distances_spec ExactQ Qltb_irrefl Qltb_trans Qltb_incomparable
           scene_AB' corner_o corner_r).
  reflexivity.
Defined.

Lemma rtUddTraverse_never_revisits_witness :
  let c := fst (dda_init grid_AB scene_AB' edge_o edge_r 0 0 0) in
  let cur0 := snd (dda_init grid_AB scene_AB' edge_o edge_r 0 0 0) in
  walk_distance c cur0 (cursor_after c cur0 1) = 1
  /\ forall m, (m < 1)%nat ->
       exists a, cursor_index (cursor_after c cur0 m) a <> cursor_index (cursor_after c cur0 1) a.
Proof.
  apply (rtUddTraverse_never_revisits grid_AB scene_AB' edge_o edge_r 0 0 0 1).
  - intros a. destruct a; unfold INT32_MAX; simpl; lia.
  - intros m Hm. assert (m = 0%nat) as -> by lia. reflexivity.
Defined.

Lemma rtUddCreate_failure_witness :
  (@None (@RT_Udd ExactQ) = None <-> true = false \/ false = false)
  /\ (true = false -> scene_AB' = scene_AB)
  /\ (true = true -> scene_AB' = inflate scene_AB).
Proof.
  apply (@rtUddCreate_failure ExactQ pow_fixed true false scene_AB scene_AB' None).
  reflexivity.
Defined.



Lemma grid_empty_axes :
  forall a, (0 < (s grid_empty).[a])%Q /\ 1 <= (nv grid_empty).[a] <= INT32_MAX.
Proof. intros a. destruct a; (split; [reflexivity | unfold INT32_MAX; simpl; lia]). Qed.

Lemma rtVertexGetVoxel_accepts_iff_witness :
  (exists i j k, rtVertexGetVoxel scene_AB' grid_empty away_o = Some (true, (i, j, k)))
  <-> forall a, ((dmin scene_AB').[a] - (s grid_empty).[a] < away_o.[a]
                 /\ away_o.[a] < (dmin scene_AB').[a]
                                 + inject_Z (nv grid_empty).[a] * (s grid_empty).[a])%Q.
Proof.
  apply (rtVertexGetVoxel_accepts_iff scene_AB' grid_empty away_o).
  exact grid_empty_axes.
Defined.

Lemma rtVertexGetVoxel_locates_witness :
  rtVertexGetVoxel scene_AB' grid_empty ray_o = Some (in_grid grid_empty 0 0 1, (0, 0, 1))
  <-> forall a, (voxel_lo scene_AB' grid_empty a (V3 0%Z 0%Z 1%Z).[a] <= ray_o.[a]
                 /\ ray_o.[a] < voxel_hi scene_AB' grid_empty a (V3 0%Z 0%Z 1%Z).[a])%Q.
Proof.
  apply (rtVertexGetVoxel_locates scene_AB' grid_empty ray_o 0 0 1).
  intros a. destruct a; (split; [reflexivity | split; [discriminate | unfold INT32_MAX; simpl; lia]]).
Defined.

Lemma created_grid_traversal_returns_witness :
  ((exists T ip, rtUddTraverse 7 grid_AB scene_AB' None ray_o ray_r 0 0 1 = Hit T ip)
   \/ rtUddTraverse 7 grid_AB scene_AB' None ray_o ray_r 0 0 1 = NoHit)
  /\ ((exists T ip,
         rtUddTraverse 7 grid32_small (@inflate Binary32 scene32_small) None
           ray32_o ray32_r 0 0 0 = Hit T ip)
      \/ rtUddTraverse 7 grid32_small (@inflate Binary32 scene32_small) None
           ray32_o ray32_r 0 0 0 = NoHit).
Proof.
  split.
  - apply (@created_grid_traversal_returns ExactQ pow_fixed true true scene_AB scene_AB'
             grid_empty grid_AB true (fun _ => true) None ray_o ray_r 0 0 1 7%nat).
    + reflexivity.
    + intros a. destruct a; simpl; lia.
    + unfold INT32_MAX. simpl. lia.
    + reflexivity.
    + reflexivity.
    + reflexivity.
    + simpl. lia.
  - apply (@created_grid_traversal_returns Binary32 pow32_fixed true true scene32_small
             (@inflate Binary32 scene32_small) grid32_small grid32_small
             true (fun _ => true) None ray32_o ray32_r 0 0 0 7%nat).
    + reflexivity.
    + intros a. destruct a; simpl; lia.
    + unfold INT32_MAX. simpl. lia.
    + reflexivity.
    + reflexivity.
    + reflexivity.
    + simpl. lia.
Defined.

Lemma ray_triangle_intersection_sound_witness :
  exists u v : Q,
    (0 <= u /\ 0 <= v /\ u + v <= 1)%Q
    /\ at_barycentric (tri_i tri_B) (tri_j tri_B) (tri_k tri_B)
         (rtVectorRaypoint ray_o ray_r (37 # 50)) u v.
Proof.
  apply (ray_triangle_intersection_sound (tri_i tri_B) (tri_j tri_B) (tri_k tri_B)
           ray_o ray_r (37 # 50)).
  reflexivity.
Defined.

Lemma ray_triangle_intersection_complete_witness :
  exists d : Q,
    ray_triangle_intersection (tri_i tri_B) (tri_j tri_B) (tri_k tri_B) ray_o (q3 0 0 1)
    = Some d
    /\ (d == - (37 # 50))%Q.
Proof.
  apply (ray_triangle_intersection_complete (tri_i tri_B) (tri_j tri_B) (tri_k tri_B)
           ray_o (q3 0 0 1) (- (37 # 50)) (4 # 39) (29 # 44)).
  - left. vm_compute. discriminate.
  - repeat split; discriminate.
  - intros a. destruct a; reflexivity.
Defined.

(** ** Rays that hit nothing *)

Section MissFacts.
Context {FO : FloatOps}.
Local Open Scope float_scope.

Lemma scan_voxel_passes (scene : RT_Scene) (current : option tri_ptr) (o r : point) :
  forall (cells : list (option tri_ptr)) (dm : float) (nr : option tri_ptr),
  Forall (passed_over scene current o r) cells ->
  scan_voxel scene current o r cells dm nr = Some (dm, nr).
Proof.
  induction cells as [|c rest IH]; intros dm nr H; simpl; [reflexivity |].
  inversion H as [|c' rest' Hc Hrest]; subst.
  destruct (ptr_eqb c current) eqn:Ec; [apply IH; exact Hrest |].
  destruct Hc as [E | (tp & t & E & Et & Ei)].
  - apply ptr_eqb_spec in E. congruence.
  - subst c. rewrite Et, Ei. apply IH; exact Hrest.
Qed.

Lemma voxel_read_prefix (vox : RT_Voxel) (cells : list (option tri_ptr)) :
  voxel_read vox = Some cells -> cells = voxel_cells vox.
Proof.
  unfold voxel_read, voxel_cells. destruct (vt vox) as [l|]; [| discriminate].
  destruct (Z.of_nat (length l) <? vnt vox)%Z; [discriminate |].
  intros H. inversion H. reflexivity.
Qed.

Lemma voxel_hit_passes (udd : RT_Udd) (scene : RT_Scene) (current : option tri_ptr)
  (o r : point) (c : dda) (cur : cursor) (hit : tri_ptr * float) :
  (forall vox, In vox udd.(v) -> Forall (passed_over scene current o r) (voxel_cells vox)) ->
  voxel_hit udd scene current o r c cur <> Some (Some hit).
Proof.
  intros Hall. unfold voxel_hit.
  destruct (at_index _ _) as [vox|] eqn:Ea; [| discriminate].
  destruct (0 <? vox.(vnt))%Z; [| discriminate].
  destruct (voxel_read vox) as [cells|] eqn:Er; [| discriminate].
  apply voxel_read_prefix in Er. subst cells.
  assert (Hin : In vox udd.(v)).
  { unfold at_index in Ea. destruct (_ <? 0)%Z; [discriminate |].
    eapply nth_error_In; eauto. }
  rewrite (scan_voxel_passes scene current o r _ _ _ (Hall vox Hin)).
  simpl. discriminate.
Qed.

Lemma traverse_loop_passes (udd : RT_Udd) (scene : RT_Scene) (current : option tri_ptr)
  (o r : point) (c : dda) :
  (forall vox, In vox udd.(v) -> Forall (passed_over scene current o r) (voxel_cells vox)) ->
  forall (fuel : nat) (cur : cursor) (T : tri_ptr) (ip : point),
  traverse_loop fuel udd scene current o r c cur <> Hit T ip.
Proof.
  intros Hall. induction fuel as [|fuel IH]; intros cur T ip; simpl; [discriminate |].
  pose proof (voxel_hit_passes udd scene current o r c cur) as Hv.
  destruct (voxel_hit udd scene current o r c cur) as [[[tp d]|]|].
  - exfalso. apply (Hv (tp, d) Hall). reflexivity.
  - destruct (in_grid _ _ _ _); [apply IH | discriminate].
  - discriminate.
Qed.

(** Nothing to hit, nothing returned.  On a well-formed grid in which every
    stored triangle is [current] or is missed by the ray according to its
    own [isint], the traverser started at a voxel of the grid returns NULL
    within [nx + ny + nz] iterations; in particular on a grid without
    triangles. *)
Theorem rtUddTraverse_misses (udd : RT_Udd) (scene : RT_Scene)
  (current : option tri_ptr) (o r : point) (i j k : Z) (fuel : nat) :
  grid_ok scene udd = true ->
  in_grid udd i j k = true ->
  (forall vox, In vox udd.(v) -> Forall (passed_over scene current o r) (voxel_cells vox)) ->
  (Z.to_nat (udd.(nv).[AX] + udd.(nv).[AY] + udd.(nv).[AZ]) <= fuel)%nat ->
  rtUddTraverse fuel udd scene current o r i j k = NoHit.
Proof.
  intros Hok Hin Hall Hfuel.
  destruct (grid_ok_spec _ _ Hok) as (Hnv & Hfit & Hlen & Hvox).
  unfold rtUddTraverse.
  destruct (dda_init udd scene o r i j k) as [c cur0] eqn:Ed.
  assert (Hunit : forall b, (dda_step c b = 1 \/ dda_step c b = -1)%Z).
  { intros b. pose proof (dda_init_unit_steps udd scene o r i j k b) as Hu.
    rewrite Ed in Hu. exact Hu. }
  assert (Hnv' : forall b, ((nv udd).[b] <= INT32_MAX)%Z) by (intros b; apply Hnv).
  assert (Hcur0 : cursor_in_grid udd cur0 = true).
  { unfold dda_init in Ed. inversion Ed; subst. exact Hin. }
  pose proof (steps_left_positive udd c cur0 AX Hcur0).
  pose proof (steps_left_positive udd c cur0 AY Hcur0).
  pose proof (steps_left_positive udd c cur0 AZ Hcur0).
  assert (Hsum : (steps_left udd c cur0 AX + steps_left udd c cur0 AY
                  + steps_left udd c cur0 AZ <= Z.of_nat fuel + 2)%Z) by lia.
  pose proof (traverse_loop_fuel udd scene current o r c Hnv' Hunit fuel cur0 Hcur0 Hsum) as Hf.
  pose proof (traverse_loop_defined udd scene current o r c Hok fuel cur0 Hcur0) as Hd.
  pose proof (traverse_loop_passes udd scene current o r c Hall fuel cur0) as Hh.
  destruct (traverse_loop fuel udd scene current o r c cur0) as [T ip| | |];
    [exfalso; apply (Hh T ip); reflexivity | reflexivity | congruence | congruence].
Qed.

Section MissOrder.
Hypothesis flt_irrefl : forall a : float, (a <? a) = false.
Hypothesis flt_trans :
  forall a b c : float, (a <? b) = true -> (b <? c) = true -> (a <? c) = true.

Lemma traverse_loop_miss (udd : RT_Udd) (scene : RT_Scene) (current : option tri_ptr)
  (o r : point) (c : dda) :
  forall (fuel : nat) (cur : cursor),
  traverse_loop fuel udd scene current o r c cur = NoHit ->
  exists n : nat,
    cursor_in_grid udd (cursor_after c cur (S n)) = false
    /\ (forall m, (m < n)%nat -> cursor_in_grid udd (cursor_after c cur (S m)) = true)
    /\ (forall m, (m <= n)%nat ->
          exists cells,
            cells_at udd (cursor_after c cur m) = Some cells
            /\ nothing_below scene current o r cells (exit_bound c (cursor_after c cur m))).
Proof.
  induction fuel as [|fuel IH]; intros cur H; simpl in H; [discriminate |].
  destruct (voxel_hit udd scene current o r c cur) as [[[tp d]|]|] eqn:Ev;
    try discriminate.
  assert (Hshift : forall m, cursor_after c (next_voxel c cur) m = cursor_after c cur (S m)).
  { intros m. unfold cursor_after. rewrite Nat.iter_succ_r. reflexivity. }
  destruct (in_grid _ _ _ _) eqn:Eg.
  - destruct (IH _ H) as (n & Hout & Hin & Hnb).
    exists (S n). rewrite <- !Hshift. split; [exact Hout |]. split.
    + intros m Hm. destruct m as [|m]; [exact Eg |].
      rewrite <- Hshift. apply Hin. lia.
    + intros m Hm. destruct m as [|m].
      * apply (voxel_hit_nothing flt_irrefl flt_trans); exact Ev.
      * rewrite <- Hshift. apply Hnb. lia.
  - exists O. split; [exact Eg |]. split; [intros m Hm; lia |].
    intros m Hm. assert (m = O) as -> by lia.
    apply (voxel_hit_nothing flt_irrefl flt_trans); exact Ev.
Qed.

(** What NULL means.  When the traverser returns NULL it has walked a chain
    of voxels of the grid up to the first index outside it, and in none of
    them a stored triangle other than [current] had an [isint] distance
    below that voxel's exit bound. *)
Theorem rtUddTraverse_miss_nothing_below (fuel : nat) (udd : RT_Udd) (scene : RT_Scene)
  (current : option tri_ptr) (o r : point) (i j k : Z) :
  rtUddTraverse fuel udd scene current o r i j k = NoHit ->
  let c := fst (dda_init udd scene o r i j k) in
  let cur0 := snd (dda_init udd scene o r i j k) in
  exists n : nat,
    cursor_in_grid udd (cursor_after c cur0 (S n)) = false
    /\ (forall m, (m < n)%nat -> cursor_in_grid udd (cursor_after c cur0 (S m)) = true)
    /\ (forall m, (m <= n)%nat ->
          exists cells,
            cells_at udd (cursor_after c cur0 m) = Some cells
            /\ nothing_below scene current o r cells
                 (exit_bound c (cursor_after c cur0 m))).
Proof.
  unfold rtUddTraverse. destruct (dda_init udd scene o r i j k) as [c cur0]. simpl.
  apply traverse_loop_miss.
Qed.

End MissOrder.
End MissFacts.

(** ** Releasing the grid *)

Section DestroyFacts.
Context {FO : FloatOps}.

Lemma zrange_in (lo hi k : Z) : In k (zrange lo hi) <-> lo <= k <= hi.
Proof.
  unfold zrange. rewrite in_map_iff. split.
  - intros (n & <- & Hn). apply in_seq in Hn. lia.
  - intros H. exists (Z.to_nat (k - lo)). split; [lia |]. apply in_seq. lia.
Qed.

Lemma zrange_NoDup (lo hi : Z) : NoDup (zrange lo hi).
Proof.
  unfold zrange. apply Finite.Injective_map_NoDup; [| apply seq_NoDup].
  intros a b H. lia.
Qed.

Lemma free_loop (udd : RT_Udd) (L : list Z) :
  (forall k, In k L -> 0 <= k < Z.of_nat (length udd.(v))) ->
  forall l0 : list freed,
  fold_left (fun acc k =>
               do l <- acc;
               do vox <- at_index udd.(v) k;
               Some (match vox.(vt) with
                     | Some _ => l ++ [FreedCells k]
                     | None => l
                     end))
            L (Some l0)
  = Some (l0 ++ map FreedCells (filter (owns_array udd) L)).
Proof.
  induction L as [|k L IH]; intros Hin l0; simpl.
  - rewrite app_nil_r. reflexivity.
  - destruct (at_index_in_range udd.(v) k (Hin k (or_introl eq_refl))) as (vox & Ea & _).
    unfold owns_array at 1. rewrite Ea.
    rewrite IH by (intros k' Hk'; apply Hin; right; exact Hk').
    destruct (vt vox); [| reflexivity].
    rewrite <- app_assoc. reflexivity.
Qed.

Lemma zrange_sorted (lo hi : Z) : StronglySorted Z.lt (zrange lo hi).
Proof.
  unfold zrange. generalize (Z.to_nat (hi - lo + 1)) as len. generalize 0%nat as start.
  intros start len. revert start. induction len as [|len IH]; intros start; simpl.
  - constructor.
  - constructor; [apply IH |].
    apply Forall_forall. intros x Hx. apply in_map_iff in Hx.
    destruct Hx as (n & <- & Hn). apply in_seq in Hn. lia.
Qed.

Lemma filter_sorted (f : Z -> bool) (l : list Z) :
  StronglySorted Z.lt l -> StronglySorted Z.lt (filter f l).
Proof.
  induction 1 as [|x l Hs IH Hx]; simpl; [constructor |].
  destruct (f x); [| exact IH].
  constructor; [exact IH |].
  apply Forall_forall. intros y Hy. apply filter_In in Hy.
  rewrite Forall_forall in Hx. apply Hx. tauto.
Qed.

Lemma sorted_NoDup (l : list Z) : StronglySorted Z.lt l -> NoDup l.
Proof.
  induction 1 as [|x l Hs IH Hx]; constructor; [| exact IH].
  intros Hin. rewrite Forall_forall in Hx. specialize (Hx x Hin). lia.
Qed.

(** [rtUddDestroy] on a grid whose voxel array has the length the function
    computes from [nv]: it reads no voxel outside the array, releases the
    arrays of exactly the voxels that own one, each once and by increasing
    offset, then the voxel array, then the structure, and leaves NULL in the
    caller's pointer. *)
Theorem rtUddDestroy_releases (udd : RT_Udd) :
  Z.of_nat (length udd.(v))
  = wrap32 (wrap32 (udd.(nv).[AX] * udd.(nv).[AY]) * udd.(nv).[AZ]) ->
  exists ks : list Z,
    rtUddDestroy (Some udd) = Some (map FreedCells ks ++ [FreedVoxels; FreedGrid], None)
    /\ StronglySorted Z.lt ks
    /\ (forall k, In k ks <-> owns_array udd k = true)
    /\ NoDup (map FreedCells ks ++ [FreedVoxels; FreedGrid]).
Proof.
  intros Hlen. unfold rtUddDestroy. cbv zeta. rewrite <- Hlen.
  rewrite (free_loop udd) by (intros k Hk; apply zrange_in in Hk; lia).
  cbn [app].
  set (ks := filter (owns_array udd) (zrange 0 (Z.of_nat (length udd.(v)) - 1))).
  assert (Hs : StronglySorted Z.lt ks) by (apply filter_sorted, zrange_sorted).
  exists ks. split; [reflexivity |]. split; [exact Hs |]. split.
  - intros k. unfold ks. rewrite filter_In. split; [tauto |].
    intros Hk. split; [| exact Hk]. apply zrange_in.
    unfold owns_array in Hk. destruct (at_index udd.(v) k) eqn:Ea; [| discriminate].
    unfold at_index in Ea. destruct (k <? 0) eqn:E0; [discriminate |].
    apply Z.ltb_ge in E0.
    assert (Hn : (Z.to_nat k < length udd.(v))%nat) by (apply nth_error_Some; congruence).
    lia.
  - clear Hlen. assert (Hnd : NoDup ks) by (apply sorted_NoDup; exact Hs).
    clear Hs. induction ks as [|k ks IH]; simpl.
    + constructor; [simpl; intros [H | []]; discriminate |].
      constructor; [intros [] | constructor].
    + inversion Hnd as [|? ? Hk Hnd']; subst. constructor; [| apply IH; exact Hnd'].
      rewrite in_app_iff, in_map_iff.
      intros [(k' & E & Hin) | [H | [H | []]]]; try discriminate.
      inversion E; subst. contradiction.
Qed.

End DestroyFacts.

Lemma rtUddDestroy_releases_witness :
  exists ks : list Z,
    rtUddDestroy (Some grid_CB)
    = Some (map FreedCells ks ++ [FreedVoxels; FreedGrid], None)
    /\ StronglySorted Z.lt ks
    /\ (forall k, In k ks <-> owns_array grid_CB k = true)
    /\ NoDup (map FreedCells ks ++ [FreedVoxels; FreedGrid]).
Proof.
  apply (rtUddDestroy_releases grid_CB). reflexivity.
Defined.

(** ** Exact arithmetic: the entry point the locator finds *)

Lemma Permutation_count {A : Type} (f : A -> bool) (l l' : list A) :
  Permutation l l' -> length (filter f l) = length (filter f l').
Proof.
  induction 1; simpl.
  - reflexivity.
  - destruct (f x); simpl; congruence.
  - destruct (f x), (f y); reflexivity.
  - congruence.
Qed.

Lemma wall_distance_list_axes (scene : @RT_Scene ExactQ) (o r : @point ExactQ) :
  wall_distance_list scene o r
  = axis_walls scene o r AX ++ axis_walls scene o r AY ++ axis_walls scene o r AZ.
Proof.
  unfold wall_distance_list, axis_walls. cbn [flat_map]. rewrite app_nil_r. reflexivity.
Qed.

Lemma axis_walls_exact (scene : @RT_Scene ExactQ) (o r : @point ExactQ) (a : axis) :
  (r.[a] == 0)%Q /\ axis_walls scene o r a = []
  \/ ~ (r.[a] == 0)%Q
     /\ exists d1 d2,
          axis_walls scene o r a = [d1; d2]
          /\ (d1 * r.[a] == (dmin scene).[a] - o.[a])%Q
          /\ (d2 * r.[a] == (dmax scene).[a] - o.[a])%Q.
Proof.
  unfold axis_walls. change (@feq ExactQ) with Qeq_bool.
  destruct (Qeq_bool r.[a] (@flit ExactQ 0)) eqn:E; cbn [negb].
  - left. apply Qeq_bool_eq in E. rewrite flit_Q in E. auto.
  - right. apply Qeq_bool_neq in E. rewrite flit_Q in E. split; [exact E |].
    eexists. eexists. split; [reflexivity |].
    split; rewrite fdiv_Q, fsub_Q; field; exact E.
Qed.

Lemma below_spec (te d : Q) : below te d = true <-> (0 < d /\ d < te)%Q.
Proof.
  unfold below. rewrite andb_true_iff, !Qltb_lt, flit_Q. reflexivity.
Qed.

Lemma entry_param_cases (scene : @RT_Scene ExactQ) (o r : @point ExactQ) (a : axis) :
  ((o.[a] < (dmin scene).[a])%Q
   /\ entry_param scene o r a = (((dmin scene).[a] - o.[a]) / r.[a])%Q)
  \/ (((dmin scene).[a] <= o.[a])%Q /\ ((dmax scene).[a] < o.[a])%Q
      /\ entry_param scene o r a = (((dmax scene).[a] - o.[a]) / r.[a])%Q)
  \/ (((dmin scene).[a] <= o.[a])%Q /\ (o.[a] <= (dmax scene).[a])%Q
      /\ entry_param scene o r a = 0%Q).
Proof.
  unfold entry_param.
  destruct (Qltb o.[a] (dmin scene).[a]) eqn:E1.
  - left. apply Qltb_lt in E1. auto.
  - apply Qltb_ge in E1. destruct (Qltb (dmax scene).[a] o.[a]) eqn:E2.
    + right. left. apply Qltb_lt in E2. auto.
    + right. right. apply Qltb_ge in E2. auto.
Qed.

(** On one axis, at most one wall is crossed before the ray is within the
    slab, and none when the origin is within it or the ray only just
    reaches it. *)
Lemma axis_count (scene : @RT_Scene ExactQ) (o r : @point ExactQ) (a : axis) (te : Q) :
  ((dmin scene).[a] < (dmax scene).[a])%Q ->
  ((dmin scene).[a] <= o.[a] + r.[a] * te /\ o.[a] + r.[a] * te <= (dmax scene).[a])%Q ->
  let n := length (filter (below te) (axis_walls scene o r a)) in
  (n <= 1)%nat
  /\ ((te <= entry_param scene o r a)%Q -> n = 0%nat)
  /\ (((dmin scene).[a] <= o.[a] /\ o.[a] <= (dmax scene).[a])%Q -> n = 0%nat).
Proof.
  intros Hslab [Hlo Hhi].
  destruct (axis_walls_exact scene o r a) as [[Hr ->] | (Hr & d1 & d2 & -> & M1 & M2)].
  - simpl. auto.
  - cbn [filter].
    assert (Hdiv1 : (((dmin scene).[a] - o.[a]) / r.[a] == d1)%Q)
      by (rewrite <- M1; field; exact Hr).
    assert (Hdiv2 : (((dmax scene).[a] - o.[a]) / r.[a] == d2)%Q)
      by (rewrite <- M2; field; exact Hr).
    destruct (entry_param_cases scene o r a) as [[Ho Ee] | [(Ho1 & Ho2 & Ee) | (Ho1 & Ho2 & Ee)]];
      rewrite Ee; clear Ee;
      destruct (below te d1) eqn:B1; destruct (below te d2) eqn:B2;
      try (apply below_spec in B1; destruct B1 as [P1 L1]);
      try (apply below_spec in B2; destruct B2 as [P2 L2]);
      cbn [length];
      destruct (Q_dec r.[a] 0) as [[Hneg | Hpos] | Hz]; try contradiction;
      try (exfalso; nra);
      (split; [lia |]); (split; [intros Hte | intros [Hi1 Hi2]]);
      try reflexivity; try (exfalso; nra);
      try (exfalso; rewrite ?Hdiv1, ?Hdiv2 in Hte; nra).
Qed.

(** The entry parameter of an axis, for a ray that is within the slab at
    [ts]. *)
Lemma entry_param_spec (scene : @RT_Scene ExactQ) (o r : @point ExactQ) (a : axis) (ts : Q) :
  (0 <= ts)%Q ->
  ((dmin scene).[a] <= o.[a] + r.[a] * ts /\ o.[a] + r.[a] * ts <= (dmax scene).[a])%Q ->
  let e := entry_param scene o r a in
  (0 <= e /\ e <= ts)%Q
  /\ (forall t, (e <= t /\ t <= ts)%Q ->
        ((dmin scene).[a] <= o.[a] + r.[a] * t /\ o.[a] + r.[a] * t <= (dmax scene).[a])%Q)
  /\ ((0 < e)%Q ->
        ~ ((dmin scene).[a] <= o.[a] /\ o.[a] <= (dmax scene).[a])%Q
        /\ exists d, In d (axis_walls scene o r a) /\ (d == e)%Q).
Proof.
  intros Hts [Hlo Hhi] e. unfold e.
  destruct (entry_param_cases scene o r a) as [[Ho Ee] | [(Ho1 & Ho2 & Ee) | (Ho1 & Ho2 & Ee)]];
    rewrite Ee; clear Ee.
  - (* below the slab *)
    assert (Hr : (0 < r.[a])%Q).
    { destruct (Qlt_le_dec 0 r.[a]) as [H | H]; [exact H | exfalso; nra]. }
    assert (Hn : ~ (r.[a] == 0)%Q) by lra.
    set (q := (((dmin scene).[a] - o.[a]) / r.[a])%Q).
    assert (Hq : (q * r.[a] == (dmin scene).[a] - o.[a])%Q) by (unfold q; field; exact Hn).
    assert (Hq0 : (0 < q)%Q) by (apply (Qmult_lt_r 0 q _ Hr); rewrite Hq; lra).
    assert (Hq1 : (q <= ts)%Q) by (apply (Qmult_le_r q ts _ Hr); rewrite Hq; lra).
    split; [split; lra |]. split.
    + intros t [Ht1 Ht2]. split; nra.
    + intros _. split; [lra |].
      destruct (axis_walls_exact scene o r a) as [[Hz _] | (_ & d1 & d2 & -> & M1 & _)];
        [contradiction |].
      exists d1. split; [left; reflexivity |].
      apply (Qmult_inj_r _ _ _ Hn). rewrite M1, Hq. reflexivity.
  - (* above the slab *)
    assert (Hr : (r.[a] < 0)%Q).
    { destruct (Qlt_le_dec r.[a] 0) as [H | H]; [exact H | exfalso; nra]. }
    assert (Hn : ~ (r.[a] == 0)%Q) by lra.
    set (q := (((dmax scene).[a] - o.[a]) / r.[a])%Q).
    assert (Hq : (q * r.[a] == (dmax scene).[a] - o.[a])%Q) by (unfold q; field; exact Hn).
    assert (Hq0 : (0 < q)%Q) by nra.
    assert (Hq1 : (q <= ts)%Q) by nra.
    split; [split; lra |]. split.
    + intros t [Ht1 Ht2]. split; nra.
    + intros _. split; [lra |].
      destruct (axis_walls_exact scene o r a) as [[Hz _] | (_ & d1 & d2 & -> & _ & M2)];
        [contradiction |].
      exists d2. split; [right; left; reflexivity |].
      apply (Qmult_inj_r _ _ _ Hn). rewrite M2, Hq. reflexivity.
  - (* within the slab *)
    split; [split; lra |]. split.
    + intros t [Ht1 Ht2].
      destruct (Qlt_le_dec r.[a] 0) as [H | H]; split; nra.
    + intros H. lra.
Qed.

Lemma max_axis (f : axis -> Q) : exists x0, forall x, (f x <= f x0)%Q.
Proof.
  destruct (Qlt_le_dec (f AX) (f AY)) as [Hxy | Hxy];
    destruct (Qlt_le_dec (f AY) (f AZ)) as [Hyz | Hyz];
    destruct (Qlt_le_dec (f AX) (f AZ)) as [Hxz | Hxz].
  all: try (exists AZ; intros x; destruct x; lra).
  all: try (exists AY; intros x; destruct x; lra).
  all: try (exists AX; intros x; destruct x; lra).
Qed.

Lemma Q_to_int32_defined (q : Q) :
  (inject_Z INT32_MIN - 1 < q /\ q < inject_Z INT32_MAX + 1)%Q ->
  exists z, Q_to_int32 q = Some z.
Proof.
  intros [Hlo Hhi]. unfold Q_to_int32. cbv zeta.
  assert (Hz : INT32_MIN <= Qtrunc q <= INT32_MAX).
  { destruct (Qlt_le_dec q 0) as [Hneg | Hpos].
    - destruct (Qtrunc_nonpos q ltac:(lra)) as [[A B] C].
      assert (H1 : (inject_Z (INT32_MIN - 1) < inject_Z (Qtrunc q))%Q).
      { unfold Z.sub. rewrite inject_Z_plus. change (inject_Z (- (1))) with (- (1))%Q. lra. }
      rewrite <- Zlt_Qlt in H1. unfold INT32_MIN, INT32_MAX in *. lia.
    - destruct (Qtrunc_nonneg q Hpos) as [[A B] C].
      assert (H1 : (inject_Z (Qtrunc q) < inject_Z (INT32_MAX + 1))%Q).
      { rewrite inject_Z_plus. change (inject_Z 1) with 1%Q. lra. }
      rewrite <- Zlt_Qlt in H1. unfold INT32_MIN, INT32_MAX in *. lia. }
  unfold in_int32.
  destruct (INT32_MIN <=? Qtrunc q) eqn:E1; [| apply Z.leb_gt in E1; lia].
  destruct (Qtrunc q <=? INT32_MAX) eqn:E2; [| apply Z.leb_gt in E2; lia].
  eexists. reflexivity.
Qed.

Lemma Q_to_int32_range (q : Q) (z : Z) :
  Q_to_int32 q = Some z ->
  (inject_Z INT32_MIN - 1 < q /\ q < inject_Z INT32_MAX + 1)%Q.
Proof.
  unfold Q_to_int32. cbv zeta. destruct (in_int32 (Qtrunc q)) eqn:E; [| discriminate].
  intros _. unfold in_int32 in E. apply andb_true_iff in E. destruct E as [E1 E2].
  apply Z.leb_le in E1, E2.
  assert (H1 : (inject_Z INT32_MIN <= inject_Z (Qtrunc q))%Q) by (rewrite <- Zle_Qle; exact E1).
  assert (H2 : (inject_Z (Qtrunc q) <= inject_Z INT32_MAX)%Q) by (rewrite <- Zle_Qle; exact E2).
  destruct (Qlt_le_dec q 0) as [Hneg | Hpos].
  - destruct (Qtrunc_nonpos q ltac:(lra)) as [[A B] C].
    assert (H3 : (0 <= inject_Z INT32_MAX)%Q) by discriminate.
    split; lra.
  - destruct (Qtrunc_nonneg q Hpos) as [[A B] C].
    assert (H3 : (inject_Z INT32_MIN <= 0)%Q) by discriminate.
    split; lra.
Qed.

(** The index conversion is defined at a coordinate between two
    coordinates at which it is defined. *)
Lemma vertex_index_between (scene : @RT_Scene ExactQ) (udd : @RT_Udd ExactQ)
  (p0 p1 p : @point ExactQ) (a : axis) :
  (0 < (s udd).[a])%Q ->
  (exists z, vertex_index scene udd p0 a = Some z) ->
  (exists z, vertex_index scene udd p1 a = Some z) ->
  ((p0.[a] <= p.[a] /\ p.[a] <= p1.[a]) \/ (p1.[a] <= p.[a] /\ p.[a] <= p0.[a]))%Q ->
  exists z, vertex_index scene udd p a = Some z.
Proof.
  intros Hs [z0 E0] [z1 E1] Hbetween. unfold vertex_index in *.
  change (@int_of_float ExactQ) with Q_to_int32 in *.
  apply Q_to_int32_range in E0, E1. apply Q_to_int32_defined.
  assert (Hq : forall x : @point ExactQ,
            (@fdiv ExactQ (@fsub ExactQ x.[a] (dmin scene).[a]) (s udd).[a] * (s udd).[a]
             == x.[a] - (dmin scene).[a])%Q).
  { intros x. rewrite fdiv_Q, fsub_Q. field. lra. }
  pose proof (Hq p0) as H0. pose proof (Hq p1) as H1. pose proof (Hq p) as H.
  set (q0 := @fdiv ExactQ (@fsub ExactQ p0.[a] (dmin scene).[a]) (s udd).[a]) in *.
  set (q1 := @fdiv ExactQ (@fsub ExactQ p1.[a] (dmin scene).[a]) (s udd).[a]) in *.
  set (q := @fdiv ExactQ (@fsub ExactQ p.[a] (dmin scene).[a]) (s udd).[a]) in *.
  destruct E0 as [L0 U0]. destruct E1 as [L1 U1].
  destruct Hbetween as [[A B] | [A B]]; split; nra.
Qed.

Lemma accepted_of_range (scene : @RT_Scene ExactQ) (udd : @RT_Udd ExactQ) (p : @point ExactQ) :
  (forall a, (0 < (s udd).[a])%Q /\ 1 <= (nv udd).[a] <= INT32_MAX) ->
  (forall a, ((dmin scene).[a] - (s udd).[a] < p.[a]
              /\ p.[a] < (dmin scene).[a] + inject_Z (nv udd).[a] * (s udd).[a])%Q) ->
  exists i j k, rtVertexGetVoxel scene udd p = Some (true, (i, j, k)).
Proof.
  intros Hgrid H.
  assert (Hax : forall a, exists z,
            vertex_index scene udd p a = Some z /\ 0 <= z < (nv udd).[a]).
  { intros a. destruct (Hgrid a) as [Hs Hn].
    apply (vertex_index_in_range scene udd p a _ Hs Hn). apply H. }
  destruct (Hax AX) as (i & Ei & Hi).
  destruct (Hax AY) as (j & Ej & Hj).
  destruct (Hax AZ) as (k & Ek & Hk).
  exists i, j, k. apply rtVertexGetVoxel_axes. split.
  - intros a; destruct a; assumption.
  - symmetry. apply in_grid_spec. lia.
Qed.

Lemma rtVertexGetVoxel_defined (scene : @RT_Scene ExactQ) (udd : @RT_Udd ExactQ)
  (p : @point ExactQ) :
  (forall a, exists z, vertex_index scene udd p a = Some z) ->
  exists b idx, rtVertexGetVoxel scene udd p = Some (b, idx).
Proof.
  intros H. destruct (H AX) as [i Ei]. destruct (H AY) as [j Ej]. destruct (H AZ) as [k Ek].
  exists (in_grid udd i j k), (i, j, k). apply rtVertexGetVoxel_axes. split; [| reflexivity].
  intros a; destruct a; assumption.
Qed.

Lemma filter_filter_andb {A : Type} (f g : A -> bool) (l : list A) :
  filter f (filter g l) = filter (fun x => g x && f x) l.
Proof.
  induction l as [|x l IH]; simpl; [reflexivity |].
  destruct (g x); simpl; [destruct (f x) |]; rewrite IH; reflexivity.
Qed.

Lemma entry_param_within (scene : @RT_Scene ExactQ) (o r : @point ExactQ) (a : axis) :
  ((dmin scene).[a] <= o.[a] /\ o.[a] <= (dmax scene).[a])%Q ->
  entry_param scene o r a = 0%Q.
Proof.
  intros [H1 H2].
  destruct (entry_param_cases scene o r a) as [[Ho _] | [(_ & Ho & _) | (_ & _ & Ee)]];
    [lra | lra | exact Ee].
Qed.

(** The locator finds the grid.  In exact arithmetic, on a grid that covers
    the scene bounds, for a ray whose origin is within the bounds on at
    least one axis and that is within the bounds at some parameter
    [0 <= ts < FLT_MAX], [rtUddFindStartupVoxel] returns 1. *)
Theorem rtUddFindStartupVoxel_finds_entry (udd : @RT_Udd ExactQ) (scene : @RT_Scene ExactQ)
  (o r : @point ExactQ) (ts : Q) :
  (forall a, (0 < (s udd).[a])%Q /\ 1 <= (nv udd).[a] <= INT32_MAX) ->
  (forall a, ((dmin scene).[a] < (dmax scene).[a]
              /\ (dmax scene).[a] < (dmin scene).[a] + inject_Z (nv udd).[a] * (s udd).[a])%Q) ->
  (exists res, rtVertexGetVoxel scene udd o = Some res) ->
  (exists c, ((dmin scene).[c] <= o.[c] /\ o.[c] <= (dmax scene).[c])%Q) ->
  (0 <= ts /\ ts < @FLT_MAX ExactQ)%Q ->
  within_bounds scene o r ts ->
  exists i j k, rtUddFindStartupVoxel udd scene o r = Some (true, (i, j, k)).
Proof.
  intros Hgrid Hcover [[b0 [[i0 j0] k0]] E0] [c Hc] [Hts0 Htsmax] Hhit.
  (* points within the bounds are accepted *)
  assert (Hacc : forall p : @point ExactQ,
            (forall a, ((dmin scene).[a] <= p.[a] /\ p.[a] <= (dmax scene).[a])%Q) ->
            exists i j k, rtVertexGetVoxel scene udd p = Some (true, (i, j, k))).
  { intros p Hp. apply accepted_of_range; [exact Hgrid |].
    intros a. destruct (Hgrid a) as [Hs _]. destruct (Hcover a) as [_ Hc2].
    destruct (Hp a) as [Hp1 Hp2]. split; lra. }
  unfold rtUddFindStartupVoxel. rewrite E0. cbn [fst snd].
  destruct b0.
  { exists i0, j0, k0. reflexivity. }
  (* the origin is outside the bounds *)
  assert (Hout : ~ forall a, ((dmin scene).[a] <= o.[a] /\ o.[a] <= (dmax scene).[a])%Q).
  { intros H. destruct (Hacc o H) as (i & j & k & E). congruence. }
  (* the entry parameter *)
  destruct (max_axis (entry_param scene o r)) as [x0 Hmax].
  set (te := entry_param scene o r x0) in *.
  assert (Hent : forall a,
    (0 <= entry_param scene o r a /\ entry_param scene o r a <= ts)%Q
    /\ (forall t, (entry_param scene o r a <= t /\ t <= ts)%Q ->
          ((dmin scene).[a] <= o.[a] + r.[a] * t /\ o.[a] + r.[a] * t <= (dmax scene).[a])%Q)
    /\ ((0 < entry_param scene o r a)%Q ->
          ~ ((dmin scene).[a] <= o.[a] /\ o.[a] <= (dmax scene).[a])%Q
          /\ exists d, In d (axis_walls scene o r a) /\ (d == entry_param scene o r a)%Q)).
  { intros a. apply entry_param_spec; [exact Hts0 | apply Hhit]. }
  assert (Hte_ts : (te <= ts)%Q) by (apply (Hent x0)).
  assert (Hte0 : (0 < te)%Q).
  { destruct (Qlt_le_dec 0 te) as [H | H]; [exact H |]. exfalso. apply Hout. intros a.
    destruct (Hent a) as ([Ha0 _] & Hslab & _).
    assert (Hz : (o.[a] + r.[a] * 0 == o.[a])%Q) by ring.
    rewrite <- Hz. apply Hslab. pose proof (Hmax a). split; lra. }
  assert (Hin_te : within_bounds scene o r te).
  { intros a. destruct (Hent a) as (_ & Hslab & _). apply Hslab.
    split; [apply Hmax | exact Hte_ts]. }
  destruct (Hent x0) as (_ & _ & Hwall). destruct (Hwall Hte0) as (Hx0out & d0 & Hd0in & Hd0).
  fold te in Hd0.
  assert (Hcx0 : c <> x0).
  { intros ->. unfold te in Hte0. rewrite (entry_param_within scene o r x0 Hc) in Hte0. lra. }
  (* at most one positive wall distance is below [te] *)
  assert (Hcount : (length (filter (fun d => Qltb d te)
                              (filter (fun d => @flt ExactQ (@flit ExactQ 0) d)
                                      (wall_distance_list scene o r))) <= 1)%nat).
  { rewrite filter_filter_andb. change (fun x : Q => @flt ExactQ (@flit ExactQ 0) x && Qltb x te)
      with (below te).
    rewrite wall_distance_list_axes, !filter_app, !length_app.
    assert (Hax : forall a,
      (length (filter (below te) (axis_walls scene o r a)) <= 1)%nat
      /\ ((te <= entry_param scene o r a)%Q ->
          length (filter (below te) (axis_walls scene o r a)) = 0%nat)
      /\ (((dmin scene).[a] <= o.[a] /\ o.[a] <= (dmax scene).[a])%Q ->
          length (filter (below te) (axis_walls scene o r a)) = 0%nat)).
    { intros a. apply axis_count; [apply Hcover | apply Hin_te]. }
    destruct (Hax c) as (_ & _ & Hc0). specialize (Hc0 Hc).
    destruct (Hax x0) as (_ & Hx0 & _). specialize (Hx0 ltac:(unfold te; lra)).
    destruct (Hax AX) as (HX & _). destruct (Hax AY) as (HY & _). destruct (Hax AZ) as (HZ & _).
    destruct c, x0; try congruence; lia. }
  (* the two distances the locator keeps *)
  destruct (two_smallest_distances scene o r) as [m1 m2] eqn:Em.
  rewrite two_smallest_distances_fold in Em.
  destruct (@track_fold_spec ExactQ Qltb_irrefl Qltb_trans Qltb_incomparable _
              (@FLT_MAX ExactQ) (@FLT_MAX ExactQ) [] m1 m2 (Qltb_irrefl _) (Forall_nil _) Em) as (H12 & rest & Hperm & Hrest).
  cbn [app] in Hperm.
  unfold fle in H12. change (@flt ExactQ) with Qltb in H12. apply Qltb_ge in H12.
  assert (Hrest' : forall x, In x rest -> (m2 <= x)%Q).
  { intros x Hx. rewrite Forall_forall in Hrest. specialize (Hrest x Hx).
    unfold fle in Hrest. change (@flt ExactQ) with Qltb in Hrest. apply Qltb_ge in Hrest.
    exact Hrest. }
  set (L := filter (fun d => @flt ExactQ (@flit ExactQ 0) d) (wall_distance_list scene o r)) in *.
  assert (Hd0L : In d0 L).
  { unfold L. apply filter_In. split.
    - rewrite wall_distance_list_axes. rewrite !in_app_iff.
      destruct x0; auto.
    - change (@flt ExactQ) with Qltb. apply Qltb_lt. rewrite flit_Q, Hd0. exact Hte0. }
  assert (Hd0P : In d0 (m1 :: m2 :: rest)).
  { eapply Permutation_in; [exact Hperm |]. right. right. exact Hd0L. }
  assert (HcountP : (length (filter (fun d => Qltb d te) (m1 :: m2 :: rest)) <= 1)%nat).
  { rewrite <- (Permutation_count _ _ _ Hperm). cbn [filter].
    assert (Hfm : Qltb (@FLT_MAX ExactQ) te = false) by (apply Qltb_ge; lra).
    rewrite Hfm. exact Hcount. }
  assert (Hm1pos : (0 <= m1)%Q).
  { assert (Hm1P : In m1 (@FLT_MAX ExactQ :: @FLT_MAX ExactQ :: L)).
    { eapply Permutation_in; [apply Permutation_sym; exact Hperm |]. left. reflexivity. }
    destruct Hm1P as [<- | [<- | Hm1L]]; [lra | lra |].
    unfold L in Hm1L. apply filter_In in Hm1L. destruct Hm1L as [_ Hp].
    change (@flt ExactQ) with Qltb in Hp. apply Qltb_lt in Hp. rewrite flit_Q in Hp. lra. }
  assert (Hm1te : (m1 <= te)%Q).
  { destruct Hd0P as [<- | [<- | Hr]]; [lra | lra |]. specialize (Hrest' d0 Hr). lra. }
  assert (Hm : (m1 == te)%Q \/ ((m1 < te)%Q /\ (m2 == te)%Q)).
  { destruct (Qlt_le_dec m1 te) as [Hlt | Hge]; [right | left; lra].
    split; [exact Hlt |].
    assert (Hm2te : (m2 <= te)%Q).
    { destruct Hd0P as [<- | [<- | Hr]]; [lra | lra |]. specialize (Hrest' d0 Hr). lra. }
    destruct (Qlt_le_dec m2 te) as [Hlt2 | Hge2]; [| lra].
    exfalso. cbn [filter] in HcountP.
    apply Qltb_lt in Hlt, Hlt2. rewrite Hlt, Hlt2 in HcountP. cbn [length] in HcountP. lia. }
  (* a point of the ray at a parameter equal to [te] is accepted *)
  assert (Hacc_te : forall m, (m == te)%Q ->
            exists i j k, rtVertexGetVoxel scene udd (rtVectorRaypoint o r m) = Some (true, (i, j, k))).
  { intros m Hmte. apply Hacc. intros a. rewrite raypoint_exact, Hmte. apply Hin_te. }
  (* the conversion is defined at the first tested point *)
  assert (Hdef1 : exists b idx, rtVertexGetVoxel scene udd (rtVectorRaypoint o r m1) = Some (b, idx)).
  { apply rtVertexGetVoxel_defined. intros a. destruct (Hgrid a) as [Hs _].
    destruct (Hacc_te te ltac:(reflexivity)) as (i & j & k & Ee).
    apply rtVertexGetVoxel_axes in Ee. destruct Ee as [Ee _].
    apply rtVertexGetVoxel_axes in E0. destruct E0 as [E0 _].
    apply (vertex_index_between scene udd o (rtVectorRaypoint o r te) _ a Hs).
    - eexists. apply E0.
    - eexists. apply Ee.
    - rewrite !raypoint_exact.
      destruct (Qlt_le_dec r.[a] 0) as [Hr | Hr]; [right | left]; split; nra. }
  destruct Hdef1 as (b1 & idx1 & E1). rewrite E1. cbn [fst snd].
  destruct b1.
  { destruct idx1 as [[i j] k]. exists i, j, k. reflexivity. }
  destruct Hm as [Hm1 | [_ Hm2]].
  { destruct (Hacc_te m1 Hm1) as (i & j & k & E). congruence. }
  destruct (Hacc_te m2 Hm2) as (i & j & k & E). rewrite E. cbn [fst snd].
  exists i, j, k. reflexivity.
Qed.

(** ** Exact arithmetic: the walk follows the ray *)











(** ** Further instances on the concrete scenes *)

Lemma empty_grid_passed_over (current : option tri_ptr) (o r : @point ExactQ) :
  forall vox, In vox (v grid_empty) ->
              Forall (passed_over scene_AB' current o r) (voxel_cells vox).
Proof.
  intros vox Hin. apply repeat_spec in Hin. subst vox. constructor.
Qed.

Lemma rtUddTraverse_misses_witness :
  rtUddTraverse 7 grid_empty scene_AB' None ray_o ray_r 0 0 1 = NoHit.
Proof.
  apply (rtUddTraverse_misses grid_empty scene_AB' None ray_o ray_r 0 0 1 7%nat).
  - reflexivity.
  - reflexivity.
  - apply empty_grid_passed_over.
  - simpl. lia.
Defined.

Lemma rtUddTraverse_miss_nothing_below_witness :
  let c := fst (dda_init grid_AB scene_AB' away_o away_r 0 0 0) in
  let cur0 := snd (dda_init grid_AB scene_AB' away_o away_r 0 0 0) in
  exists n : nat,
    cursor_in_grid grid_AB (cursor_after c cur0 (S n)) = false
    /\ (forall m, (m < n)%nat -> cursor_in_grid grid_AB (cursor_after c cur0 (S m)) = true)
    /\ (forall m, (m <= n)%nat ->
          exists cells,
            cells_at grid_AB (cursor_after c cur0 m) = Some cells
            /\ nothing_below scene_AB' None away_o away_r cells
                 (exit_bound c (cursor_after c cur0 m))).
Proof.
  apply (@rtUddTraverse_miss_nothing_below ExactQ Qltb_irrefl Qltb_trans
           7%nat grid_AB scene_AB' None away_o away_r 0 0 0).
  reflexivity.
Defined.

Lemma rtUddFindStartupVoxel_finds_entry_witness :
  exists i j k, rtUddFindStartupVoxel grid_AB scene_AB' low_o low_r = Some (true, (i, j, k)).
Proof.
  apply (rtUddFindStartupVoxel_finds_entry grid_AB scene_AB' low_o low_r 1).
  - intros a. destruct a; (split; [reflexivity | unfold INT32_MAX; simpl; lia]).
  - intros a. destruct a; split; reflexivity.
  - eexists. reflexivity.
  - exists AZ. split; discriminate.
  - split; [discriminate | reflexivity].
  - intros a. destruct a; split; discriminate.
Defined.

Lemma low_ray_is_found_at_the_second_distance :
  rtVertexGetVoxel scene_AB' grid_AB low_o = Some (false, (-4, 0, 1))
  /\ two_smallest_distances scene_AB' low_o low_r = ((1 # 2)%Q, 1%Q)
  /\ rtVertexGetVoxel scene_AB' grid_AB (rtVectorRaypoint low_o low_r (1 # 2))
     = Some (false, (-2, 0, 1))
  /\ rtUddFindStartupVoxel grid_AB scene_AB' low_o low_r = Some (true, (0, 0, 1)).
Proof. repeat split; reflexivity. Qed.

